(** * planorma-rsvp-be: a shallow embedding of the RSVP back end

    The route handlers of [routes/rsvps.ts], [routes/tokens.ts] and
    [routes/events.ts] are embedded as pure functions over an explicit
    database state.  Collections are lists of documents in insertion
    order ([findOne] returns the first match), JavaScript [Map] objects
    are [gmap]s, and request bodies are JSON objects ([gmap string JSON]).

    A JavaScript number is the rational that the double denotes; [+] and
    [-] round the exact result to the nearest double, ties to even
    ([round64]).  NaN, the infinities and the sign of zero are not
    represented: no JSON text parses to NaN, the schemas refuse the
    infinities, a negative zero reads and prints as zero in these
    handlers, and a sum that leaves the range of doubles is outside the
    model.

    A handler is a function from the state before the request to the state
    after it.  The handler of [POST /token/:token] is also given in two
    parts, its reads ([admitTokenRsvp]) and its writes ([storeTokenRsvp]),
    since it awaits between them and other requests may be served in
    between ([interleave]).  Identifiers are handed out by a counter that
    stands for the driver's [ObjectId] generator.  Path parameters are
    well-formed object ids, the database is reachable, and the rate
    limiters are not modelled. *)

From Stdlib Require Import Ascii String QArith Qminmax Qcanon Qpower Qabs Lqa.
From stdpp Require Import base option list gmap strings sorting.

Local Open Scope Z_scope.

(** ** Values shared by all models *)

Definition ObjectId := nat.

Inductive Status := Going | Maybe | NotGoing.
Inductive Diet := Nonveg | Veg | Vegan.
Inductive Role := Admin | Member.

Global Instance Status_eq_dec : EqDecision Status.
Proof. solve_decision. Defined.
Global Instance Diet_eq_dec : EqDecision Diet.
Proof. solve_decision. Defined.
Global Instance Role_eq_dec : EqDecision Role.
Proof. solve_decision. Defined.

Definition status_to_string (s : Status) : string :=
  match s with
  | Going => "going"
  | Maybe => "maybe"
  | NotGoing => "not-going"
  end.

(** A JSON value as [express.json()] hands it to the handler: a number is
    the double that [JSON.parse] made of the text.  A key that is missing
    from the body object reads as [undefined]. *)
Inductive JSON :=
| JNull
| JBool (b : bool)
| JNum (q : Q)
| JStr (s : string)
| JCompound.

Abbreviation Body := (gmap string JSON).

(** JavaScript truthiness of an optional string: [undefined] and the empty
    string are falsy. *)
Definition truthy_str (o : option string) : bool :=
  match o with
  | Some s => negb (String.eqb s "")
  | None => false
  end.

(** [Number.isInteger] on a rational. *)
Definition isInteger (q : Q) : bool := (Qden (Qred q) =? 1)%positive.

(** ** Arithmetic on doubles *)

(** [n / d] rounded to the nearest integer, a tie to the even one. *)
Definition roundHalfEven (n : Z) (d : positive) : Z :=
  let f := n / Zpos d in
  match 2 * (n mod Zpos d) ?= Zpos d with
  | Lt => f
  | Gt => f + 1
  | Eq => if Z.even f then f else f + 1
  end.

(** Whether [2 ^ e ≤ n / d]. *)
Definition pow2_le (e : Z) (n : Z) (d : positive) : bool :=
  if e <? 0 then Zpos d <=? n * 2 ^ (- e) else 2 ^ e * Zpos d <=? n.

(** The binary exponent of a positive [n / d], and that of the smallest
    normal double when [n / d] is below it. *)
Definition exponent64 (n : Z) (d : positive) : Z :=
  let e0 := Z.log2 n - Z.log2 (Zpos d) in
  Z.max (if pow2_le e0 n d then e0 else e0 - 1) (-1022).

(** The double nearest to a rational: 53 bits of precision, round to
    nearest, ties to even, gradual underflow. *)
Definition round64 (q : Q) : Q :=
  let r := Qred q in
  let n := Z.abs (Qnum r) in
  if n =? 0 then 0%Q else
  let u := exponent64 n (Qden r) - 52 in
  if u <? 0 then
    Qred (Z.sgn (Qnum r) * roundHalfEven (n * 2 ^ (- u)) (Qden r)
          # Z.to_pos (2 ^ (- u)))
  else
    inject_Z (Z.sgn (Qnum r)
              * roundHalfEven n (Qden r * Z.to_pos (2 ^ u)) * 2 ^ u).

(** [x + y] and [x - y] on numbers. *)
Definition js_add (x y : Q) : Q := round64 (x + y).
Definition js_sub (x y : Q) : Q := round64 (x - y).

(** Powers of two as rationals, and the fraction [n / d / 2 ^ u] that
    [round64] rounds to an integer; they serve to state what [round64]
    computes. *)
Definition twoTo (z : Z) : Q := (2 ^ z)%Q.
Definition scaledNum (n : Z) (u : Z) : Z :=
  if u <? 0 then n * 2 ^ (- u) else n.
Definition scaledDen (d : positive) (u : Z) : positive :=
  if u <? 0 then d else (d * Z.to_pos (2 ^ u))%positive.

(** ** Models *)

Module User.
Record t := mk {
  _id : ObjectId;
  email : string;
  role : Role;
}.
End User.

Module Event.
(** [models/Event.ts]; [date] and the timestamps are milliseconds. *)
Record t := mk {
  _id : ObjectId;
  title : string;
  description : string;
  date : Z;
  location : string;
  category : string;
  capacity : Q;
  hostName : string;
  hostMobile : string;
  hostEmail : string;
  createdBy : ObjectId;
  createdAt : Z;
  updatedAt : Z;
}.
End Event.

Module Token.
(** [models/Token.ts] *)
Record t := mk {
  _id : ObjectId;
  eventId : ObjectId;
  email : string;
  name : option string;
  token : string;
  createdAt : Z;
  updatedAt : Z;
}.
End Token.

Module RSVP.
(** [models/RSVP.ts]; an absent field is [None]. *)
Record t := mk {
  _id : ObjectId;
  eventId : ObjectId;
  userId : option ObjectId;
  tokenId : option ObjectId;
  status : Status;
  companions : option Q;
  guestName : option string;
  guestEmail : option string;
  dietaryPreference : option Diet;
  companionDietaryPreference : option Diet;
  createdAt : Z;
  updatedAt : Z;
}.
End RSVP.

(** The database, the process environment, and the console. *)
Record State := mkState {
  users : list User.t;
  events : list Event.t;
  tokens : list Token.t;
  rsvps : list RSVP.t;
  emailConfigured : bool;
  console : list string;
  nextId : ObjectId;
}.

(** ** zod schemas *)

(** [z.enum(['going', 'maybe', 'not-going'])] *)
Definition parse_status3 (v : option JSON) : option Status :=
  match v with
  | Some (JStr s) =>
      if String.eqb s "going" then Some Going
      else if String.eqb s "maybe" then Some Maybe
      else if String.eqb s "not-going" then Some NotGoing
      else None
  | _ => None
  end.

(** [z.enum(['going', 'not-going'])] *)
Definition parse_status2 (v : option JSON) : option Status :=
  match v with
  | Some (JStr s) =>
      if String.eqb s "going" then Some Going
      else if String.eqb s "not-going" then Some NotGoing
      else None
  | _ => None
  end.

(** [z.number().min(0).max(5).default(0)] *)
Definition parse_companions (v : option JSON) : option Q :=
  match v with
  | None => Some 0%Q
  | Some (JNum q) =>
      if Qle_bool 0 q && Qle_bool q 5 then Some q else None
  | Some _ => None
  end.

(** [z.string().optional()]: the outer [option] is the parse result. *)
Definition parse_opt_string (v : option JSON) : option (option string) :=
  match v with
  | None => Some None
  | Some (JStr s) => Some (Some s)
  | Some _ => None
  end.

(** [z.enum(['nonveg', 'veg', 'vegan']).optional()] *)
Definition parse_opt_diet (v : option JSON) : option (option Diet) :=
  match v with
  | None => Some None
  | Some (JStr s) =>
      if String.eqb s "nonveg" then Some (Some Nonveg)
      else if String.eqb s "veg" then Some (Some Veg)
      else if String.eqb s "vegan" then Some (Some Vegan)
      else None
  | Some _ => None
  end.

(** [rsvpSchema.parse]; [None] is a thrown [ZodError]. *)
Definition rsvpSchema (body : Body) : option Status :=
  parse_status3 (body !! "status").

Record TokenRsvpInput := mkTokenRsvpInput {
  in_status : Status;
  in_companions : Q;
  in_guestName : option string;
  in_dietaryPreference : option Diet;
  in_companionDietaryPreference : option Diet;
}.

(** [tokenRsvpSchema.parse] *)
Definition tokenRsvpSchema (body : Body) : option TokenRsvpInput :=
  st ← parse_status2 (body !! "status");
  c ← parse_companions (body !! "companions");
  g ← parse_opt_string (body !! "guestName");
  d ← parse_opt_diet (body !! "dietaryPreference");
  cd ← parse_opt_diet (body !! "companionDietaryPreference");
  Some (mkTokenRsvpInput st c g d cd).

(** ** Record updates *)

Definition set_rsvps (s : State) (l : list RSVP.t) : State :=
  mkState (users s) (events s) (tokens s) l (emailConfigured s) (console s)
          (nextId s).

Definition set_tokens (s : State) (l : list Token.t) : State :=
  mkState (users s) (events s) l (rsvps s) (emailConfigured s) (console s)
          (nextId s).

Definition set_events (s : State) (l : list Event.t) : State :=
  mkState (users s) l (tokens s) (rsvps s) (emailConfigured s) (console s)
          (nextId s).

Definition bump_nextId (s : State) : State :=
  mkState (users s) (events s) (tokens s) (rsvps s) (emailConfigured s)
          (console s) (S (nextId s)).

(** [console.log] and [console.error] write to the one console. *)
Definition console_log (s : State) (line : string) : State :=
  mkState (users s) (events s) (tokens s) (rsvps s) (emailConfigured s)
          (console s ++ [line]) (nextId s).

Definition console_error (s : State) (line : string) : State :=
  console_log s line.

(** [$set: { field: v }] on one document of a collection with timestamps:
    the first document that matches is replaced, as [findOneAndUpdate] and
    [findByIdAndUpdate] do. *)
Fixpoint updateFirst {A} (p : A -> bool) (f : A -> A) (l : list A) : list A :=
  match l with
  | [] => []
  | x :: l' => if p x then f x :: l' else x :: updateFirst p f l'
  end.

(** ** Queries shared by the handlers *)

(** [Event.findOne({ _id, createdBy })] *)
Definition findOwnEvent (s : State) (id owner : ObjectId) : option Event.t :=
  List.find (fun e => Nat.eqb (Event._id e) id
                      && Nat.eqb (Event.createdBy e) owner) (events s).

(** [Event.findById] *)
Definition findEventById (s : State) (id : ObjectId) : option Event.t :=
  List.find (fun e => Nat.eqb (Event._id e) id) (events s).

(** [Token.findOne({ token })] *)
Definition findToken (s : State) (tok : string) : option Token.t :=
  List.find (fun t => String.eqb (Token.token t) tok) (tokens s).

(** The filter [{ eventId, userId }] *)
Definition isUserRsvp (e u : ObjectId) (r : RSVP.t) : bool :=
  Nat.eqb (RSVP.eventId r) e
  && match RSVP.userId r with Some u' => Nat.eqb u' u | None => false end.

(** The filter [{ tokenId, eventId }] *)
Definition isTokenRsvp (e t : ObjectId) (r : RSVP.t) : bool :=
  Nat.eqb (RSVP.eventId r) e
  && match RSVP.tokenId r with Some t' => Nat.eqb t' t | None => false end.

(** The filter [{ eventId, status: 'going' }] *)
Definition isGoingRsvp (e : ObjectId) (r : RSVP.t) : bool :=
  Nat.eqb (RSVP.eventId r) e && bool_decide (RSVP.status r = Going).

(** [rsvp.companions || 0] *)
Definition companionsOrZero (r : RSVP.t) : Q :=
  match RSVP.companions r with
  | Some q => if Qeq_bool q 0 then 0%Q else q
  | None => 0%Q
  end.

(** [rsvps.reduce((sum, rsvp) => sum + 1 + (rsvp.companions || 0), 0)] *)
Definition reduceAttendees (l : list RSVP.t) : Q :=
  fold_left (fun sum r => js_add (js_add sum 1) (companionsOrZero r)) l 0%Q.

(** The count the token route computes before admitting a guest. *)
Definition currentAttendees (s : State) (e : ObjectId) : Q :=
  reduceAttendees (List.filter (isGoingRsvp e) (rsvps s)).

(** The two partial unique indexes of [models/RSVP.ts], as an insert meets
    them: a document with a [userId] collides with a stored one of the same
    [(eventId, userId)], a document with a [tokenId] with a stored one of
    the same [(eventId, tokenId)]. *)
Definition duplicateKey (l : list RSVP.t) (r : RSVP.t) : bool :=
  match RSVP.userId r with
  | Some u => existsb (isUserRsvp (RSVP.eventId r) u) l
  | None => false
  end
  || match RSVP.tokenId r with
     | Some t => existsb (isTokenRsvp (RSVP.eventId r) t) l
     | None => false
     end.

(** [requireAdmin] once [authenticate] has set [req.user]. *)
Definition isAdmin (caller : User.t) : bool :=
  bool_decide (User.role caller = Admin).

(** ** [routes/rsvps.ts] *)

Inductive UserRsvpResponse :=
| UR_Ok (id eventId : ObjectId) (userId : option ObjectId) (status : Status)
| UR_Forbidden
| UR_ValidationError
| UR_EventNotFound.

Definition UserRsvpResponse_code (r : UserRsvpResponse) : Z :=
  match r with
  | UR_Ok _ _ _ _ => 200
  | UR_Forbidden => 403
  | UR_ValidationError => 400
  | UR_EventNotFound => 404
  end.

Inductive TokenRsvpResponse :=
| TR_Created (id : ObjectId) (status : Status) (companions : option Q)
             (totalAttendees : Q)
| TR_ValidationError
| TR_InvalidToken
| TR_EventNotFound
| TR_AlreadyResponded (status : Status) (companions : option Q)
                      (respondedAt : Z)
| TR_EventFull (availableSpots : Q)
| TR_ServerError.

Definition TokenRsvpResponse_code (r : TokenRsvpResponse) : Z :=
  match r with
  | TR_Created _ _ _ _ => 201
  | TR_ValidationError => 400
  | TR_InvalidToken => 404
  | TR_EventNotFound => 404
  | TR_AlreadyResponded _ _ _ => 400
  | TR_EventFull _ => 400
  | TR_ServerError => 500
  end.

Record DietaryStats := mkStats {
  nonveg : nat;
  veg : nat;
  vegan : nat;
  notSpecified : nat;
}.

Inductive DietaryStatsResponse :=
| DS_Ok (stats : DietaryStats)
| DS_Forbidden
| DS_EventNotFound.

Inductive CleanupResponse :=
| CL_Ok (deletedCount : nat)
| CL_Forbidden.

(** The [$set] of the user upsert: [eventId] and [userId] are rewritten
    with the values the filter matched on, [status] with the new one. *)
Definition setUserRsvp (e u : ObjectId) (st : Status) (now : Z)
    (r : RSVP.t) : RSVP.t :=
  RSVP.mk (RSVP._id r) e (Some u) (RSVP.tokenId r) st (RSVP.companions r)
          (RSVP.guestName r) (RSVP.guestEmail r) (RSVP.dietaryPreference r)
          (RSVP.companionDietaryPreference r) (RSVP.createdAt r) now.

(** The document an upsert inserts: the filter's fields, the update's
    fields and the schema default of [companions]. *)
Definition newUserRsvp (id e u : ObjectId) (st : Status) (now : Z) : RSVP.t :=
  RSVP.mk id e (Some u) None st (Some 0%Q) None None None None now now.

(** [RSVP.findOneAndUpdate(filter, update, { upsert: true, new: true })] *)
Definition upsertUserRsvp (s : State) (now : Z) (e u : ObjectId)
    (st : Status) : State * RSVP.t :=
  match List.find (isUserRsvp e u) (rsvps s) with
  | Some r =>
      (set_rsvps s (updateFirst (isUserRsvp e u) (setUserRsvp e u st now)
                                (rsvps s)),
       setUserRsvp e u st now r)
  | None =>
      let r := newUserRsvp (nextId s) e u st now in
      (bump_nextId (set_rsvps s (rsvps s ++ [r])), r)
  end.

(** [POST /:eventId] *)
Definition submitUserRSVP (s : State) (now : Z) (caller : User.t)
    (eventId : ObjectId) (body : Body) : State * UserRsvpResponse :=
  if negb (isAdmin caller) then (s, UR_Forbidden) else
  match rsvpSchema body with
  | None => (s, UR_ValidationError)
  | Some st =>
      match findOwnEvent s eventId (User._id caller) with
      | None => (s, UR_EventNotFound)
      | Some _ =>
          let '(s', r) := upsertUserRsvp s now eventId (User._id caller) st in
          (s', UR_Ok (RSVP._id r) (RSVP.eventId r) (RSVP.userId r)
                     (RSVP.status r))
      end
  end.

(** [validated.status === 'going' ? 1 + validated.companions : 0] *)
Definition totalAttendeesOf (v : TokenRsvpInput) : Q :=
  if bool_decide (in_status v = Going) then js_add 1 (in_companions v)
  else 0%Q.

Section WithStrings.
(** [String.prototype.trim] and [toLowerCase], which the schemas'
    [trim: true] and [lowercase: true] setters apply. *)
Variable trim : string -> string.
Variable toLowerCase : string -> string.

(** [rsvpData], after the schema setters; [userId] is left out. *)
Definition rsvpData (id : ObjectId) (tk : Token.t) (v : TokenRsvpInput)
    (now : Z) : RSVP.t :=
  RSVP.mk id (Token.eventId tk) None (Some (Token._id tk)) (in_status v)
          (Some (in_companions v))
          (trim <$> (if truthy_str (in_guestName v) then in_guestName v
                     else Token.name tk))
          (Some (trim (toLowerCase (Token.email tk))))
          (in_dietaryPreference v) (in_companionDietaryPreference v)
          now now.

(** [Token.findByIdAndUpdate(tokenDoc._id, { name })] *)
Definition setTokenName (id : ObjectId) (n : string) (now : Z)
    (l : list Token.t) : list Token.t :=
  updateFirst (fun t => Nat.eqb (Token._id t) id)
    (fun t => Token.mk (Token._id t) (Token.eventId t) (Token.email t)
                       (Some n) (Token.token t) (Token.createdAt t) now) l.

(** The tail of [POST /token/:token] once [RSVP.create] has inserted the
    document. *)
Definition createTokenRsvp (s : State) (now : Z) (tk : Token.t)
    (v : TokenRsvpInput) : State * TokenRsvpResponse :=
  let r := rsvpData (nextId s) tk v now in
  let s1 := bump_nextId (set_rsvps s (rsvps s ++ [r])) in
  let s2 :=
    match in_guestName v with
    | Some g =>
        if negb (String.eqb g "") && negb (String.eqb (trim g) "")
        then set_tokens s1 (setTokenName (Token._id tk) (trim g) now
                                         (tokens s1))
        else s1
    | None => s1
    end in
  (s2, TR_Created (RSVP._id r) (RSVP.status r) (RSVP.companions r)
                  (totalAttendeesOf v)).

(** The writes of [POST /token/:token], from [RSVP.create] on.  The insert
    meets the unique indexes; a duplicate key is thrown, logged by the
    last [catch] and answered with 500. *)
Definition storeTokenRsvp (s : State) (now : Z) (tk : Token.t)
    (v : TokenRsvpInput) : State * TokenRsvpResponse :=
  if duplicateKey (rsvps s) (rsvpData (nextId s) tk v now)
  then (console_error (console_error s "Token RSVP error:") "Error details:",
        TR_ServerError)
  else createTokenRsvp s now tk v.

(** The reads of [POST /token/:token] after the body is parsed, up to the
    capacity check: the answer that ends the request, or the token the
    handler goes on to write with.  [existingRsvp] is a hydrated document,
    so a stored response without [companions] reads with the schema
    default. *)
Definition admitTokenRsvp (s : State) (tok : string) (v : TokenRsvpInput)
    : TokenRsvpResponse + Token.t :=
  match findToken s tok with
  | None => inl TR_InvalidToken
  | Some tk =>
  match findEventById s (Token.eventId tk) with
  | None => inl TR_EventNotFound
  | Some ev =>
  match List.find (isTokenRsvp (Token.eventId tk) (Token._id tk)) (rsvps s) with
  | Some ex =>
      inl (TR_AlreadyResponded (RSVP.status ex)
                               (Some (default 0%Q (RSVP.companions ex)))
                               (RSVP.createdAt ex))
  | None =>
      if bool_decide (in_status v = Going) then
        let cur := currentAttendees s (Token.eventId tk) in
        if negb (Qle_bool (js_add cur (totalAttendeesOf v)) (Event.capacity ev))
        then inl (TR_EventFull (js_sub (Event.capacity ev) cur))
        else inr tk
      else inr tk
  end end end.

(** [POST /token/:token], served without another request in between. *)
Definition submitTokenRSVP (s : State) (now : Z) (tok : string)
    (body : Body) : State * TokenRsvpResponse :=
  match tokenRsvpSchema body with
  | None => (console_error s "Validation error:", TR_ValidationError)
  | Some v =>
      match admitTokenRsvp s tok v with
      | inl resp => (s, resp)
      | inr tk => storeTokenRsvp s now tk v
      end
  end.
End WithStrings.

(** [DELETE /cleanup-orphaned]: [RSVP.deleteMany({ userId: null })] matches
    every document whose [userId] is null or missing. *)
Definition cleanupOrphaned (s : State) (caller : User.t)
    : State * CleanupResponse :=
  if negb (isAdmin caller) then (s, CL_Forbidden) else
  let kept := List.filter (fun r => bool_decide (is_Some (RSVP.userId r)))
                          (rsvps s) in
  (set_rsvps s kept, CL_Ok (length (rsvps s) - length kept)%nat).

(** One [stats.x++] *)
Definition countPreference (d : option Diet) (st : DietaryStats)
    : DietaryStats :=
  match d with
  | Some Nonveg => mkStats (S (nonveg st)) (veg st) (vegan st) (notSpecified st)
  | Some Veg => mkStats (nonveg st) (S (veg st)) (vegan st) (notSpecified st)
  | Some Vegan => mkStats (nonveg st) (veg st) (S (vegan st)) (notSpecified st)
  | None => mkStats (nonveg st) (veg st) (vegan st) (S (notSpecified st))
  end.

(** [rsvp.companions > 0]; the comparison is false on [undefined]. *)
Definition hasCompanion (r : RSVP.t) : bool :=
  match RSVP.companions r with
  | Some q => negb (Qle_bool q 0)
  | None => false
  end.

(** The body of the [forEach] callback. *)
Definition countRsvp (st : DietaryStats) (r : RSVP.t) : DietaryStats :=
  let st1 := countPreference (RSVP.dietaryPreference r) st in
  if hasCompanion r
  then countPreference (RSVP.companionDietaryPreference r) st1
  else st1.

Definition computeStats (l : list RSVP.t) : DietaryStats :=
  fold_left countRsvp l (mkStats 0 0 0 0).

(** [GET /event/:eventId/dietary-stats] *)
Definition dietaryStats (s : State) (caller : User.t) (eventId : ObjectId)
    : DietaryStatsResponse :=
  if negb (isAdmin caller) then DS_Forbidden else
  match findOwnEvent s eventId (User._id caller) with
  | None => DS_EventNotFound
  | Some _ => DS_Ok (computeStats (List.filter (isGoingRsvp eventId) (rsvps s)))
  end.

(** ** [routes/tokens.ts] *)

(** [new Map(entries)]: a later entry replaces an earlier one with the
    same key. *)
Definition js_Map `{Countable K} {V} (entries : list (K * V)) : gmap K V :=
  foldl (fun m kv => <[kv.1 := kv.2]> m) ∅ entries.

(** [Array.prototype.slice(start, end)], negative indices included. *)
Definition js_slice {A} (l : list A) (start stop : Z) : list A :=
  let len := Z.of_nat (length l) in
  let k := if start <? 0 then Z.max (len + start) 0 else Z.min start len in
  let fin := if stop <? 0 then Z.max (len + stop) 0 else Z.min stop len in
  take (Z.to_nat (fin - k)) (drop (Z.to_nat k) l).

(** [parseInt(x) || dflt]: [NaN] ([None]) and [0] are falsy. *)
Definition parseIntOr (x : option Z) (dflt : Z) : Z :=
  match x with
  | Some n => if n =? 0 then dflt else n
  | None => dflt
  end.

(** [Math.ceil(a / b)] for [b ≠ 0]. *)
Definition ceilDiv (a b : Z) : Z := - ((- a) / b).

(** The query string, with [parseInt] already applied to [page] and
    [limit] ([None] is [NaN]). *)
Record Query := mkQuery {
  q_page : option Z;
  q_limit : option Z;
  q_search : option string;
  q_status : option string;
}.

Record Invitee := mkInvitee {
  inv_id : ObjectId;
  inv_email : string;
  inv_name : option string;
  inv_token : string;
  inv_createdAt : Z;
  rsvpStatus : option Status;
  inv_companions : Q;
}.

Record Pagination := mkPagination {
  pg_page : Z;
  pg_limit : Z;
  pg_total : Z;
  pg_totalPages : Z;
}.

Inductive InviteesResponse :=
| IV_Ok (page : list Invitee) (pagination : Pagination)
| IV_Forbidden
| IV_EventNotFound
| IV_ServerError.

(** [.sort({ createdAt: -1 })]: newest first. *)
Definition newerFirst (a b : Token.t) : Prop :=
  Token.createdAt b ≤ Token.createdAt a.

Global Instance newerFirst_dec : RelDecision newerFirst.
Proof. intros a b. unfold newerFirst. apply _. Defined.

(** The resolution of one token against the two maps. *)
Definition resolveToken (emailToUserIdMap : gmap string ObjectId)
    (userIdToRsvpMap tokenIdToRsvpMap : gmap ObjectId (Status * Q))
    (t : Token.t) : Invitee :=
  let userId := emailToUserIdMap !! Token.email t in
  let '(st, c) :=
    match tokenIdToRsvpMap !! Token._id t with
    | Some tokenRsvp => (Some tokenRsvp.1, tokenRsvp.2)
    | None =>
        match userId with
        | Some uid =>
            match userIdToRsvpMap !! uid with
            | Some userRsvp => (Some userRsvp.1, userRsvp.2)
            | None => (None, 0%Q)
            end
        | None => (None, 0%Q)
        end
    end in
  mkInvitee (Token._id t) (Token.email t) (Token.name t) (Token.token t)
            (Token.createdAt t) st c.

(** The entries [[key, { status, companions: r.companions || 0 }]] of the
    two RSVP maps; [key] picks the identity field. *)
Definition rsvpEntries (key : RSVP.t -> option ObjectId) (l : list RSVP.t)
    : list (ObjectId * (Status * Q)) :=
  omap (fun r => (fun k => (k, (RSVP.status r, companionsOrZero r))) <$> key r) l.

(** [{ userId: { $in: ids } }] and [{ tokenId: { $in: ids } }] *)
Definition idIn (ids : list ObjectId) (o : option ObjectId) : bool :=
  match o with
  | Some i => bool_decide (i ∈ ids)
  | None => false
  end.

(** The status filter on the resolved list. *)
Definition applyStatusFilter (statusFilter : option string)
    (l : list Invitee) : list Invitee :=
  match statusFilter with
  | Some f =>
      if String.eqb f "" then l
      else if String.eqb f "pending"
      then List.filter (fun t => bool_decide (rsvpStatus t = None)) l
      else List.filter (fun t =>
             match rsvpStatus t with
             | Some st => String.eqb (status_to_string st) f
             | None => false
             end) l
  | None => l
  end.

(** [User.find({ email: { $in: emails } })] *)
Definition foundUsers (s : State) (all : list Token.t) : list User.t :=
  let emails := Token.email <$> all in
  List.filter (fun u => bool_decide (User.email u ∈ emails)) (users s).

Definition emailToUserIdMap (s : State) (all : list Token.t)
    : gmap string ObjectId :=
  js_Map ((fun u => (User.email u, User._id u)) <$> foundUsers s all).

(** [RSVP.find({ eventId, userId: { $in: userIds } })] and its map. *)
Definition userRsvps (s : State) (e : ObjectId) (all : list Token.t)
    : list RSVP.t :=
  let userIds := User._id <$> foundUsers s all in
  List.filter (fun r => Nat.eqb (RSVP.eventId r) e
                        && idIn userIds (RSVP.userId r)) (rsvps s).

Definition userIdToRsvpMap (s : State) (e : ObjectId) (all : list Token.t)
    : gmap ObjectId (Status * Q) :=
  js_Map (rsvpEntries RSVP.userId (userRsvps s e all)).

(** [RSVP.find({ tokenId: { $in: tokenIds }, eventId })] and its map. *)
Definition tokenRsvps (s : State) (e : ObjectId) (all : list Token.t)
    : list RSVP.t :=
  let tokenIds := Token._id <$> all in
  List.filter (fun r => idIn tokenIds (RSVP.tokenId r)
                        && Nat.eqb (RSVP.eventId r) e) (rsvps s).

Definition tokenIdToRsvpMap (s : State) (e : ObjectId) (all : list Token.t)
    : gmap ObjectId (Status * Q) :=
  js_Map (rsvpEntries RSVP.tokenId (tokenRsvps s e all)).

Section WithRegex.
(** [{ $regex: pattern, $options: 'i' }] as the database evaluates it, and
    whether the database accepts the pattern as a regular expression. *)
Variable regexTest : string -> string -> bool.
Variable regexValid : string -> bool.

(** [Token.find(searchQuery)], before the sort. *)
Definition matchesSearch (e : ObjectId) (search : option string)
    (t : Token.t) : bool :=
  Nat.eqb (Token.eventId t) e
  && (if truthy_str search then
        let pat := default "" search in
        regexTest pat (Token.email t)
        || match Token.name t with
           | Some n => regexTest pat n
           | None => false
           end
      else true).

Definition allTokens (s : State) (e : ObjectId) (search : option string)
    : list Token.t :=
  merge_sort newerFirst (List.filter (matchesSearch e search) (tokens s)).

(** [tokensWithStatus], before the status filter. *)
Definition tokensWithStatus (s : State) (e : ObjectId)
    (search : option string) : list Invitee :=
  let all := allTokens s e search in
  resolveToken (emailToUserIdMap s all) (userIdToRsvpMap s e all)
               (tokenIdToRsvpMap s e all) <$> all.

(** [GET /:eventId] of the token router. *)
Definition listInvitees (s : State) (caller : User.t) (eventId : ObjectId)
    (q : Query) : InviteesResponse :=
  if negb (isAdmin caller) then IV_Forbidden else
  match findOwnEvent s eventId (User._id caller) with
  | None => IV_EventNotFound
  | Some _ =>
      let page := parseIntOr (q_page q) 1 in
      let limit := parseIntOr (q_limit q) 10 in
      let skip := (page - 1) * limit in
      (* [Token.find] rejects when the pattern does not compile *)
      if truthy_str (q_search q) && negb (regexValid (default "" (q_search q)))
      then IV_ServerError else
      let filtered :=
        applyStatusFilter (q_status q)
                          (tokensWithStatus s eventId (q_search q)) in
      let totalTokens := Z.of_nat (length filtered) in
      IV_Ok (js_slice filtered skip (skip + limit))
            (mkPagination page limit totalTokens (ceilDiv totalTokens limit))
  end.
End WithRegex.

Inductive CreateTokenResponse :=
| CT_Created (id : ObjectId) (email : string) (name : option string)
             (token : string) (rsvpStatus : option Status) (emailSent : bool)
| CT_Forbidden
| CT_ValidationError
| CT_EventNotFound
| CT_ServerError.

Definition CreateTokenResponse_code (r : CreateTokenResponse) : Z :=
  match r with
  | CT_Created _ _ _ _ _ _ => 201
  | CT_Forbidden => 403
  | CT_ValidationError => 400
  | CT_EventNotFound => 404
  | CT_ServerError => 500
  end.

(** [services/emailService.ts] *)
Definition isEmailServiceConfigured (s : State) : bool := emailConfigured s.

(** [sendEmail]; [transport] is what [transporter.sendMail] does this time:
    a message id, or [None] when it throws.  The result [None] is a thrown
    error. *)
Definition sendEmail (s : State) (transport : option string)
    : State * option string :=
  if negb (isEmailServiceConfigured s) then (s, None) else
  match transport with
  | Some messageId => (console_log s "Email sent successfully:", Some messageId)
  | None => (s, None)
  end.

Section WithEmail.
Variable trim : string -> string.
Variable toLowerCase : string -> string.
(** zod's [.email()] check. *)
Variable isEmail : string -> bool.

(** [tokenSchema.parse] *)
Definition tokenSchema (body : Body) : option (string * option string) :=
  e ← match body !! "email" with
      | Some (JStr a) => if isEmail a then Some (trim (toLowerCase a)) else None
      | _ => None
      end;
  n ← parse_opt_string (body !! "name");
  Some (e, n).

(** [POST /:eventId] of the token router.  [random] is the value of
    [generateToken()], [transport] the outcome of the mail transport.
    The rendering of the message from the template reads the database
    only and is left out. *)
Definition createToken (s : State) (now : Z) (caller : User.t)
    (eventId : ObjectId) (body : Body) (random : string)
    (transport : option string) : State * CreateTokenResponse :=
  if negb (isAdmin caller) then (s, CT_Forbidden) else
  match tokenSchema body with
  | None => (s, CT_ValidationError)
  | Some (email, name) =>
  match findOwnEvent s eventId (User._id caller) with
  | None => (s, CT_EventNotFound)
  | Some _ =>
      (* the unique index on [token] *)
      if existsb (fun t => String.eqb (Token.token t) random) (tokens s)
      then (s, CT_ServerError)
      else
        let tokenDoc :=
          Token.mk (nextId s) eventId (trim (toLowerCase email))
                   (trim <$> name) random now now in
        let s1 := bump_nextId (set_tokens s (tokens s ++ [tokenDoc])) in
        let s2 :=
          if isEmailServiceConfigured s1 then
            match sendEmail s1 transport with
            | (s', Some _) => s'
            | (s', None) =>
                console_error s' "Failed to send invitation email:"
            end
          else s1 in
        (s2, CT_Created (Token._id tokenDoc) (Token.email tokenDoc)
                        (Token.name tokenDoc) (Token.token tokenDoc) None
                        (isEmailServiceConfigured s2))
  end end.
End WithEmail.

(** ** [routes/events.ts] *)

Record EventInput := mkEventInput {
  ei_title : string;
  ei_description : option string;
  ei_date : string;
  ei_location : string;
  ei_category : string;
  ei_capacity : Q;
  ei_allowedCompanions : Q;
  ei_hostName : string;
  ei_hostMobile : string;
  ei_hostEmail : string;
}.

Inductive EventResponse :=
| EV_Created (event : Event.t)
| EV_Updated (event : Event.t)
| EV_Forbidden
| EV_ValidationError
| EV_PastDate
| EV_NotFound
| EV_ServerError.

Definition EventResponse_code (r : EventResponse) : Z :=
  match r with
  | EV_Created _ => 201
  | EV_Updated _ => 200
  | EV_Forbidden => 403
  | EV_ValidationError => 400
  | EV_PastDate => 400
  | EV_NotFound => 404
  | EV_ServerError => 500
  end.

(** [z.string().min(lo).max(hi)] *)
Definition parse_string (lo : nat) (hi : option nat) (v : option JSON)
    : option string :=
  match v with
  | Some (JStr s) =>
      if Nat.leb lo (String.length s)
         && match hi with Some h => Nat.leb (String.length s) h | None => true end
      then Some s else None
  | _ => None
  end.

(** [z.number().int().min(10)] *)
Definition parse_capacity (v : option JSON) : option Q :=
  match v with
  | Some (JNum q) => if isInteger q && Qle_bool 10 q then Some q else None
  | _ => None
  end.

(** [z.number().int().min(0).max(10).default(0)] *)
Definition parse_allowedCompanions (v : option JSON) : option Q :=
  match v with
  | None => Some 0%Q
  | Some (JNum q) =>
      if isInteger q && Qle_bool 0 q && Qle_bool q 10 then Some q else None
  | Some _ => None
  end.

Section WithEventChecks.
Variable trim : string -> string.
Variable toLowerCase : string -> string.
Variable isEmail : string -> bool.
(** zod's [.datetime()] check and [new Date(iso)] in milliseconds. *)
Variable isDatetime : string -> bool.
Variable parseDate : string -> Z.

(** [eventSchema.parse] *)
Definition eventSchema (body : Body) : option EventInput :=
  title ← parse_string 1 (Some 200%nat) (body !! "title");
  description ← match body !! "description" with
                | None => Some None
                | v => Some <$> parse_string 0 (Some 2000%nat) v
                end;
  date ← match body !! "date" with
         | Some (JStr d) => if isDatetime d then Some d else None
         | _ => None
         end;
  location ← parse_string 1 (Some 200%nat) (body !! "location");
  category ← parse_string 1 None (body !! "category");
  capacity ← parse_capacity (body !! "capacity");
  allowedCompanions ← parse_allowedCompanions (body !! "allowedCompanions");
  hostName ← parse_string 1 (Some 100%nat) (body !! "hostName");
  hostMobile ← parse_string 1 (Some 20%nat) (body !! "hostMobile");
  hostEmail ← match parse_string 0 (Some 100%nat) (body !! "hostEmail") with
              | Some a => if isEmail a then Some a else None
              | None => None
              end;
  Some (mkEventInput title description date location category capacity
                     allowedCompanions hostName hostMobile hostEmail).

(** The document the handlers write, after the schema setters.
    [allowedCompanions] is not a path of the model and is dropped. *)
Definition eventDoc (id owner : ObjectId) (v : EventInput)
    (createdAt now : Z) : Event.t :=
  Event.mk id (trim (ei_title v))
           (trim (if truthy_str (ei_description v)
                  then default "" (ei_description v) else ""))
           (parseDate (ei_date v)) (trim (ei_location v))
           (trim (ei_category v)) (ei_capacity v) (trim (ei_hostName v))
           (trim (ei_hostMobile v)) (trim (toLowerCase (ei_hostEmail v)))
           owner createdAt now.

(** The [required] validators of [EventSchema], run by [Event.create]:
    a required string must not be empty once trimmed. *)
Definition requiredPresent (ev : Event.t) : bool :=
  negb (String.eqb (Event.title ev) "")
  && negb (String.eqb (Event.location ev) "")
  && negb (String.eqb (Event.category ev) "")
  && negb (String.eqb (Event.hostName ev) "")
  && negb (String.eqb (Event.hostMobile ev) "")
  && negb (String.eqb (Event.hostEmail ev) "").

(** [POST /] *)
Definition createEvent (s : State) (now : Z) (caller : User.t)
    (body : Body) : State * EventResponse :=
  if negb (isAdmin caller) then (s, EV_Forbidden) else
  match eventSchema body with
  | None => (s, EV_ValidationError)
  | Some v =>
      if parseDate (ei_date v) <? now then (s, EV_PastDate) else
      let ev := eventDoc (nextId s) (User._id caller) v now now in
      if requiredPresent ev
      then (bump_nextId (set_events s (events s ++ [ev])), EV_Created ev)
      else (s, EV_ServerError)
  end.

(** [PUT /:id] *)
Definition updateEvent (s : State) (now : Z) (caller : User.t)
    (id : ObjectId) (body : Body) : State * EventResponse :=
  if negb (isAdmin caller) then (s, EV_Forbidden) else
  match eventSchema body with
  | None => (s, EV_ValidationError)
  | Some v =>
      if parseDate (ei_date v) <? now then (s, EV_PastDate) else
      match findOwnEvent s id (User._id caller) with
      | None => (s, EV_NotFound)
      | Some old =>
          let ev := eventDoc (Event._id old) (Event.createdBy old) v
                             (Event.createdAt old) now in
          (set_events s
             (updateFirst (fun e => Nat.eqb (Event._id e) id
                                    && Nat.eqb (Event.createdBy e)
                                               (User._id caller))
                          (fun _ => ev) (events s)),
           EV_Updated ev)
      end
  end.
End WithEventChecks.

(** ** The API as a state machine *)

Inductive Request :=
| PostEvent (caller : User.t) (body : Body)
| PutEvent (caller : User.t) (id : ObjectId) (body : Body)
| PostRsvp (caller : User.t) (eventId : ObjectId) (body : Body)
| PostTokenRsvp (token : string) (body : Body)
| PostToken (caller : User.t) (eventId : ObjectId) (body : Body)
            (random : string) (transport : option string)
| DeleteOrphaned (caller : User.t).

(** The functions of the run-time library and of zod that the handlers
    call and that are not modelled further. *)
Record Runtime := mkRuntime {
  trim : string -> string;
  toLowerCase : string -> string;
  isEmail : string -> bool;
  isDatetime : string -> bool;
  parseDate : string -> Z;
}.

(** The state after one request served at time [now]. *)
Definition handle (rt : Runtime) (s : State) (now : Z) (req : Request)
    : State :=
  match req with
  | PostEvent caller body =>
      (createEvent (trim rt) (toLowerCase rt) (isEmail rt) (isDatetime rt)
                   (parseDate rt) s now caller body).1
  | PutEvent caller id body =>
      (updateEvent (trim rt) (toLowerCase rt) (isEmail rt) (isDatetime rt)
                   (parseDate rt) s now caller id body).1
  | PostRsvp caller eventId body =>
      (submitUserRSVP s now caller eventId body).1
  | PostTokenRsvp token body =>
      (submitTokenRSVP (trim rt) (toLowerCase rt) s now token body).1
  | PostToken caller eventId body random transport =>
      (createToken (trim rt) (toLowerCase rt) (isEmail rt) s now caller
                   eventId body random transport).1
  | DeleteOrphaned caller => (cleanupOrphaned s caller).1
  end.

(** The state after a sequence of timed requests, served one at a time. *)
Definition run (rt : Runtime) (s : State) (trace : list (Z * Request))
    : State :=
  foldl (fun st x => handle rt st x.1 x.2) s trace.

(** An installation before the first event: registered accounts only. *)
Definition initialState (accounts : list User.t) (configured : bool)
    : State :=
  mkState accounts [] [] [] configured [] 0%nat.

(** One step of the server when requests overlap.  A request is served
    whole, or a token submission does its reads and, if they let it pass,
    waits with the token and the parsed body it holds, or a waiting
    submission does its writes.  The other handlers that write read only
    whether the event exists and who owns it, which no request changes,
    before their one write; serving them whole loses no outcome. *)
Inductive Step :=
| Whole (now : Z) (req : Request)
| Begin (token : string) (body : Body)
| Finish (now : Z) (i : nat).

(** The database together with the submissions that wait to write. *)
Definition Server : Type := State * list (Token.t * TokenRsvpInput).

Definition step (rt : Runtime) (c : Server) (st : Step) : Server :=
  match st with
  | Whole now req => (handle rt c.1 now req, c.2)
  | Begin token body =>
      match tokenRsvpSchema body with
      | None => (console_error c.1 "Validation error:", c.2)
      | Some v =>
          match admitTokenRsvp c.1 token v with
          | inl _ => c
          | inr tk => (c.1, c.2 ++ [(tk, v)])
          end
      end
  | Finish now i =>
      match c.2 !! i with
      | Some (tk, v) =>
          ((storeTokenRsvp (trim rt) (toLowerCase rt) c.1 now tk v).1,
           delete i c.2)
      | None => c
      end
  end.

(** The server after a sequence of steps, in the order they take place. *)
Definition interleave (rt : Runtime) (c : Server) (steps : list Step)
    : Server :=
  foldl (step rt) c steps.

(** ** The specification's wording, for comparison with the code *)

(** "sum over all existing going RSVPs for the event of (1 + companions)",
    an absent companion count being none. *)
Definition sumAttendees (l : list RSVP.t) : Q :=
  foldr (fun r acc => (1 + default 0%Q (RSVP.companions r)) + acc)%Q 0%Q l.

(** A count of people as the specification has it, "non-negative integer,
    bounded to a small maximum": a whole number from 0 to 5. *)
Definition wholeCount (q : Q) : Prop :=
  ∃ n : Z, 0 ≤ n ≤ 5 ∧ (q == inject_Z n)%Q.

(** A stored response with a companion count that the schemas let in:
    none, or a number from 0 to 5. *)
Definition countInRange (r : RSVP.t) : Prop :=
  match RSVP.companions r with
  | Some q => (0 <= q)%Q ∧ (q <= 5)%Q
  | None => True
  end.

(** A stored response whose companion count, if it has one, is such a
    count. *)
Definition wholeCompanions (r : RSVP.t) : Prop :=
  match RSVP.companions r with
  | Some q => wholeCount q
  | None => True
  end.

(** An accumulator that adds whole numbers exactly, as a summation of
    doubles or of integers does as long as the sum stays below [2 ^ 53]. *)
Definition exactOnWhole (dbSum : list Q -> Q) : Prop :=
  ∀ zs : list Z,
    Forall (λ z, 0 ≤ z) zs →
    foldr Z.add 0 zs ≤ 2 ^ 53 →
    dbSum (inject_Z <$> zs) = inject_Z (foldr Z.add 0 zs).

(** "capacity − currentAttendees, floored at 0" *)
Definition remainingSpotsFloored (capacity current : Q) : Q :=
  Qmax 0 (capacity - current).

(** An optional dietary field of the body: absent, or one of the three
    preferences. *)
Definition dietField (v : option JSON) : Prop :=
  v = None ∨ v = Some (JStr "nonveg") ∨ v = Some (JStr "veg")
  ∨ v = Some (JStr "vegan").

(** The optional fields of a token submission are absent or well formed. *)
Definition optionalFieldsOk (body : Body) : Prop :=
  (body !! "guestName" = None ∨ ∃ g, body !! "guestName" = Some (JStr g))
  ∧ dietField (body !! "dietaryPreference")
  ∧ dietField (body !! "companionDietaryPreference").

(** "companions is clamped to [0, 5]" *)
Definition clampCompanions (q : Q) : Q := Qmax 0 (Qmin q 5).

(** The buckets of the dietary statistics: primary attendees with the
    preference [d], plus companions with it among the responses that bring
    a companion. *)
Definition bucketCount (d : option Diet) (l : list RSVP.t) : nat :=
  (length (List.filter (fun r => bool_decide (RSVP.dietaryPreference r = d)) l)
   + length (List.filter
               (fun r => hasCompanion r
                         && bool_decide (RSVP.companionDietaryPreference r = d))
               l))%nat.

(** The counter that a preference (or its absence) selects. *)
Definition bucket (d : option Diet) (st : DietaryStats) : nat :=
  match d with
  | Some Nonveg => nonveg st
  | Some Veg => veg st
  | Some Vegan => vegan st
  | None => notSpecified st
  end.

(** A record is bound to exactly one identity. *)
Definition identityBound (r : RSVP.t) : Prop :=
  (is_Some (RSVP.userId r) ∧ RSVP.tokenId r = None)
  ∨ (RSVP.userId r = None ∧ is_Some (RSVP.tokenId r)).

(** The partial unique index on [(eventId, userId)]. *)
Definition userIndexUnique (l : list RSVP.t) : Prop :=
  ∀ e u, (length (List.filter (isUserRsvp e u) l) ≤ 1)%nat.

(** A token is pending when no response of its event is bound to it and
    none is bound to an account with its address. *)
Definition pendingToken (s : State) (e : ObjectId) (t : Token.t) : Prop :=
  (¬ ∃ r, r ∈ rsvps s ∧ RSVP.eventId r = e
          ∧ RSVP.tokenId r = Some (Token._id t))
  ∧ (¬ ∃ u r, u ∈ users s ∧ r ∈ rsvps s ∧ User.email u = Token.email t
              ∧ RSVP.eventId r = e ∧ RSVP.userId r = Some (User._id u)).

(** "an integer of at least 10" *)
Definition integerAtLeast10 (q : Q) : Prop :=
  ∃ n : Z, (q == inject_Z n)%Q ∧ 10 ≤ n.

(** What the invitee list shows for a token. *)
Definition inviteeOf (t : Token.t) (st : option Status) (c : Q) : Invitee :=
  mkInvitee (Token._id t) (Token.email t) (Token.name t) (Token.token t)
            (Token.createdAt t) st c.

(** Newest first, on the rows of the invitee list. *)
Definition newerRow (a b : Invitee) : Prop :=
  inv_createdAt b ≤ inv_createdAt a.

(** The capacity rule of the event schema, on a stored event and on the
    [capacity] field of a request body. *)
Definition capacityOk (ev : Event.t) : Prop :=
  integerAtLeast10 (Event.capacity ev).

Definition capacityFieldOk (v : option JSON) : Prop :=
  ∃ q, v = Some (JNum q) ∧ integerAtLeast10 q.

(** ** Sample data *)

Module Sample.
(** Stand-ins for the run-time library on the sample requests below. *)
Fixpoint dropSpaces (s : string) : string :=
  match s with
  | String " "%char s' => dropSpaces s'
  | _ => s
  end.

Definition trim (s : string) : string :=
  String.rev (dropSpaces (String.rev (dropSpaces s))).

Definition lowerChar (c : ascii) : ascii :=
  let n := nat_of_ascii c in
  if Nat.leb 65 n && Nat.leb n 90 then ascii_of_nat (n + 32) else c.

Fixpoint toLowerCase (s : string) : string :=
  match s with
  | EmptyString => EmptyString
  | String c s' => String (lowerChar c) (toLowerCase s')
  end.

Fixpoint hasAt (s : string) : bool :=
  match s with
  | EmptyString => false
  | String "@"%char _ => true
  | String _ s' => hasAt s'
  end.

(** The sample dates are year numbers. *)
Definition parseDate (s : string) : Z :=
  if String.eqb s "2030" then 1893456000000
  else if String.eqb s "2020" then 1577836800000
  else 0.

Definition isDatetime (s : string) : bool :=
  String.eqb s "2030" || String.eqb s "2020".

Definition rt : Runtime :=
  mkRuntime trim toLowerCase hasAt isDatetime parseDate.

Definition regexTest (pat subject : string) : bool :=
  match String.index 0 (toLowerCase pat) (toLowerCase subject) with
  | Some _ => true
  | None => false
  end.

(** On the sample searches a pattern is a plain substring; one with an
    opening parenthesis does not compile. *)
Definition regexValid (pat : string) : bool :=
  match String.index 0 "(" pat with
  | Some _ => false
  | None => true
  end.

(** A stand-in for the accumulator: the sum taken from left to right. *)
Definition dbSum (l : list Q) : Q := fold_left js_add l 0%Q.

Definition admin : User.t := User.mk 1%nat "host@example.com" Admin.
Definition guest : User.t := User.mk 2%nat "ann@example.com" Member.

Definition eventBody (capacity : Q) : Body :=
  list_to_map [("title", JStr "Launch"); ("date", JStr "2030");
               ("location", JStr "Hall"); ("category", JStr "party");
               ("capacity", JNum capacity); ("hostName", JStr "Host");
               ("hostMobile", JStr "555"); ("hostEmail", JStr "Host@Example.com")].

Definition rsvpBody (status : string) (companions : Q) : Body :=
  list_to_map [("status", JStr status); ("companions", JNum companions)].

Definition statusBody (status : string) : Body :=
  list_to_map [("status", JStr status)].

Definition inviteBody (email : string) : Body :=
  list_to_map [("email", JStr email)].

(** An event of capacity 20 with three invitations. *)
Definition invited : State :=
  run rt (initialState [admin; guest] true)
      [(1, PostEvent admin (eventBody 20));
       (2, PostToken admin 0%nat (inviteBody "ann@example.com") "aa" (Some "m1"));
       (3, PostToken admin 0%nat (inviteBody "bob@example.com") "bb" (Some "m2"));
       (4, PostToken admin 0%nat (inviteBody "cy@example.com") "cc" None)].

(** Two guests accept with five companions each; the organizer then
    lowers the capacity to 10. *)
Definition overbooked : State :=
  run rt invited
      [(5, PostTokenRsvp "aa" (rsvpBody "going" 5));
       (6, PostTokenRsvp "bb" (rsvpBody "going" 5));
       (7, PutEvent admin 0%nat (eventBody 10))].

(** The organizer is invited as well and answers through the account;
    one more guest is invited. *)
Definition mixed : State :=
  run rt overbooked
      [(8, PostToken admin 0%nat (inviteBody "host@example.com") "hh" (Some "m4"));
       (9, PostRsvp admin 0%nat (statusBody "maybe"));
       (10, PostToken admin 0%nat (inviteBody "zed@example.com") "zz" (Some "m5"))].

Definition pendingQuery : Query := mkQuery None None None (Some "pending").

(** The documents of [overbooked] that the examples name. *)
Definition launch : Event.t :=
  Event.mk 0%nat "Launch" "" 1893456000000 "Hall" "party" 10 "Host" "555"
           "host@example.com" 1%nat 1 7.

Definition tokenA : Token.t :=
  Token.mk 1%nat 0%nat "ann@example.com" None "aa" 2 2.

Definition tokenC : Token.t :=
  Token.mk 3%nat 0%nat "cy@example.com" None "cc" 4 4.

Definition rsvpA : RSVP.t :=
  RSVP.mk 4%nat 0%nat None (Some 1%nat) Going (Some 5%Q) None
          (Some "ann@example.com") None None 5 5.
End Sample.

(** ** The read routes *)

Inductive TokenStatusResponse :=
| TS_Responded (status : Status) (companions : option Q) (totalAttendees : Q)
               (respondedAt : Z)
               (dietaryPreference companionDietaryPreference : option Diet)
| TS_NotResponded
| TS_InvalidToken.

(** [GET /token/:token/status] *)
Definition tokenRsvpStatus (s : State) (tok : string) : TokenStatusResponse :=
  match findToken s tok with
  | None => TS_InvalidToken
  | Some tk =>
      match List.find (isTokenRsvp (Token.eventId tk) (Token._id tk))
                      (rsvps s) with
      | Some r =>
          TS_Responded (RSVP.status r) (RSVP.companions r)
                       (if bool_decide (RSVP.status r = Going)
                        then js_add 1 (companionsOrZero r) else 0%Q)
                       (RSVP.createdAt r) (RSVP.dietaryPreference r)
                       (RSVP.companionDietaryPreference r)
      | None => TS_NotResponded
      end
  end.

Inductive GetRsvpResponse :=
| GR_Ok (rsvp : option (ObjectId * ObjectId * option ObjectId * Status))
| GR_Forbidden
| GR_EventNotFound.

(** [GET /:eventId] of the RSVP router. *)
Definition getUserRsvp (s : State) (caller : User.t) (eventId : ObjectId)
    : GetRsvpResponse :=
  if negb (isAdmin caller) then GR_Forbidden else
  match findOwnEvent s eventId (User._id caller) with
  | None => GR_EventNotFound
  | Some _ =>
      GR_Ok ((fun r => (RSVP._id r, RSVP.eventId r, RSVP.userId r,
                        RSVP.status r))
             <$> List.find (isUserRsvp eventId (User._id caller)) (rsvps s))
  end.

Record RsvpRow := mkRsvpRow {
  row_id : ObjectId;
  row_eventId : ObjectId;
  row_userId : string;
  row_status : Status;
  row_createdAt : Z;
}.

Inductive AllRsvpsResponse :=
| AR_Ok (rows : list RsvpRow)
| AR_Forbidden
| AR_EventNotFound
| AR_ServerError.

(** [.populate('userId', 'email')] on a lean document: the reference is
    replaced by the account it names, by [null] when there is none, and is
    left [undefined] when the document has no [userId]. *)
Definition populateUserId (s : State) (r : RSVP.t) : option User.t :=
  u ← RSVP.userId r;
  List.find (fun a => Nat.eqb (User._id a) u) (users s).

(** One row of [rsvps.map(...)]: [rsvp.userId.toString()] throws on
    [null] and [undefined] ([None] here) and is the tag of a plain object
    otherwise. *)
Definition rsvpRow (s : State) (r : RSVP.t) : option RsvpRow :=
  match populateUserId s r with
  | Some _ =>
      Some (mkRsvpRow (RSVP._id r) (RSVP.eventId r) "[object Object]"
                      (RSVP.status r) (RSVP.createdAt r))
  | None => None
  end.

(** [.sort({ createdAt: -1 })] on responses. *)
Definition newerRsvpFirst (a b : RSVP.t) : Prop :=
  RSVP.createdAt b ≤ RSVP.createdAt a.

Global Instance newerRsvpFirst_dec : RelDecision newerRsvpFirst.
Proof. intros a b. unfold newerRsvpFirst. apply _. Defined.

(** [GET /event/:eventId/all] *)
Definition allRsvps (s : State) (caller : User.t) (eventId : ObjectId)
    : AllRsvpsResponse :=
  if negb (isAdmin caller) then AR_Forbidden else
  match findOwnEvent s eventId (User._id caller) with
  | None => AR_EventNotFound
  | Some _ =>
      let found :=
        merge_sort newerRsvpFirst
          (List.filter (fun r => Nat.eqb (RSVP.eventId r) eventId) (rsvps s)) in
      match mapM (rsvpRow s) found with
      | Some rows => AR_Ok rows
      | None => AR_ServerError
      end
  end.

Record EventView := mkEventView {
  view_id : ObjectId;
  view_title : string;
  view_description : string;
  view_date : Z;
  view_location : string;
  view_category : string;
  view_capacity : Q;
  view_hostName : string;
  view_hostMobile : string;
  view_hostEmail : string;
}.

Definition eventView (ev : Event.t) : EventView :=
  mkEventView (Event._id ev) (Event.title ev) (Event.description ev)
              (Event.date ev) (Event.location ev) (Event.category ev)
              (Event.capacity ev) (Event.hostName ev) (Event.hostMobile ev)
              (Event.hostEmail ev).

Inductive EventByTokenResponse :=
| ET_Ok (event : EventView) (email : string) (name : option string)
| ET_TokenNotFound
| ET_ServerError.

(** [GET /token/:token] of the token router: [.populate('eventId')] leaves
    [null] when the event is gone, and [event._id] then throws. *)
Definition eventByToken (s : State) (tok : string) : EventByTokenResponse :=
  match findToken s tok with
  | None => ET_TokenNotFound
  | Some tk =>
      match findEventById s (Token.eventId tk) with
      | Some ev => ET_Ok (eventView ev) (Token.email tk) (Token.name tk)
      | None => ET_ServerError
      end
  end.

Record EventRow := mkEventRow {
  er_event : EventView;
  er_allowedCompanions : Q;
  er_rsvpCount : Q;
}.

Inductive EventListResponse :=
| EL_Ok (events : list EventRow)
| EL_Forbidden.

(** [.sort({ createdAt: -1 })] on events. *)
Definition newerEventFirst (a b : Event.t) : Prop :=
  Event.createdAt b ≤ Event.createdAt a.

Global Instance newerEventFirst_dec : RelDecision newerEventFirst.
Proof. intros a b. unfold newerEventFirst. apply _. Defined.

Section WithDatabase.
(** The [$sum] accumulator of the database, on the values of one group in
    the order the documents are met.  How the server rounds a sum of
    doubles is not part of this repository. *)
Variable dbSum : list Q -> Q.

(** The [$match] stage and the grouping of [RSVP.aggregate]: for every
    event among [eventIds] with a going response, the values of
    [$add: [1, $ifNull(companions, 0)]] of its going responses. *)
Definition groupAddends (eventIds : list ObjectId) (l : list RSVP.t)
    : gmap ObjectId (list Q) :=
  foldl (fun m r =>
           if bool_decide (RSVP.eventId r ∈ eventIds)
              && bool_decide (RSVP.status r = Going)
           then <[RSVP.eventId r :=
                    default [] (m !! RSVP.eventId r)
                    ++ [js_add 1 (default 0%Q (RSVP.companions r))]]> m
           else m) ∅ l.

(** The groups with their [count: { $sum: ... }]. *)
Definition aggregateGoing (eventIds : list ObjectId) (l : list RSVP.t)
    : gmap ObjectId Q :=
  dbSum <$> groupAddends eventIds l.

(** [rsvpCountMap.get(id) || 0] *)
Definition countOrZero (m : gmap ObjectId Q) (id : ObjectId) : Q :=
  match m !! id with
  | Some q => if Qeq_bool q 0 then 0%Q else q
  | None => 0%Q
  end.

(** [GET /] of the event router. *)
Definition listEvents (s : State) (caller : User.t) : EventListResponse :=
  if negb (isAdmin caller) then EL_Forbidden else
  let own :=
    merge_sort newerEventFirst
      (List.filter (fun e => Nat.eqb (Event.createdBy e) (User._id caller))
                   (events s)) in
  let eventIds := Event._id <$> own in
  let rsvpCounts := map_to_list (aggregateGoing eventIds (rsvps s)) in
  let rsvpCountMap := js_Map rsvpCounts in
  EL_Ok ((fun ev => mkEventRow (eventView ev) 0%Q
                               (countOrZero rsvpCountMap (Event._id ev)))
         <$> own).
End WithDatabase.

(** ** Invariants of the stored data, for the properties below *)

(** The partial unique index on [(eventId, tokenId)]. *)
Definition tokenIndexUnique (l : list RSVP.t) : Prop :=
  ∀ e t, (length (List.filter (isTokenRsvp e t) l) ≤ 1)%nat.

(** The unique index on the secret of a token. *)
Definition secretsUnique (s : State) : Prop :=
  NoDup (Token.token <$> tokens s).

(** What the schemas let into a stored response: a companion count
    between 0 and 5, and no "maybe" on a token-bound response. *)
Definition rsvpWellFormed (r : RSVP.t) : Prop :=
  (∃ q, RSVP.companions r = Some q ∧ (0 <= q)%Q ∧ (q <= 5)%Q)
  ∧ (is_Some (RSVP.tokenId r) → RSVP.status r ≠ Maybe).

(** Both unique indexes of the RSVP collection. *)
Definition indexesUnique (l : list RSVP.t) : Prop :=
  userIndexUnique l ∧ tokenIndexUnique l.

(** A stored response that is bound to one identity and well formed. *)
Definition soundRsvp (r : RSVP.t) : Prop :=
  identityBound r ∧ rsvpWellFormed r.

(** The caller of an admin route, if the request has one. *)
Definition requestCaller (req : Request) : option User.t :=
  match req with
  | PostEvent caller _ => Some caller
  | PutEvent caller _ _ => Some caller
  | PostRsvp caller _ _ => Some caller
  | PostTokenRsvp _ _ => None
  | PostToken caller _ _ _ _ => Some caller
  | DeleteOrphaned caller => Some caller
  end.

(** The event an admin request addresses, if it addresses one. *)
Definition requestEvent (req : Request) : option ObjectId :=
  match req with
  | PutEvent _ id _ => Some id
  | PostRsvp _ eventId _ => Some eventId
  | PostToken _ eventId _ _ _ => Some eventId
  | _ => None
  end.

(** Rows with a given status, as [t.rsvpStatus === statusFilter] keeps
    them. *)
Definition rowsWithStatus (st : Status) (l : list Invitee) : list Invitee :=
  List.filter (fun t => match rsvpStatus t with
                        | Some st' => String.eqb (status_to_string st')
                                                 (status_to_string st)
                        | None => false
                        end) l.

Module Scenario.
(** The sample installation after the organizer's own answer, a guest who
    declines with a name and preferences, and a later clean-up. *)
Definition namedBody : Body :=
  list_to_map [("status", JStr "going"); ("companions", JNum 1);
               ("guestName", JStr " Cy Young ");
               ("dietaryPreference", JStr "veg");
               ("companionDietaryPreference", JStr "vegan")].

Definition roomy : State :=
  run Sample.rt Sample.invited
      [(5, PostTokenRsvp "aa" (Sample.rsvpBody "going" 2))].

Definition answered : State :=
  run Sample.rt Sample.mixed [(11, PostTokenRsvp "zz" (Sample.rsvpBody "not-going" 0))].

Definition stranger : User.t := User.mk 7%nat "other@example.com" Admin.
End Scenario.

(** * Properties *)

(** ** Dietary statistics *)

Section DietaryStatistics.
Local Open Scope nat_scope.

Lemma countPreference_total d st :
  nonveg (countPreference d st) + veg (countPreference d st)
  + vegan (countPreference d st) + notSpecified (countPreference d st)
  = S (nonveg st + veg st + vegan st + notSpecified st).
Proof. destruct d as [[]|]; simpl; lia. Qed.

Lemma bucket_countPreference d d' st :
  bucket d' (countPreference d st)
  = bucket d' st + (if bool_decide (d = d') then 1 else 0).
Proof. destruct d as [[]|], d' as [[]|]; simpl; lia. Qed.

Lemma bucket_countRsvp d st r :
  bucket d (countRsvp st r)
  = bucket d st
    + (if bool_decide (RSVP.dietaryPreference r = d) then 1 else 0)
    + (if hasCompanion r
          && bool_decide (RSVP.companionDietaryPreference r = d)
       then 1 else 0).
Proof.
  unfold countRsvp. destruct (hasCompanion r); simpl.
  - rewrite !bucket_countPreference. lia.
  - rewrite bucket_countPreference. lia.
Qed.

Lemma bucket_fold d l : ∀ st,
  bucket d (fold_left countRsvp l st) = bucket d st + bucketCount d l.
Proof.
  unfold bucketCount.
  induction l as [|r l IH]; intros st; simpl; [lia|].
  rewrite IH, bucket_countRsvp.
  destruct (bool_decide (RSVP.dietaryPreference r = d));
    destruct (hasCompanion r
              && bool_decide (RSVP.companionDietaryPreference r = d));
    simpl; lia.
Qed.

Lemma total_fold l : ∀ st,
  let out := fold_left countRsvp l st in
  nonveg out + veg out + vegan out + notSpecified out
  = nonveg st + veg st + vegan st + notSpecified st
    + length l + length (List.filter hasCompanion l).
Proof.
  induction l as [|r l IH]; intros st; simpl; [lia|].
  simpl in IH. rewrite IH. unfold countRsvp.
  destruct (hasCompanion r); simpl;
    rewrite ?countPreference_total; simpl; lia.
Qed.

Lemma hasCompanion_spec r :
  hasCompanion r = true ↔ ∃ q, RSVP.companions r = Some q ∧ (0 < q)%Q.
Proof.
  unfold hasCompanion. destruct (RSVP.companions r) as [q|].
  - rewrite negb_true_iff. split.
    + intros Hle. exists q. split; [done|].
      apply Qnot_le_lt. intros H%Qle_bool_iff. congruence.
    + intros (q' & [= <-] & Hlt).
      destruct (Qle_bool q 0) eqn:E; [|done].
      apply Qle_bool_iff in E. exfalso. eapply Qlt_not_le; eauto.
  - split; [done|]. intros (q & ? & _). done.
Qed.

(** C5: the statistics scan exactly the going responses of the event;
    each bucket counts the primary attendees with that preference plus
    the companions with it among the responses with [companions > 0]
    (an absent preference counts as not specified), so the four buckets
    add up to the number of going responses plus the number of going
    responses with a companion. *)
Theorem C5_dietary_statistics (s : State) (caller : User.t) (e : ObjectId) :
isAdmin caller = true →
is_Some (findOwnEvent s e (User._id caller)) →
let going :=
  List.filter (λ r, Nat.eqb (RSVP.eventId r) e
                    && bool_decide (RSVP.status r = Going)) (rsvps s) in
∃ st,
  dietaryStats s caller e = DS_Ok st
  ∧ (∀ r, In r going ↔
          In r (rsvps s) ∧ RSVP.eventId r = e ∧ RSVP.status r = Going)
  ∧ nonveg st = bucketCount (Some Nonveg) going
  ∧ veg st = bucketCount (Some Veg) going
  ∧ vegan st = bucketCount (Some Vegan) going
  ∧ notSpecified st = bucketCount None going
  ∧ nonveg st + veg st + vegan st + notSpecified st
    = length going + length (List.filter hasCompanion going)
  ∧ (∀ r, hasCompanion r = true ↔
          ∃ q, RSVP.companions r = Some q ∧ (0 < q)%Q).
Proof.
intros Hadm [ev Hev] going.
exists (computeStats going).
unfold dietaryStats. rewrite Hadm, Hev. simpl.
split; [done|]. split.
{ intros r. unfold going. rewrite filter_In.
  rewrite andb_true_iff, Nat.eqb_eq, bool_decide_eq_true. tauto. }
unfold computeStats.
pose proof (bucket_fold (Some Nonveg) going (mkStats 0 0 0 0)) as H1.
pose proof (bucket_fold (Some Veg) going (mkStats 0 0 0 0)) as H2.
pose proof (bucket_fold (Some Vegan) going (mkStats 0 0 0 0)) as H3.
pose proof (bucket_fold None going (mkStats 0 0 0 0)) as H4.
pose proof (total_fold going (mkStats 0 0 0 0)) as Ht.
simpl in H1, H2, H3, H4, Ht.
repeat split; try done; apply hasCompanion_spec.
Qed.
End DietaryStatistics.

(** A vegetarian guest with a vegan companion, a guest alone whose stored
    companion preference is not counted, and a guest whose record has no
    companion count. *)
Example computeStats_sample :
  let going pref companions cpref :=
    RSVP.mk 0%nat 0%nat None (Some 0%nat) Going companions None None pref
            cpref 0 0 in
  computeStats [going (Some Veg) (Some 1%Q) (Some Vegan);
                going None (Some 0%Q) (Some Nonveg);
                going (Some Nonveg) None None]
  = mkStats 1 1 1 1.
Proof. reflexivity. Qed.

Lemma C5_dietary_statistics_witness :
  ∃ st,
    dietaryStats Sample.overbooked Sample.admin 0%nat = DS_Ok st
    ∧ (nonveg st + veg st + vegan st + notSpecified st)%nat
      = (length (rsvps Sample.overbooked)
         + length (List.filter hasCompanion (rsvps Sample.overbooked)))%nat.
Proof.
  destruct (C5_dietary_statistics Sample.overbooked Sample.admin 0%nat)
    as (st & Hst & _ & _ & _ & _ & _ & Htotal & _);
    [vm_compute; reflexivity|vm_compute; eauto|].
  exists st. split; [exact Hst|].
  etransitivity; [exact Htotal|]. vm_compute. reflexivity.
Defined.

(** ** Arithmetic on doubles *)

Lemma round64_comp q q' : (q == q')%Q → round64 q = round64 q'.
Proof. intros H. unfold round64. by rewrite (Qred_complete _ _ H). Qed.

Lemma Qred_inject_Z n : Qred (inject_Z n) = inject_Z n.
Proof. apply Qred_identity. simpl. apply Z.gcd_1_r. Qed.

Lemma roundHalfEven_1 n : roundHalfEven n 1 = n.
Proof.
  unfold roundHalfEven. rewrite Z.mod_1_r, Z.div_1_r. reflexivity.
Qed.

Lemma sgn_mul_abs n : Z.sgn n * Z.abs n = n.
Proof. destruct n; simpl; lia. Qed.

(** A whole number of magnitude up to [2 ^ 53] is a double. *)
Lemma round64_inject_Z n :
  Z.abs n ≤ 2 ^ 53 → round64 (inject_Z n) = inject_Z n.
Proof.
  intros Hn. unfold round64. rewrite Qred_inject_Z. cbv zeta.
  cbn [Qnum Qden inject_Z].
  destruct (Z.eqb_spec (Z.abs n) 0) as [H0|H0].
  { assert (n = 0) as -> by lia. reflexivity. }
  assert (0 < Z.abs n) as Hpos by lia.
  pose proof (Z.log2_spec _ Hpos) as [Hlo Hhi].
  pose proof (Z.log2_nonneg (Z.abs n)) as Hnn.
  assert (Z.log2 (Z.abs n) ≤ 53) as H53.
  { change 53 with (Z.log2 (2 ^ 53)). by apply Z.log2_le_mono. }
  assert (exponent64 (Z.abs n) 1 = Z.log2 (Z.abs n)) as ->.
  { unfold exponent64, pow2_le. change (Z.log2 1) with 0. rewrite Z.sub_0_r.
    destruct (Z.ltb_spec (Z.log2 (Z.abs n)) 0); [lia|].
    destruct (Z.leb_spec (2 ^ Z.log2 (Z.abs n) * 1) (Z.abs n)); lia. }
  set (e := Z.log2 (Z.abs n)) in *.
  destruct (Z.ltb_spec (e - 52) 0) as [Hu|Hu].
  - rewrite roundHalfEven_1.
    assert (0 < 2 ^ (- (e - 52))) as Hp by (apply Z.pow_pos_nonneg; lia).
    rewrite <- Qred_inject_Z. apply Qred_complete.
    unfold Qeq. cbn [Qnum Qden inject_Z]. rewrite Z2Pos.id by done.
    rewrite Z.mul_assoc, sgn_mul_abs. lia.
  - assert (e = 52 ∨ e = 53) as [He|He] by lia.
    + rewrite He. change (52 - 52) with 0. change (2 ^ 0) with 1.
      change (1 * Z.to_pos 1)%positive with 1%positive.
      rewrite roundHalfEven_1, Z.mul_1_r, sgn_mul_abs. reflexivity.
    + assert (Z.abs n = 2 ^ 53) as Ha by (rewrite He in Hlo; lia).
      rewrite He, Ha. f_equal.
      change (Z.sgn n * roundHalfEven (2 ^ 53) (1 * Z.to_pos (2 ^ (53 - 52)))
              * 2 ^ (53 - 52)) with (Z.sgn n * 2 ^ 52 * 2).
      rewrite <- (sgn_mul_abs n) at 2. rewrite Ha. lia.
Qed.

Lemma round64_whole n q :
  Z.abs n ≤ 2 ^ 53 → (q == inject_Z n)%Q → round64 q = inject_Z n.
Proof.
  intros Hn Hq. rewrite (round64_comp _ _ Hq). by apply round64_inject_Z.
Qed.

Lemma js_add_comp x x' y y' :
  (x == x')%Q → (y == y')%Q → js_add x y = js_add x' y'.
Proof. intros Hx Hy. apply round64_comp. by rewrite Hx, Hy. Qed.

(** Sums and differences of whole numbers are exact up to [2 ^ 53]. *)
Lemma js_add_whole a b x y :
  Z.abs (a + b) ≤ 2 ^ 53 → (x == inject_Z a)%Q → (y == inject_Z b)%Q →
  js_add x y = inject_Z (a + b).
Proof.
  intros Hab Hx Hy. apply round64_whole; [done|].
  rewrite Hx, Hy, inject_Z_plus. reflexivity.
Qed.

Lemma js_sub_whole a b x y :
  Z.abs (a - b) ≤ 2 ^ 53 → (x == inject_Z a)%Q → (y == inject_Z b)%Q →
  js_sub x y = inject_Z (a - b).
Proof.
  intros Hab Hx Hy. apply round64_whole; [done|].
  rewrite Hx, Hy. unfold Z.sub. rewrite inject_Z_plus, inject_Z_opp.
  reflexivity.
Qed.

(** The rounding is seen on counts that are not whole: a tenth and two
    tenths do not add up to three tenths, and a count of [2 ^ -60] is lost
    next to ten. *)
Example js_add_rounds :
  let tenth := round64 (1 # 10) in
  let fifth := round64 (2 # 10) in
  js_add tenth fifth = (1351079888211149 # 4503599627370496)%Q
  ∧ ¬ (js_add tenth fifth == round64 (3 # 10))%Q
  ∧ js_add 10 (1 # 2 ^ 60) = 10%Q.
Proof.
  split; [vm_compute; reflexivity|]. split; [|vm_compute; reflexivity].
  vm_compute. discriminate.
Qed.

(** ** The doubles are the fixed points of the rounding *)

Section Rounding.
Local Open Scope Q_scope.

Lemma twoTo_pos z : 0 < twoTo z.
Proof. apply Qpower_0_lt. reflexivity. Qed.

Lemma twoTo_add a b : twoTo (a + b) == twoTo a * twoTo b.
Proof. apply Qpower_plus. discriminate. Qed.

Lemma twoTo_Z k : (0 <= k)%Z -> twoTo k == inject_Z (2 ^ k).
Proof. intros Hk. unfold twoTo. by rewrite Zpower_Qpower. Qed.

Lemma twoTo_S a : twoTo (a + 1) == 2 * twoTo a.
Proof. rewrite twoTo_add. unfold twoTo at 2. rewrite Qpower_1_r. ring. Qed.

Lemma twoTo_lt a b : (a < b)%Z -> twoTo a < twoTo b.
Proof. intros H. by apply Qpower_lt_compat_l. Qed.

Lemma twoTo_le a b : (a <= b)%Z -> twoTo a <= twoTo b.
Proof. intros H. by apply Qpower_le_compat_l. Qed.

Lemma twoTo_lt_inv a b : twoTo a < twoTo b -> (a < b)%Z.
Proof. intros H. by apply (Qpower_lt_compat_l_inv 2). Qed.

Lemma twoTo_le_inv a b : twoTo a <= twoTo b -> (a <= b)%Z.
Proof. intros H. by apply (Qpower_le_compat_l_inv 2). Qed.

(** [x * 2 ^ u] for a fraction, by cases on the sign of [u]. *)
Lemma scale_neg n d k :
  (0 <= k)%Z -> (n * 2 ^ k # d) == (n # d) * twoTo k.
Proof.
  intros Hk. rewrite twoTo_Z by done. unfold Qeq, Qmult. simpl. lia.
Qed.

Lemma scale_pos n d k :
  (0 <= k)%Z -> (n # d * Z.to_pos (2 ^ k)) * twoTo k == n # d.
Proof.
  intros Hk. rewrite twoTo_Z by done.
  assert (0 < 2 ^ k)%Z by (by apply Z.pow_pos_nonneg).
  unfold Qeq, Qmult. simpl. rewrite !Pos2Z.inj_mul, Z2Pos.id by done. lia.
Qed.

(** Comparison of a fraction with a power of two. *)
Lemma pow2_le_spec e n d :
  pow2_le e n d = true <-> twoTo e <= n # d.
Proof.
  unfold pow2_le. destruct (Z.ltb_spec e 0) as [He|He].
  - rewrite Z.leb_le.
    assert (twoTo e * twoTo (- e) == 1) as Hinv.
    { rewrite <- twoTo_add. replace (e + - e)%Z with 0%Z by lia. reflexivity. }
    rewrite <- (Qmult_le_r _ _ (twoTo (- e))) by apply twoTo_pos.
    rewrite Hinv, <- scale_neg by lia.
    unfold Qle. simpl. lia.
  - rewrite Z.leb_le, twoTo_Z by done. unfold Qle. simpl. lia.
Qed.

Lemma twoTo_frac a b :
  (0 <= a)%Z -> (0 <= b)%Z -> twoTo (a - b) == (2 ^ a # Z.to_pos (2 ^ b)).
Proof.
  intros Ha Hb.
  assert (0 < 2 ^ b)%Z by (by apply Z.pow_pos_nonneg).
  rewrite Qmake_Qdiv, Z2Pos.id by done. rewrite <- !twoTo_Z by done.
  replace (a - b)%Z with (a + - b)%Z by lia.
  rewrite twoTo_add. unfold Qdiv, twoTo. by rewrite Qpower_opp.
Qed.

(** The exponent: [2 ^ e <= n / d < 2 ^ (e + 1)] unless [n / d] is below
    the normal range. *)
Lemma exponent64_spec n d :
  (0 < n)%Z ->
  let e := exponent64 n d in
  (-1022 <= e)%Z /\ n # d < twoTo (e + 1) /\ ((-1022 < e)%Z -> twoTo e <= n # d).
Proof.
  intros Hn. unfold exponent64.
  set (A := Z.log2 n). set (B := Z.log2 (Z.pos d)).
  pose proof (Z.log2_spec n Hn) as [HA1 HA2]. fold A in HA1, HA2.
  pose proof (Z.log2_spec (Z.pos d) (Pos2Z.is_pos d)) as [HB1 HB2].
  fold B in HB1, HB2.
  pose proof (Z.log2_nonneg n) as HA0. fold A in HA0.
  pose proof (Z.log2_nonneg (Z.pos d)) as HB0. fold B in HB0.
  assert (0 < 2 ^ A)%Z as HpA by (by apply Z.pow_pos_nonneg).
  assert (0 < 2 ^ B)%Z as HpB by (by apply Z.pow_pos_nonneg).
  assert (n # d < twoTo (A - B + 1)) as Hup.
  { replace (A - B + 1)%Z with ((A + 1) - B)%Z by lia.
    rewrite twoTo_frac by lia. unfold Qlt. simpl. rewrite Z2Pos.id by done.
    replace (A + 1)%Z with (Z.succ A) by lia.
    clear -HA2 HB1 HpB Hn. nia. }
  assert (twoTo (A - B - 1) <= n # d) as Hlow.
  { replace (A - B - 1)%Z with (A - (B + 1))%Z by lia.
    rewrite twoTo_frac by lia. unfold Qle. simpl.
    replace (B + 1)%Z with (Z.succ B) by lia.
    rewrite Z2Pos.id by (apply Z.pow_pos_nonneg; lia).
    clear -HA1 HB2 HpA Hn. nia. }
  destruct (pow2_le (A - B) n d) eqn:Hc.
  - apply pow2_le_spec in Hc.
    destruct (Z.max_spec (A - B) (-1022)) as [[Hlt ->]|[Hge ->]].
    + split; [lia|]. split; [|lia].
      eapply Qlt_le_trans; [exact Hup|]. apply twoTo_le. lia.
    + split; [lia|]. split; [exact Hup|]. by intros _.
  - assert (~ twoTo (A - B) <= n # d) as Hc'.
    { intros H. apply pow2_le_spec in H. congruence. }
    apply Qnot_le_lt in Hc'.
    destruct (Z.max_spec (A - B - 1) (-1022)) as [[Hlt ->]|[Hge ->]].
    + split; [lia|]. split; [|lia].
      eapply Qlt_le_trans; [exact Hc'|]. apply twoTo_le. lia.
    + split; [lia|]. split; [|by intros _].
      by replace (A - B - 1 + 1)%Z with (A - B)%Z by lia.
Qed.

(** Rounding to an integer. *)
Lemma roundHalfEven_floor n d :
  (n / Z.pos d <= roundHalfEven n d <= n / Z.pos d + 1)%Z.
Proof.
  unfold roundHalfEven.
  destruct (2 * (n mod Z.pos d) ?= Z.pos d)%Z; [|lia|lia].
  destruct (Z.even (n / Z.pos d)); lia.
Qed.

Lemma roundHalfEven_exact k d : roundHalfEven (k * Z.pos d) d = k.
Proof.
  unfold roundHalfEven.
  rewrite Z.mod_mul, Z.div_mul by lia. by simpl.
Qed.

Lemma roundHalfEven_le n d k :
  (n < k * Z.pos d)%Z -> (roundHalfEven n d <= k)%Z.
Proof.
  intros H. pose proof (roundHalfEven_floor n d) as [_ Hf].
  assert (n / Z.pos d < k)%Z by (apply Z.div_lt_upper_bound; lia). lia.
Qed.

Lemma roundHalfEven_ge n d k :
  (k * Z.pos d <= n)%Z -> (k <= roundHalfEven n d)%Z.
Proof.
  intros H. pose proof (roundHalfEven_floor n d) as [Hf _].
  assert (k <= n / Z.pos d)%Z by (apply Z.div_le_lower_bound; lia). lia.
Qed.

Lemma twoTo_inv u : twoTo u * twoTo (- u) == 1.
Proof. rewrite <- twoTo_add. replace (u + - u)%Z with 0%Z by lia. reflexivity. Qed.

Lemma twoTo_neg_frac k : (0 <= k)%Z -> twoTo (- k) == (1 # Z.to_pos (2 ^ k)).
Proof.
  intros Hk. replace (- k)%Z with (0 - k)%Z by lia. by rewrite twoTo_frac.
Qed.

Lemma scaled_spec n d u :
  (scaledNum n u # scaledDen d u) * twoTo u == n # d.
Proof.
  unfold scaledNum, scaledDen. destruct (Z.ltb_spec u 0).
  - rewrite scale_neg by lia. rewrite <- Qmult_assoc.
    rewrite (Qmult_comm (twoTo (- u))), twoTo_inv. ring.
  - by apply scale_pos.
Qed.

(** The value of [round64 q]: an integer [m] times [2 ^ u], where [m] is
    the scaled magnitude rounded, and [round64 q] is in lowest terms. *)
Lemma round64_value q :
  let r := Qred q in
  let n := Z.abs (Qnum r) in
  let u := (exponent64 n (Qden r) - 52)%Z in
  let m := roundHalfEven (scaledNum n u) (scaledDen (Qden r) u) in
  n <> 0%Z ->
  round64 q == inject_Z (Z.sgn (Qnum r) * m) * twoTo u
  /\ Qred (round64 q) = round64 q.
Proof.
  intros r n u m Hn. unfold round64. fold r. fold n.
  destruct (Z.eqb_spec n 0) as [?|_]; [done|]. fold u.
  unfold m, scaledNum, scaledDen.
  destruct (Z.ltb_spec u 0) as [Hu|Hu].
  - split; [|apply Qred_involutive].
    rewrite Qred_correct.
    assert (twoTo u == (1 # Z.to_pos (2 ^ (- u)))) as ->.
    { rewrite <- twoTo_neg_frac by lia. by replace (- - u)%Z with u by lia. }
    unfold Qeq, Qmult. simpl. lia.
  - split; [|apply Qred_inject_Z].
    rewrite twoTo_Z by done. rewrite <- inject_Z_mult. reflexivity.
Qed.

Lemma scaled_lt n d u k :
  n # d < inject_Z k * twoTo u ->
  (roundHalfEven (scaledNum n u) (scaledDen d u) <= k)%Z.
Proof.
  intros H. apply roundHalfEven_le.
  rewrite <- (scaled_spec n d u) in H.
  apply Qmult_lt_r in H; [|apply twoTo_pos].
  unfold Qlt in H. simpl in H. lia.
Qed.

Lemma scaled_ge n d u k :
  inject_Z k * twoTo u <= n # d ->
  (k <= roundHalfEven (scaledNum n u) (scaledDen d u))%Z.
Proof.
  intros H. apply roundHalfEven_ge.
  rewrite <- (scaled_spec n d u) in H.
  apply Qmult_le_r in H; [|apply twoTo_pos].
  unfold Qle in H. simpl in H. lia.
Qed.

Lemma scaled_eq n d u k :
  n # d == inject_Z k * twoTo u ->
  roundHalfEven (scaledNum n u) (scaledDen d u) = k.
Proof.
  intros H. rewrite <- (scaled_spec n d u) in H.
  apply Qmult_inj_r in H; [|pose proof (twoTo_pos u); lra].
  unfold Qeq in H. simpl in H.
  replace (scaledNum n u) with (k * Z.pos (scaledDen d u))%Z by lia.
  apply roundHalfEven_exact.
Qed.

Lemma Qmake_sgn_abs y : (Z.sgn (Qnum y) * Z.abs (Qnum y) # Qden y) = y.
Proof. destruct y as [[|p|p] d]; reflexivity. Qed.

(** A number in lowest terms whose magnitude is a whole multiple of its
    unit in the last place is a double. *)
Lemma round64_fixed y k :
  Qred y = y ->
  let n := Z.abs (Qnum y) in
  let u := (exponent64 n (Qden y) - 52)%Z in
  n <> 0%Z ->
  n # Qden y == inject_Z k * twoTo u ->
  round64 y = y.
Proof.
  intros Hy n u Hn Hk.
  pose proof (round64_value y) as Hv. rewrite Hy in Hv. cbv zeta in Hv.
  fold n in Hv. fold u in Hv. destruct (Hv Hn) as [Hval Hred].
  rewrite (scaled_eq _ _ _ _ Hk) in Hval.
  transitivity (Qred (round64 y)); [by rewrite Hred|].
  transitivity (Qred y); [|exact Hy]. apply Qred_complete.
  rewrite Hval, inject_Z_mult, <- Qmult_assoc, <- Hk.
  rewrite <- (Qmake_sgn_abs y) at 2. fold n.
  unfold Qeq, Qmult. simpl. lia.
Qed.
Lemma exponent64_unique n d e :
  (0 < n)%Z -> (-1022 <= e)%Z -> n # d < twoTo (e + 1) ->
  ((-1022 < e)%Z -> twoTo e <= n # d) -> exponent64 n d = e.
Proof.
  intros Hn He Hup Hlow.
  pose proof (exponent64_spec n d Hn) as H. cbv zeta in H.
  destruct H as (He' & Hup' & Hlow').
  set (e' := exponent64 n d) in *.
  destruct (Z.lt_trichotomy e' e) as [Hlt|[->|Hgt]]; [|done|]; exfalso.
  - assert (twoTo e <= n # d) as H1 by (apply Hlow; lia).
    assert (twoTo e < twoTo (e' + 1)) as H2 by (eapply Qle_lt_trans; eauto).
    apply twoTo_lt_inv in H2. lia.
  - assert (twoTo e' <= n # d) as H1 by (apply Hlow'; lia).
    assert (twoTo e' < twoTo (e + 1)) as H2 by (eapply Qle_lt_trans; eauto).
    apply twoTo_lt_inv in H2. lia.
Qed.

Lemma twoTo_scale k u : (0 <= k)%Z -> twoTo (u + k) == inject_Z (2 ^ k) * twoTo u.
Proof. intros Hk. rewrite twoTo_add, (twoTo_Z k) by done. ring. Qed.

Lemma twoTo_scale_lt m k u :
  (0 <= k)%Z -> (m < 2 ^ k)%Z -> inject_Z m * twoTo u < twoTo (u + k).
Proof.
  intros Hk H. rewrite twoTo_add, (Qmult_comm (twoTo u)), (twoTo_Z k) by done.
  apply Qmult_lt_r; [apply twoTo_pos|]. by rewrite <- Zlt_Qlt.
Qed.

Lemma twoTo_scale_le m k u :
  (0 <= k)%Z -> (2 ^ k <= m)%Z -> twoTo (u + k) <= inject_Z m * twoTo u.
Proof.
  intros Hk H. rewrite twoTo_add, (Qmult_comm (twoTo u)), (twoTo_Z k) by done.
  apply Qmult_le_r; [apply twoTo_pos|]. by rewrite <- Zle_Qle.
Qed.

(** The doubles: at most 53 significant bits over a unit no smaller than
    [2 ^ -1074], and a full significand above the subnormal range. *)
Lemma round64_representable y m u :
  Qred y = y ->
  (0 < m <= 2 ^ 53)%Z -> (-1074 <= u)%Z ->
  ((-1074 < u)%Z -> (2 ^ 52 <= m)%Z) ->
  Z.abs (Qnum y) # Qden y == inject_Z m * twoTo u ->
  round64 y = y.
Proof.
  intros Hy Hm Hu Hnorm Hval.
  set (n := Z.abs (Qnum y)) in *.
  assert (0 < n)%Z as Hn.
  { assert (0 < n # Qden y) as H.
    { rewrite Hval. apply Qmult_lt_0_compat; [|apply twoTo_pos].
      change 0 with (inject_Z 0). rewrite <- Zlt_Qlt. lia. }
    unfold Qlt in H. simpl in H. lia. }
  destruct (Z.eq_dec m (2 ^ 53)%Z) as [->|Hne].
  - assert (exponent64 n (Qden y) = (u + 53)%Z) as He.
    { apply exponent64_unique; [done|lia| |].
      - rewrite Hval. replace (u + 53 + 1)%Z with (u + 54)%Z by lia.
        apply twoTo_scale_lt; lia.
      - intros _. rewrite Hval. apply twoTo_scale_le; lia. }
    apply (round64_fixed y (2 ^ 52)%Z); [done|fold n; lia|].
    fold n. rewrite He, Hval.
    replace (u + 53 - 52)%Z with (u + 1)%Z by lia. rewrite twoTo_S.
    assert (inject_Z (2 ^ 53) == 2 * inject_Z (2 ^ 52)) as -> by by vm_compute.
    ring.
  - assert (exponent64 n (Qden y) = (u + 52)%Z) as He.
    { apply exponent64_unique; [done|lia| |].
      - rewrite Hval. replace (u + 52 + 1)%Z with (u + 53)%Z by lia.
        apply twoTo_scale_lt; lia.
      - intros He. rewrite Hval. apply twoTo_scale_le; [lia|]. apply Hnorm. lia. }
    apply (round64_fixed y m); [done|fold n; lia|].
    fold n. rewrite He, Hval.
    by replace (u + 52 - 52)%Z with u by lia.
Qed.

Lemma Qabs_frac y : (Z.abs (Qnum y) # Qden y) = Qabs y.
Proof. by destruct y. Qed.

(** Rounding gives a double, so rounding again changes nothing. *)
Lemma round64_idem q : round64 (round64 q) = round64 q.
Proof.
  set (r := Qred q). set (n := Z.abs (Qnum r)).
  destruct (Z.eq_dec n 0%Z) as [Hz|Hn].
  { assert (round64 q = 0) as ->; [|done].
    unfold round64. fold r. fold n. by rewrite Hz. }
  pose proof (round64_value q) as Hv. cbv zeta in Hv.
  fold r in Hv. fold n in Hv. destruct (Hv Hn) as [Hval Hred]. clear Hv.
  pose proof (exponent64_spec n (Qden r)) as He. cbv zeta in He.
  destruct He as (He & Hup & Hlow); [lia|].
  set (e := exponent64 n (Qden r)) in *. set (u := (e - 52)%Z) in *.
  set (m := roundHalfEven (scaledNum n u) (scaledDen (Qden r) u)) in *.
  assert (m <= 2 ^ 53)%Z as Hm1.
  { apply scaled_lt. eapply Qlt_le_trans; [exact Hup|].
    replace (e + 1)%Z with (u + 53)%Z by lia. apply twoTo_scale_le; lia. }
  assert (0 <= m)%Z as Hm0.
  { apply scaled_ge. rewrite Qmult_0_l. unfold Qle. simpl. lia. }
  assert ((-1074 < u)%Z -> (2 ^ 52 <= m)%Z) as Hnorm.
  { intros Hu. apply scaled_ge. eapply Qle_trans; [|apply Hlow; lia].
    replace e with (u + 52)%Z by lia. rewrite twoTo_scale by lia. apply Qle_refl. }
  destruct (Z.eq_dec m 0%Z) as [Hm|Hm].
  { assert (round64 q = 0) as ->; [|done].
    rewrite <- Hred. change 0 with (Qred 0). apply Qred_complete.
    rewrite Hval, Hm, Z.mul_0_r. apply Qmult_0_l. }
  apply (round64_representable _ m u); [done|lia|lia|done|].
  rewrite Qabs_frac, Hval, Qabs_Qmult.
  rewrite (Qabs_pos (twoTo u)) by apply Qlt_le_weak, twoTo_pos.
  apply Qmult_comp; [|reflexivity].
  assert (Qnum r <> 0)%Z as Hr by lia.
  unfold Qeq. simpl. clear -Hr Hm0. destruct (Qnum r); [done|lia|lia].
Qed.

(** Adding zero to a sum leaves it as it is. *)
Lemma js_add_0_r x y : js_add (js_add x y) 0 = js_add x y.
Proof.
  unfold js_add at 1. rewrite (round64_comp _ (js_add x y)) by ring.
  apply round64_idem.
Qed.
End Rounding.

(** ** Token admission *)

Lemma companionsOrZero_default r :
  (companionsOrZero r == default 0 (RSVP.companions r))%Q.
Proof.
  unfold companionsOrZero. destruct (RSVP.companions r) as [q|]; simpl.
  - destruct (Qeq_bool q 0) eqn:E; [|reflexivity].
    apply Qeq_bool_iff in E. symmetry. exact E.
  - reflexivity.
Qed.

Lemma reduceAttendees_snoc l r :
  reduceAttendees (l ++ [r])
  = js_add (js_add (reduceAttendees l) 1) (companionsOrZero r).
Proof. unfold reduceAttendees. by rewrite fold_left_app. Qed.

Lemma sumAttendees_snoc l r :
  (sumAttendees (l ++ [r])
   == sumAttendees l + (1 + default 0 (RSVP.companions r)))%Q.
Proof.
  unfold sumAttendees. induction l as [|x l IH]; simpl; [lra|].
  rewrite IH. lra.
Qed.

(** On whole counts the handler's sum is the sum of the specification:
    nothing is rounded below [2 ^ 53]. *)
Lemma reduceAttendees_whole l :
  Forall wholeCompanions l →
  6 * Z.of_nat (length l) ≤ 2 ^ 53 →
  ∃ k : Z, 0 ≤ k ≤ 6 * Z.of_nat (length l)
           ∧ reduceAttendees l = inject_Z k
           ∧ (sumAttendees l == inject_Z k)%Q.
Proof.
  induction l as [|r l IH] using rev_ind; intros Hw Hlen.
  { exists 0. split; [simpl; lia|]. split; reflexivity. }
  apply Forall_app in Hw as [Hl Hr]. apply Forall_cons in Hr as [Hr _].
  rewrite length_app in Hlen. simpl in Hlen.
  destruct IH as (k & Hk & Hred & Hsum); [done|lia|].
  assert (∃ n : Z, 0 ≤ n ≤ 5
                   ∧ (default 0 (RSVP.companions r) == inject_Z n)%Q)
    as (n & Hn & Hc).
  { unfold wholeCompanions in Hr. destruct (RSVP.companions r) as [q|].
    - exact Hr.
    - exists 0. split; [lia|reflexivity]. }
  exists (k + 1 + n). rewrite length_app. simpl.
  split; [lia|]. split.
  - rewrite reduceAttendees_snoc, Hred.
    apply js_add_whole; [lia| |by rewrite companionsOrZero_default].
    rewrite (js_add_whole k 1); [reflexivity|lia|reflexivity|reflexivity].
  - rewrite sumAttendees_snoc, Hsum, Hc, !inject_Z_plus.
    change (inject_Z 1) with 1%Q. ring.
Qed.

Lemma find_none_existsb {A} (p : A → bool) l :
  List.find p l = None → existsb p l = false.
Proof.
  induction l as [|x l IH]; simpl; [done|].
  destruct (p x); [done|]. exact IH.
Qed.

Section TokenAdmission.
Variable trim : string -> string.
Variable toLowerCase : string -> string.

Abbreviation submit := (submitTokenRSVP trim toLowerCase).
Abbreviation create := (createTokenRsvp trim toLowerCase).
Abbreviation store := (storeTokenRsvp trim toLowerCase).

Lemma createTokenRsvp_rsvps s now tk v :
  rsvps (create s now tk v).1
  = rsvps s ++ [rsvpData trim toLowerCase (nextId s) tk v now].
Proof.
  unfold createTokenRsvp. simpl.
  destruct (in_guestName v) as [g|]; [|done].
  by destruct (negb (String.eqb g "") && negb (String.eqb (trim g) "")).
Qed.

Lemma createTokenRsvp_response s now tk v :
  (create s now tk v).2
  = TR_Created (nextId s) (in_status v) (Some (in_companions v))
               (totalAttendeesOf v).
Proof. reflexivity. Qed.

(** After the handler's own look-up found no response of the token, the
    insert passes the indexes. *)
Lemma storeTokenRsvp_fresh s now tk v :
  List.find (isTokenRsvp (Token.eventId tk) (Token._id tk)) (rsvps s) = None →
  store s now tk v = create s now tk v.
Proof.
  intros Hex. unfold storeTokenRsvp, duplicateKey. simpl.
  by rewrite (find_none_existsb _ _ Hex).
Qed.

Lemma storeTokenRsvp_rsvps s now tk v :
  let out := storeTokenRsvp trim toLowerCase s now tk v in
  (out.2 = TR_ServerError ∧ rsvps out.1 = rsvps s ∧ tokens out.1 = tokens s
   ∧ events out.1 = events s
   ∧ duplicateKey (rsvps s) (rsvpData trim toLowerCase (nextId s)
                                      tk v now) = true)
  ∨ (out = createTokenRsvp trim toLowerCase s now tk v
     ∧ rsvps out.1
       = rsvps s ++ [rsvpData trim toLowerCase (nextId s) tk v now]
     ∧ duplicateKey (rsvps s) (rsvpData trim toLowerCase (nextId s)
                                        tk v now) = false).
Proof.
  unfold storeTokenRsvp.
  destruct (duplicateKey _ _) eqn:Hd; simpl.
  - left. done.
  - right. split; [done|]. split; [|done]. apply createTokenRsvp_rsvps.
Qed.

Lemma tokenRsvpSchema_status body v :
  tokenRsvpSchema body = Some v →
  in_status v = Going ∨ in_status v = NotGoing.
Proof.
  unfold tokenRsvpSchema, parse_status2. intros H.
  destruct (body !! "status") as [[| |?|st|]|]; simplify_option_eq;
    repeat case_match; simplify_option_eq; auto.
Qed.

(** Every way out of the token route: either the request is admitted and
    [s'] comes from [createTokenRsvp], or no collection is written; a body
    that fails validation leaves a line on the console. *)
Lemma submit_cases s now tok body s' resp :
  submit s now tok body = (s', resp) →
  (∃ v tk ev,
      tokenRsvpSchema body = Some v
      ∧ findToken s tok = Some tk
      ∧ findEventById s (Token.eventId tk) = Some ev
      ∧ List.find (isTokenRsvp (Token.eventId tk) (Token._id tk)) (rsvps s)
        = None
      ∧ (in_status v = Going →
         Qle_bool (js_add (currentAttendees s (Token.eventId tk))
                          (totalAttendeesOf v))
                  (Event.capacity ev) = true)
      ∧ create s now tk v = (s', resp))
  ∨ ((s' = s
      ∨ (tokenRsvpSchema body = None
         ∧ s' = console_error s "Validation error:"))
     ∧ ∀ id st c total, resp ≠ TR_Created id st c total).
Proof.
  unfold submitTokenRSVP, admitTokenRsvp. intros H.
  destruct (tokenRsvpSchema body) as [v|] eqn:Hv;
    [|right; simplify_eq; split; [by right|done]].
  destruct (findToken s tok) as [tk|] eqn:Htk;
    [|right; simplify_eq; split; [by left|done]].
  destruct (findEventById s (Token.eventId tk)) as [ev|] eqn:Hev;
    [|right; simplify_eq; split; [by left|done]].
  destruct (List.find _ (rsvps s)) as [ex|] eqn:Hex;
    [right; simplify_eq; split; [by left|done]|].
  destruct (bool_decide (in_status v = Going)) eqn:Hgo.
  - destruct (Qle_bool _ _) eqn:Hcap; simpl in H.
    + rewrite (storeTokenRsvp_fresh _ _ _ _ Hex) in H.
      left. exists v, tk, ev. by repeat (split; [done|]).
    + right. simplify_eq. split; [by left|done].
  - rewrite (storeTokenRsvp_fresh _ _ _ _ Hex) in H.
    left. exists v, tk, ev. repeat (split; [done|]). split; [|done].
    intros Hst. by rewrite bool_decide_eq_true_2 in Hgo.
Qed.

(** A refused request writes no collection. *)
Lemma submit_refused s s' body :
  s' = s ∨ (tokenRsvpSchema body = None
            ∧ s' = console_error s "Validation error:") →
  rsvps s' = rsvps s ∧ tokens s' = tokens s ∧ events s' = events s
  ∧ users s' = users s ∧ nextId s' = nextId s
  ∧ emailConfigured s' = emailConfigured s.
Proof. by intros [->|[_ ->]]. Qed.

(** C1: with no earlier response of the token, and the stored companion
    counts being counts the schemas let in (so that no sum leaves the
    range of doubles), a going submission is refused
    as full exactly when the attendees already counted plus the
    [1 + companions] requested exceed the capacity, the sums being those
    the handler computes; the refusal reports [capacity − currentAttendees]
    as computed, with no floor at 0, so a negative number when the count
    is above the capacity; a not-going submission is admitted whatever the
    capacity.  On whole counts nothing is rounded: the count is the sum of
    [1 + companions] over the going responses of the event, and the sums
    and the difference are exact. *)
Theorem C1_capacity_check s now tok body v tk ev :
  tokenRsvpSchema body = Some v →
  findToken s tok = Some tk →
  findEventById s (Token.eventId tk) = Some ev →
  List.find (isTokenRsvp (Token.eventId tk) (Token._id tk)) (rsvps s) = None →
  let going :=
    List.filter (fun r => Nat.eqb (RSVP.eventId r) (Token.eventId tk)
                          && bool_decide (RSVP.status r = Going)) (rsvps s) in
  let current := currentAttendees s (Token.eventId tk) in
  let requested := js_add 1 (in_companions v) in
  Forall countInRange going →
  6 * (Z.of_nat (length going) + 1) ≤ 2 ^ 53 →
  (in_status v = Going →
   ((Event.capacity ev < js_add current requested)%Q →
    submit s now tok body
    = (s, TR_EventFull (js_sub (Event.capacity ev) current)))
   ∧ ((js_add current requested <= Event.capacity ev)%Q →
      (submit s now tok body).2
      = TR_Created (nextId s) Going (Some (in_companions v)) requested))
  ∧ (in_status v = NotGoing →
     (submit s now tok body).2
     = TR_Created (nextId s) NotGoing (Some (in_companions v)) 0%Q)
  ∧ (Forall wholeCompanions going →
     wholeCount (in_companions v) →
     (current == sumAttendees going)%Q
     ∧ (requested == 1 + in_companions v)%Q
     ∧ (js_add current requested == current + requested)%Q
     ∧ ∀ c : Z, 0 ≤ c ≤ 2 ^ 53 → (Event.capacity ev == inject_Z c)%Q →
         (js_sub (Event.capacity ev) current
          == Event.capacity ev - current)%Q
         ∧ ((Event.capacity ev < current)%Q →
            (js_sub (Event.capacity ev) current < 0)%Q
            ∧ ¬ (js_sub (Event.capacity ev) current
                 == remainingSpotsFloored (Event.capacity ev) current)%Q)).
Proof.
  intros Hv Htk Hev Hex going current requested _ Hlen.
  split; [|split].
  - intros Hst. unfold submitTokenRSVP, admitTokenRsvp.
    rewrite Hv, Htk, Hev, Hex. unfold totalAttendeesOf.
    rewrite !(bool_decide_eq_true_2 _ Hst).
    fold current. fold requested. split; intros Hc.
    + destruct (Qle_bool (js_add current requested) (Event.capacity ev))
        eqn:E; [|done].
      apply Qle_bool_iff in E. exfalso. eapply Qlt_not_le; eauto.
    + apply Qle_bool_iff in Hc. rewrite Hc. cbn [negb].
      rewrite (storeTokenRsvp_fresh _ _ _ _ Hex), createTokenRsvp_response.
      unfold totalAttendeesOf. by rewrite Hst, bool_decide_eq_true_2.
  - intros Hst.
    assert (in_status v ≠ Going) as Hne by (rewrite Hst; done).
    unfold submitTokenRSVP, admitTokenRsvp. rewrite Hv, Htk, Hev, Hex.
    rewrite (bool_decide_eq_false_2 _ Hne).
    rewrite (storeTokenRsvp_fresh _ _ _ _ Hex), createTokenRsvp_response.
    unfold totalAttendeesOf.
    by rewrite (bool_decide_eq_false_2 _ Hne), Hst.
  - intros Hw (n & Hn & Hc).
    destruct (reduceAttendees_whole going Hw) as (k & Hk & Hred & Hsum);
      [lia|].
    assert (current = inject_Z k) as Hcur by exact Hred.
    assert (requested = inject_Z (1 + n)) as Hreq.
    { apply js_add_whole; [lia|reflexivity|exact Hc]. }
    split; [by rewrite Hcur, Hsum|].
    split; [rewrite Hreq, Hc, inject_Z_plus; reflexivity|].
    split.
    { rewrite (js_add_whole k (1 + n) current requested);
        [|lia|by rewrite Hcur|by rewrite Hreq].
      rewrite Hcur, Hreq, inject_Z_plus. reflexivity. }
    intros c Hc53 Hcap.
    assert (js_sub (Event.capacity ev) current = inject_Z (c - k)) as Hsub.
    { apply js_sub_whole; [lia|exact Hcap|by rewrite Hcur]. }
    assert (js_sub (Event.capacity ev) current
            == Event.capacity ev - current)%Q as Hexact.
    { rewrite Hsub, Hcap, Hcur. unfold Z.sub.
      rewrite inject_Z_plus, inject_Z_opp. reflexivity. }
    split; [exact Hexact|]. intros Hover.
    assert (js_sub (Event.capacity ev) current < 0)%Q as Hneg
      by (rewrite Hexact; lra).
    split; [exact Hneg|]. intros Heq.
    unfold remainingSpotsFloored in Heq.
    pose proof (Q.le_max_l 0 (Event.capacity ev - current)) as Hmax.
    rewrite <- Heq in Hmax. lra.
Qed.

Lemma currentAttendees_app_not_going s s' e r :
  rsvps s' = rsvps s ++ [r] → RSVP.status r ≠ Going →
  currentAttendees s' e = currentAttendees s e.
Proof.
  intros Hr Hst. unfold currentAttendees. rewrite Hr, List.filter_app.
  simpl. unfold isGoingRsvp at 2.
  rewrite (bool_decide_eq_false_2 _ Hst), andb_false_r.
  by rewrite app_nil_r.
Qed.

(** C6: an admitted submission reports [1 + companions] attendees when
    going, the sum being the handler's (exactly [1 + companions] on a
    whole count), and [0] when not going; a not-going submission is never
    refused for capacity and leaves the attendee count of every event
    as it was. *)
Theorem C6_total_attendees :
  (∀ s now tok body s' id st c total,
      submit s now tok body = (s', TR_Created id st c total) →
      ∃ v, tokenRsvpSchema body = Some v
           ∧ st = in_status v ∧ c = Some (in_companions v)
           ∧ (st = Going ∨ st = NotGoing)
           ∧ (st = Going →
              total = js_add 1 (in_companions v)
              ∧ (wholeCount (in_companions v) →
                 (total == 1 + in_companions v)%Q))
           ∧ (st = NotGoing →
              total = 0%Q
              ∧ ∀ e, currentAttendees s' e = currentAttendees s e))
  ∧ (∀ s now tok body v,
        tokenRsvpSchema body = Some v → in_status v = NotGoing →
        ∀ spots, (submit s now tok body).2 ≠ TR_EventFull spots).
Proof.
  split.
  - intros s now tok body s' id st c total H.
    apply submit_cases in H
      as [(v & tk & ev & Hv & Htk & Hev & Hex & _ & Hc)|[_ Hno]];
      [|exfalso; by eapply Hno].
    pose proof (createTokenRsvp_response s now tk v) as H2.
    pose proof (createTokenRsvp_rsvps s now tk v) as H1.
    rewrite Hc in H1, H2. cbn [fst snd] in H1, H2.
    injection H2 as -> -> -> ->.
    exists v. split; [done|]. split; [done|]. split; [done|].
    split; [by eapply tokenRsvpSchema_status|].
    unfold totalAttendeesOf. split; intros Hst.
    + rewrite (bool_decide_eq_true_2 _ Hst). split; [done|].
      intros (n & Hn & Hcn).
      rewrite (js_add_whole 1 n 1 (in_companions v));
        [|lia|reflexivity|exact Hcn].
      rewrite Hcn, inject_Z_plus. reflexivity.
    + assert (in_status v ≠ Going) as Hne by (rewrite Hst; done).
      rewrite (bool_decide_eq_false_2 _ Hne). split; [done|].
      intros e. eapply currentAttendees_app_not_going.
      * exact H1.
      * done.
  - intros s now tok body v Hv Hst spots.
    assert (in_status v ≠ Going) as Hne by (rewrite Hst; done).
    unfold submitTokenRSVP, admitTokenRsvp. rewrite Hv.
    destruct (findToken s tok) as [tk|]; [|done].
    destruct (findEventById s (Token.eventId tk)) as [ev|]; [|done].
    destruct (List.find _ (rsvps s)) as [ex|] eqn:Hex; [done|].
    rewrite (bool_decide_eq_false_2 _ Hne).
    by rewrite (storeTokenRsvp_fresh _ _ _ _ Hex), createTokenRsvp_response.
Qed.

Lemma parse_companions_range v q :
  parse_companions v = Some q → (0 <= q)%Q ∧ (q <= 5)%Q.
Proof.
  unfold parse_companions. destruct v as [[| |q'| |]|]; try done.
  - destruct (Qle_bool 0 q') eqn:E1; [|done].
    destruct (Qle_bool q' 5) eqn:E2; [|done].
    intros [= <-]. by split; apply Qle_bool_iff.
  - intros [= <-]. split; lra.
Qed.

Lemma parse_opt_diet_field v :
  dietField v → ∃ d, parse_opt_diet v = Some d.
Proof. intros [->|[->|[->| ->]]]; simpl; eauto. Qed.

(** C7: the token schema accepts a companion count only when it lies in
    [0, 5] and keeps it as sent (0 when omitted); a count outside the
    range is rejected, not clamped; the status must be going or
    not-going, maybe is rejected; a body with such a status, a count in
    range or none, and well-formed optional fields is accepted; a rejected
    body ends the request with a validation error, a line on the console
    and no change to the database. *)
Theorem C7_token_schema (body : Body) :
  (∀ v, tokenRsvpSchema body = Some v →
        (0 <= in_companions v)%Q ∧ (in_companions v <= 5)%Q
        ∧ (in_status v = Going ∨ in_status v = NotGoing)
        ∧ (∀ q, body !! "companions" = Some (JNum q) → in_companions v = q)
        ∧ (body !! "companions" = None → in_companions v = 0%Q))
  ∧ (∀ q, body !! "companions" = Some (JNum q) →
          (q < 0)%Q ∨ (5 < q)%Q → tokenRsvpSchema body = None)
  ∧ (body !! "status" = Some (JStr "maybe") → tokenRsvpSchema body = None)
  ∧ (∀ st c,
        st = Going ∨ st = NotGoing →
        body !! "status" = Some (JStr (status_to_string st)) →
        (body !! "companions" = Some (JNum c) ∧ (0 <= c)%Q ∧ (c <= 5)%Q)
        ∨ (body !! "companions" = None ∧ c = 0%Q) →
        optionalFieldsOk body →
        ∃ v, tokenRsvpSchema body = Some v
             ∧ in_status v = st ∧ in_companions v = c)
  ∧ (tokenRsvpSchema body = None →
     ∀ s now tok,
       submit s now tok body
       = (console_error s "Validation error:", TR_ValidationError)
       ∧ rsvps (submit s now tok body).1 = rsvps s
       ∧ tokens (submit s now tok body).1 = tokens s
       ∧ events (submit s now tok body).1 = events s).
Proof.
  split; [|split; [|split; [|split]]].
  - intros v Hv. pose proof (tokenRsvpSchema_status _ _ Hv) as Hst.
    unfold tokenRsvpSchema in Hv.
    destruct (parse_status2 (body !! "status")) as [st|]; [|done].
    destruct (parse_companions (body !! "companions")) as [c|] eqn:Hc;
      [|done].
    simpl in Hv.
    destruct (parse_opt_string _) as [g|]; [|done].
    destruct (parse_opt_diet (body !! "dietaryPreference")) as [d|];
      [|done].
    destruct (parse_opt_diet _) as [cd|]; [|done].
    simpl in Hv. injection Hv as <-. simpl.
    pose proof (parse_companions_range _ _ Hc) as [H0 H5].
    repeat split; try done.
    + intros q Hq. rewrite Hq in Hc. simpl in Hc.
      destruct (Qle_bool 0 q && Qle_bool q 5); congruence.
    + intros Hq. rewrite Hq in Hc. simpl in Hc. congruence.
  - intros q Hq Hout. unfold tokenRsvpSchema.
    destruct (parse_status2 (body !! "status")) as [st|]; [|done].
    rewrite Hq. simpl.
    destruct (Qle_bool 0 q) eqn:E1; [|done].
    destruct (Qle_bool q 5) eqn:E2; [|done].
    apply Qle_bool_iff in E1, E2. exfalso. lra.
  - intros Hst. unfold tokenRsvpSchema. by rewrite Hst.
  - intros st c Hst Hbody Hc (Hg & Hd & Hcd).
    assert (parse_status2 (body !! "status") = Some st) as H1.
    { rewrite Hbody. by destruct Hst as [-> | ->]. }
    assert (parse_companions (body !! "companions") = Some c) as H2.
    { destruct Hc as [(-> & H0 & H5)|[-> ->]]; [|done]. simpl.
      apply Qle_bool_iff in H0, H5. by rewrite H0, H5. }
    assert (∃ g, parse_opt_string (body !! "guestName") = Some g)
      as [g H3].
    { destruct Hg as [->|[g ->]]; simpl; eauto. }
    destruct (parse_opt_diet_field _ Hd) as [d H4].
    destruct (parse_opt_diet_field _ Hcd) as [cd H5].
    exists (mkTokenRsvpInput st c g d cd).
    unfold tokenRsvpSchema. rewrite H1, H2, H3, H4, H5. done.
  - intros Hv s now tok. unfold submitTokenRSVP. by rewrite Hv.
Qed.

(** C2: when the token already has a response for its event, a further
    submission with a valid body is refused as already responded (400)
    with the status, the companions (0 when the stored response has none)
    and the time of the stored response, and the state is as it was; one
    with an invalid body is refused as a validation error before the
    look-up and leaves a line on the console; either way no collection
    changes. *)
Theorem C2_already_responded s now tok body tk ev ex :
  findToken s tok = Some tk →
  findEventById s (Token.eventId tk) = Some ev →
  List.find (isTokenRsvp (Token.eventId tk) (Token._id tk)) (rsvps s)
  = Some ex →
  (∀ v, tokenRsvpSchema body = Some v →
        submit s now tok body
        = (s, TR_AlreadyResponded (RSVP.status ex)
                                  (Some (default 0%Q (RSVP.companions ex)))
                                  (RSVP.createdAt ex)))
  ∧ (tokenRsvpSchema body = None →
     submit s now tok body
     = (console_error s "Validation error:", TR_ValidationError))
  ∧ rsvps (submit s now tok body).1 = rsvps s
  ∧ tokens (submit s now tok body).1 = tokens s
  ∧ events (submit s now tok body).1 = events s
  ∧ users (submit s now tok body).1 = users s
  ∧ TokenRsvpResponse_code (submit s now tok body).2 = 400
  ∧ In ex (rsvps s)
  ∧ RSVP.tokenId ex = Some (Token._id tk)
  ∧ RSVP.eventId ex = Token.eventId tk.
Proof.
  intros Htk Hev Hex.
  assert (In ex (rsvps s) ∧ RSVP.tokenId ex = Some (Token._id tk)
          ∧ RSVP.eventId ex = Token.eventId tk) as Hfound.
  { apply find_some in Hex as [Hin H]. unfold isTokenRsvp in H.
    apply andb_true_iff in H as [He Ht]. apply Nat.eqb_eq in He.
    destruct (RSVP.tokenId ex) as [t|]; [|done].
    apply Nat.eqb_eq in Ht. by subst. }
  unfold submitTokenRSVP, admitTokenRsvp.
  destruct (tokenRsvpSchema body) as [v|] eqn:Hv.
  - rewrite Htk, Hev, Hex. simpl.
    split; [by intros v' [= <-]|]. by repeat (split; [done|]).
  - simpl. by repeat (split; [done|]).
Qed.

Lemma find_updateFirst {A} (q p : A → bool) (f : A → A) l x :
  (∀ y, q (f y) = q y) →
  List.find q l = Some x →
  List.find q (updateFirst p f l) = Some x
  ∨ List.find q (updateFirst p f l) = Some (f x).
Proof.
  intros Hq. induction l as [|y l IH]; simpl; [done|].
  destruct (p y) eqn:Hp; simpl.
  - rewrite Hq. destruct (q y); [|by left].
    intros [= ->]. by right.
  - destruct (q y); [by left|]. exact IH.
Qed.

Lemma createTokenRsvp_token s now tk v tok :
  findToken s tok = Some tk →
  ∃ tk', findToken (create s now tk v).1 tok = Some tk'
         ∧ Token._id tk' = Token._id tk
         ∧ Token.eventId tk' = Token.eventId tk.
Proof.
  intros Htk. unfold createTokenRsvp, findToken. simpl.
  destruct (in_guestName v) as [g|]; [|by eauto].
  destruct (negb (String.eqb g "") && negb (String.eqb (trim g) ""));
    [|by eauto].
  simpl. unfold setTokenName.
  edestruct (find_updateFirst
               (λ t, String.eqb (Token.token t) tok)
               (λ t, Nat.eqb (Token._id t) (Token._id tk))) as [H|H];
    [|exact Htk|rewrite H; by eauto|rewrite H; by eauto].
  done.
Qed.

Lemma createTokenRsvp_events s now tk v :
  events (create s now tk v).1 = events s.
Proof.
  unfold createTokenRsvp. simpl.
  destruct (in_guestName v) as [g|]; [|done].
  by destruct (negb (String.eqb g "") && negb (String.eqb (trim g) "")).
Qed.

Lemma find_app_none {A} (p : A → bool) l x :
  List.find p l = None → p x = true → List.find p (l ++ [x]) = Some x.
Proof.
  induction l as [|y l IH]; simpl; intros Hn Hx.
  - by rewrite Hx.
  - destruct (p y); [done|]. by apply IH.
Qed.

(** The two calls of the specification's scenario: once a submission
    has been admitted, every later valid submission for the same token
    reads back the first response and changes nothing. *)
Lemma submit_twice s now tok body s' id st c total now' body' v' :
  submit s now tok body = (s', TR_Created id st c total) →
  tokenRsvpSchema body' = Some v' →
  submit s' now' tok body' = (s', TR_AlreadyResponded st c now).
Proof.
  intros H Hv'.
  apply submit_cases in H
    as [(v & tk & ev & Hv & Htk & Hev & Hex & _ & Hc)|[_ Hno]];
    [|exfalso; by eapply Hno].
  pose proof (createTokenRsvp_response s now tk v) as H2.
  pose proof (createTokenRsvp_rsvps s now tk v) as H1.
  pose proof (createTokenRsvp_events s now tk v) as H3.
  destruct (createTokenRsvp_token s now tk v tok Htk) as (tk' & H4 & Hid & He).
  rewrite Hc in H1, H2, H3, H4. cbn [fst snd] in H1, H2, H3, H4.
  injection H2 as -> -> -> ->.
  unfold submitTokenRSVP, admitTokenRsvp. rewrite Hv', H4, He, Hid.
  unfold findEventById in *. rewrite H3, Hev, H1.
  erewrite find_app_none; [done|exact Hex|].
  unfold isTokenRsvp. simpl. by rewrite !Nat.eqb_refl.
Qed.
End TokenAdmission.

(** The third guest of the sample answers after the capacity was lowered:
    12 attendees are counted against a capacity of 10, and the refusal
    reports -2 spots where the floor would give 0. *)
Lemma C1_capacity_check_witness :
  tokenRsvpSchema (Sample.rsvpBody "going" 0)
  = Some (mkTokenRsvpInput Going 0 None None None)
  ∧ findToken Sample.overbooked "cc" = Some Sample.tokenC
  ∧ currentAttendees Sample.overbooked 0%nat = 12%Q
  ∧ submitTokenRSVP Sample.trim Sample.toLowerCase Sample.overbooked 8 "cc"
                    (Sample.rsvpBody "going" 0)
    = (Sample.overbooked, TR_EventFull (-2))
  ∧ (remainingSpotsFloored 10 12 == 0)%Q.
Proof.
  split; [vm_compute; reflexivity|]. split; [vm_compute; reflexivity|].
  split; [vm_compute; reflexivity|].
  split; [|vm_compute; reflexivity].
  destruct (C1_capacity_check Sample.trim Sample.toLowerCase
              Sample.overbooked 8 "cc" (Sample.rsvpBody "going" 0)
              (mkTokenRsvpInput Going 0 None None None)
              Sample.tokenC Sample.launch)
    as (Hgoing & _); [vm_compute; reflexivity ..| |vm_compute; discriminate|].
  { assert (rsvps Sample.overbooked
            = [Sample.rsvpA;
               RSVP.mk 5%nat 0%nat None (Some 2%nat) Going (Some 5%Q) None
                       (Some "bob@example.com") None None 6 6]) as ->
      by (vm_compute; reflexivity).
    simpl. repeat apply Forall_cons_2; try apply Forall_nil_2;
      split; discriminate. }
  destruct (Hgoing eq_refl) as [Hfull _].
  rewrite Hfull; vm_compute; reflexivity.
Defined.

Lemma C6_total_attendees_witness :
  let out := submitTokenRSVP Sample.trim Sample.toLowerCase Sample.invited 5
                             "aa" (Sample.rsvpBody "not-going" 3) in
  out.2 = TR_Created 4%nat NotGoing (Some 3%Q) 0%Q
  ∧ (∀ e, currentAttendees out.1 e = currentAttendees Sample.invited e)
  ∧ ∀ spots,
      (submitTokenRSVP Sample.trim Sample.toLowerCase Sample.overbooked 8
                       "cc" (Sample.rsvpBody "not-going" 5)).2
      ≠ TR_EventFull spots.
Proof.
  intros out. split; [vm_compute; reflexivity|].
  destruct (C6_total_attendees Sample.trim Sample.toLowerCase) as [H1 H2].
  split.
  - destruct (H1 Sample.invited 5 "aa" (Sample.rsvpBody "not-going" 3)
                 out.1 4%nat NotGoing (Some 3%Q) 0%Q)
      as (v & _ & _ & _ & _ & _ & Hng); [vm_compute; reflexivity|].
    apply Hng. reflexivity.
  - eapply H2; reflexivity.
Defined.

(** Two and a half companions are accepted as sent; six companions and a
    "maybe" are refused. *)
Lemma C7_token_schema_witness :
  tokenRsvpSchema (Sample.rsvpBody "going" 6) = None
  ∧ tokenRsvpSchema (Sample.rsvpBody "maybe" 1) = None
  ∧ ∃ v, tokenRsvpSchema (Sample.rsvpBody "going" (5 # 2)) = Some v
         ∧ in_status v = Going ∧ in_companions v = (5 # 2)%Q.
Proof.
  split; [|split].
  - destruct (C7_token_schema Sample.trim Sample.toLowerCase
                (Sample.rsvpBody "going" 6)) as (_ & Hout & _).
    apply (Hout 6%Q); [vm_compute; reflexivity|right; reflexivity].
  - destruct (C7_token_schema Sample.trim Sample.toLowerCase
                (Sample.rsvpBody "maybe" 1)) as (_ & _ & Hmaybe & _).
    apply Hmaybe. vm_compute. reflexivity.
  - destruct (C7_token_schema Sample.trim Sample.toLowerCase
                (Sample.rsvpBody "going" (5 # 2))) as (_ & _ & _ & Hacc & _).
    apply (Hacc Going (5 # 2)%Q).
    + by left.
    + vm_compute. reflexivity.
    + left. split; [vm_compute; reflexivity|]. split; discriminate.
    + split; [left; vm_compute; reflexivity|].
      split; left; vm_compute; reflexivity.
Defined.

(** C7 as the specification words it: a companion count of 7 would be
    clamped to 5 and accepted.  The schema rejects the body. *)
Lemma C7_companions_not_clamped :
  (clampCompanions 7 == 5)%Q
  ∧ tokenRsvpSchema (Sample.rsvpBody "going" 7) = None
  ∧ ¬ (∃ v, tokenRsvpSchema (Sample.rsvpBody "going" 7) = Some v
            ∧ (in_companions v == clampCompanions 7)%Q)
  ∧ (submitTokenRSVP Sample.trim Sample.toLowerCase Sample.invited 5 "aa"
                     (Sample.rsvpBody "going" 7)).2
    = TR_ValidationError
  ∧ rsvps (submitTokenRSVP Sample.trim Sample.toLowerCase Sample.invited 5
                           "aa" (Sample.rsvpBody "going" 7)).1
    = rsvps Sample.invited.
Proof.
  split; [vm_compute; reflexivity|].
  split; [reflexivity|].
  split; [|split; vm_compute; reflexivity].
  intros (v & Hv & _). vm_compute in Hv. discriminate.
Qed.

Lemma C2_already_responded_witness :
  List.find (isTokenRsvp 0%nat 1%nat) (rsvps Sample.overbooked)
  = Some Sample.rsvpA
  ∧ submitTokenRSVP Sample.trim Sample.toLowerCase Sample.overbooked 9 "aa"
                    (Sample.rsvpBody "not-going" 0)
    = (Sample.overbooked,
       TR_AlreadyResponded Going (Some 5%Q) 5).
Proof.
  split; [vm_compute; reflexivity|].
  destruct (C2_already_responded Sample.trim Sample.toLowerCase
              Sample.overbooked 9 "aa" (Sample.rsvpBody "not-going" 0)
              Sample.tokenA Sample.launch Sample.rsvpA)
    as (H & _); [vm_compute; reflexivity ..|].
  apply (H (mkTokenRsvpInput NotGoing 0 None None None)).
  vm_compute. reflexivity.
Defined.

(** C2 as the specification words it: every second call for a token that
    has responded is refused as already responded and echoes the stored
    response.  A second call whose body fails validation is refused
    before the lookup, as a validation error. *)
Lemma C2_invalid_second_call :
  is_Some (List.find (isTokenRsvp 0%nat 1%nat) (rsvps Sample.overbooked))
  ∧ submitTokenRSVP Sample.trim Sample.toLowerCase Sample.overbooked 9 "aa"
                    (Sample.rsvpBody "going" 6)
    = (console_error Sample.overbooked "Validation error:",
       TR_ValidationError)
  ∧ ∀ st c t,
      (submitTokenRSVP Sample.trim Sample.toLowerCase Sample.overbooked 9
                       "aa" (Sample.rsvpBody "going" 6)).2
      ≠ TR_AlreadyResponded st c t.
Proof.
  split; [vm_compute; eauto|].
  split; [vm_compute; reflexivity|].
  intros st c t. vm_compute. discriminate.
Qed.

(** ** The user upsert *)

Section UserUpsert.
Local Open Scope nat_scope.

Lemma find_head_filter {A} (p : A → bool) l :
  List.find p l = head (List.filter p l).
Proof. induction l as [|x l IH]; simpl; [done|]. by destruct (p x). Qed.

Lemma filter_updateFirst {A} (p : A → bool) (f : A → A) l :
  (∀ x, p x = true → p (f x) = true) →
  List.filter p (updateFirst p f l)
  = match List.filter p l with
    | [] => []
    | x :: rest => f x :: rest
    end.
Proof.
  intros Hf. induction l as [|y l IH]; simpl; [done|].
  destruct (p y) eqn:Hy; simpl.
  - by rewrite (Hf _ Hy).
  - by rewrite Hy.
Qed.

Lemma isUserRsvp_set e u st now r :
  isUserRsvp e u (setUserRsvp e u st now r) = true.
Proof. unfold isUserRsvp. simpl. by rewrite !Nat.eqb_refl. Qed.

(** After an upsert the pair has exactly the returned record, which
    carries the submitted status. *)
Lemma upsertUserRsvp_single s now e u st :
  length (List.filter (isUserRsvp e u) (rsvps s)) ≤ 1 →
  let out := upsertUserRsvp s now e u st in
  List.filter (isUserRsvp e u) (rsvps out.1) = [out.2]
  ∧ RSVP.status out.2 = st
  ∧ RSVP.eventId out.2 = e
  ∧ RSVP.userId out.2 = Some u
  ∧ events out.1 = events s.
Proof.
  intros Hlen. unfold upsertUserRsvp.
  rewrite find_head_filter.
  destruct (List.filter (isUserRsvp e u) (rsvps s)) as [|x rest] eqn:Hf;
    simpl.
  - rewrite List.filter_app, Hf. simpl.
    unfold isUserRsvp at 1. simpl. by rewrite !Nat.eqb_refl.
  - rewrite filter_updateFirst, Hf by (intros; apply isUserRsvp_set).
    destruct rest; [done|simpl in Hlen; lia].
Qed.

(** C4: two submissions by the same organizer for the same event of
    theirs both succeed whatever the attendance of the event; after the
    second, the pair (event, user) has exactly one response and it
    carries the status submitted last. *)
Theorem C4_user_upsert s now1 now2 caller e body1 body2 st1 st2 :
  isAdmin caller = true →
  is_Some (findOwnEvent s e (User._id caller)) →
  userIndexUnique (rsvps s) →
  rsvpSchema body1 = Some st1 →
  rsvpSchema body2 = Some st2 →
  let first := submitUserRSVP s now1 caller e body1 in
  let second := submitUserRSVP first.1 now2 caller e body2 in
  ∃ r1 r2,
    first.2 = UR_Ok (RSVP._id r1) e (Some (User._id caller)) st1
    ∧ second.2 = UR_Ok (RSVP._id r2) e (Some (User._id caller)) st2
    ∧ UserRsvpResponse_code second.2 = 200%Z
    ∧ List.filter (isUserRsvp e (User._id caller)) (rsvps first.1) = [r1]
    ∧ List.filter (isUserRsvp e (User._id caller)) (rsvps second.1) = [r2]
    ∧ RSVP.status r1 = st1
    ∧ RSVP.status r2 = st2
    ∧ RSVP._id r2 = RSVP._id r1.
Proof.
  intros Hadm [ev Hev] Huniq Hb1 Hb2 first second.
  pose proof (upsertUserRsvp_single s now1 e (User._id caller) st1
                (Huniq e (User._id caller))) as H1.
  simpl in H1. destruct H1 as (Hf1 & Hs1 & He1 & Hu1 & Hev1).
  assert (first = ((upsertUserRsvp s now1 e (User._id caller) st1).1,
                   UR_Ok (RSVP._id (upsertUserRsvp s now1 e (User._id caller) st1).2)
                         e (Some (User._id caller)) st1)) as Hfirst.
  { unfold first, submitUserRSVP. rewrite Hadm, Hb1, Hev. simpl.
    destruct (upsertUserRsvp s now1 e (User._id caller) st1) as [s1 r1].
    simpl in *. by rewrite Hs1, He1, Hu1. }
  set (s1 := (upsertUserRsvp s now1 e (User._id caller) st1).1) in *.
  set (r1 := (upsertUserRsvp s now1 e (User._id caller) st1).2) in *.
  assert (length (List.filter (isUserRsvp e (User._id caller)) (rsvps s1)) ≤ 1)
    as Hlen1 by (by rewrite Hf1).
  pose proof (upsertUserRsvp_single s1 now2 e (User._id caller) st2 Hlen1)
    as H2.
  simpl in H2. destruct H2 as (Hf2 & Hs2 & He2 & Hu2 & Hev2).
  assert (findOwnEvent s1 e (User._id caller) = Some ev) as Hev'.
  { unfold findOwnEvent. rewrite Hev1. exact Hev. }
  assert (second = ((upsertUserRsvp s1 now2 e (User._id caller) st2).1,
                    UR_Ok (RSVP._id (upsertUserRsvp s1 now2 e (User._id caller) st2).2)
                          e (Some (User._id caller)) st2)) as Hsecond.
  { unfold second. rewrite Hfirst. cbn [fst].
    unfold submitUserRSVP. rewrite Hadm, Hb2, Hev'. simpl.
    destruct (upsertUserRsvp s1 now2 e (User._id caller) st2) as [s2 r2].
    simpl in *. by rewrite Hs2, He2, Hu2. }
  exists r1, (upsertUserRsvp s1 now2 e (User._id caller) st2).2.
  rewrite Hsecond, Hfirst. cbn [fst snd].
  repeat (split; [done|]).
  unfold upsertUserRsvp. rewrite find_head_filter, Hf1. done.
Qed.
End UserUpsert.

Lemma userIndexUnique_no_user l :
  Forall (λ r, RSVP.userId r = None) l → userIndexUnique l.
Proof.
  intros H e u. induction H as [|r l Hr _ IH]; simpl; [lia|].
  unfold isUserRsvp at 1. rewrite Hr, andb_false_r. exact IH.
Qed.

(** The organizer of the overbooked sample event answers going, then
    maybe: both calls succeed although the event is over capacity. *)
Lemma C4_user_upsert_witness :
  let first := submitUserRSVP Sample.overbooked 8 Sample.admin 0%nat
                              (Sample.statusBody "going") in
  let second := submitUserRSVP first.1 9 Sample.admin 0%nat
                               (Sample.statusBody "maybe") in
  ∃ r1 r2,
    first.2 = UR_Ok (RSVP._id r1) 0%nat (Some 1%nat) Going
    ∧ second.2 = UR_Ok (RSVP._id r2) 0%nat (Some 1%nat) Maybe
    ∧ UserRsvpResponse_code second.2 = 200
    ∧ List.filter (isUserRsvp 0%nat 1%nat) (rsvps first.1) = [r1]
    ∧ List.filter (isUserRsvp 0%nat 1%nat) (rsvps second.1) = [r2]
    ∧ RSVP.status r1 = Going
    ∧ RSVP.status r2 = Maybe
    ∧ RSVP._id r2 = RSVP._id r1.
Proof.
  apply (C4_user_upsert Sample.overbooked 8 9 Sample.admin 0%nat
           (Sample.statusBody "going") (Sample.statusBody "maybe")
           Going Maybe).
  - reflexivity.
  - vm_compute. eauto.
  - apply userIndexUnique_no_user. vm_compute. repeat constructor.
  - reflexivity.
  - reflexivity.
Defined.

(** ** The identity binding of responses *)

Section IdentityBinding.
Variable rt : Runtime.

Lemma Forall_updateFirst {A} (P : A → Prop) (p : A → bool) (f : A → A) l :
  (∀ x, P x → p x = true → P (f x)) →
  Forall P l → Forall P (updateFirst p f l).
Proof.
  intros Hf H. induction H as [|x l Hx Hl IH]; simpl; [constructor|].
  destruct (p x) eqn:Hp; constructor; auto.
Qed.

Lemma identityBound_set e u st now r :
  identityBound r → isUserRsvp e u r = true →
  identityBound (setUserRsvp e u st now r).
Proof.
  unfold identityBound, isUserRsvp. intros [[_ Ht]|[Hu _]] Hp.
  - left. simpl. eauto.
  - rewrite Hu, andb_false_r in Hp. done.
Qed.

Lemma identityBound_new id e u st now :
  identityBound (newUserRsvp id e u st now).
Proof. left. simpl. eauto. Qed.

Lemma identityBound_rsvpData id tk v now :
  identityBound (rsvpData (trim rt) (toLowerCase rt) id tk v now).
Proof. right. simpl. eauto. Qed.

Lemma submitUserRSVP_identity s now caller e body :
  Forall identityBound (rsvps s) →
  Forall identityBound (rsvps (submitUserRSVP s now caller e body).1).
Proof.
  intros H. unfold submitUserRSVP.
  destruct (negb (isAdmin caller)); [done|].
  destruct (rsvpSchema body) as [st|]; [|done].
  destruct (findOwnEvent s e (User._id caller)); [|done].
  unfold upsertUserRsvp.
  destruct (List.find _ (rsvps s)); simpl.
  - apply Forall_updateFirst; [|done].
    intros x Hx Hp. by apply identityBound_set.
  - apply Forall_app. split; [done|].
    constructor; [apply identityBound_new|constructor].
Qed.

Lemma submitTokenRSVP_identity s now tok body :
  Forall identityBound (rsvps s) →
  Forall identityBound
    (rsvps (submitTokenRSVP (trim rt) (toLowerCase rt) s now tok body).1).
Proof.
  intros H.
  destruct (submitTokenRSVP (trim rt) (toLowerCase rt) s now tok body)
    as [s' resp] eqn:Hsub.
  apply submit_cases in Hsub
    as [(v & tk & ev & Hv & Htk & Hev & Hex & _ & Hc)|[Hs _]].
  - pose proof (createTokenRsvp_rsvps (trim rt) (toLowerCase rt) s now tk v)
      as H1.
    rewrite Hc in H1. simpl in *. rewrite H1. apply Forall_app.
    split; [done|].
    constructor; [apply identityBound_rsvpData|constructor].
  - apply (submit_refused _ _ body) in Hs as (Hr & _). simpl. by rewrite Hr.
Qed.

Lemma storeTokenRsvp_identity s now tk v :
  Forall identityBound (rsvps s) →
  Forall identityBound
    (rsvps (storeTokenRsvp (trim rt) (toLowerCase rt) s now tk v).1).
Proof.
  intros H.
  destruct (storeTokenRsvp_rsvps (trim rt) (toLowerCase rt) s now tk v)
    as [(_ & -> & _)|(_ & -> & _)];
    [done|].
  apply Forall_app. split; [done|].
  constructor; [apply identityBound_rsvpData|constructor].
Qed.

Lemma cleanupOrphaned_identity s caller :
  Forall identityBound (rsvps s) →
  Forall identityBound (rsvps (cleanupOrphaned s caller).1).
Proof.
  intros H. unfold cleanupOrphaned.
  destruct (negb (isAdmin caller)); [done|]. simpl.
  rewrite Forall_forall in *. intros r Hr%list_elem_of_In.
  apply filter_In in Hr as [Hr _]. apply H. by apply list_elem_of_In.
Qed.

Lemma createEvent_rsvps s now caller body :
  rsvps (createEvent (trim rt) (toLowerCase rt) (isEmail rt)
                     (isDatetime rt) (parseDate rt) s now caller body).1
  = rsvps s.
Proof. unfold createEvent. by repeat case_match. Qed.

Lemma updateEvent_rsvps s now caller id body :
  rsvps (updateEvent (trim rt) (toLowerCase rt) (isEmail rt)
                     (isDatetime rt) (parseDate rt) s now caller id body).1
  = rsvps s.
Proof. unfold updateEvent. by repeat case_match. Qed.

Lemma createToken_rsvps s now caller e body random transport :
  rsvps (createToken (trim rt) (toLowerCase rt) (isEmail rt) s now caller
                     e body random transport).1
  = rsvps s.
Proof.
  unfold createToken, sendEmail, isEmailServiceConfigured.
  repeat case_match; simplify_eq; done.
Qed.

Lemma handle_identity s now req :
  Forall identityBound (rsvps s) →
  Forall identityBound (rsvps (handle rt s now req)).
Proof.
  intros H. destruct req; simpl.
  - by rewrite createEvent_rsvps.
  - by rewrite updateEvent_rsvps.
  - by apply submitUserRSVP_identity.
  - by apply submitTokenRSVP_identity.
  - by rewrite createToken_rsvps.
  - by apply cleanupOrphaned_identity.
Qed.

Lemma run_invariant (P : State → Prop) :
  (∀ s now req, P s → P (handle rt s now req)) →
  ∀ trace s, P s → P (run rt s trace).
Proof.
  intros Hstep. unfold run.
  induction trace as [|[now req] trace IH]; intros s Hs; simpl; [done|].
  apply IH, Hstep, Hs.
Qed.

(** What holds of every state of a run holds of every state the server
    reaches when token submissions overlap with other requests, if the
    console and the writes of a waiting submission keep it. *)
Lemma interleave_invariant (P : State → Prop) :
  (∀ s now req, P s → P (handle rt s now req)) →
  (∀ s line, P s → P (console_error s line)) →
  (∀ s now tk v,
      P s → P (storeTokenRsvp (trim rt) (toLowerCase rt) s now tk v).1) →
  ∀ steps c, P c.1 → P (interleave rt c steps).1.
Proof.
  intros Hh Hc Hs. unfold interleave.
  induction steps as [|st steps IH]; intros c Hp; simpl; [done|].
  apply IH. destruct st as [now req|tok body|now i]; simpl.
  - by apply Hh.
  - destruct (tokenRsvpSchema body) as [v|]; simpl; [|by apply Hc].
    by destruct (admitTokenRsvp c.1 tok v).
  - destruct (c.2 !! i) as [[tk v]|]; simpl; [|done]. by apply Hs.
Qed.

Lemma elem_of_updateFirst {A} (p : A → bool) (f : A → A) l y :
  y ∈ updateFirst p f l →
  y ∈ l ∨ ∃ x, List.find p l = Some x ∧ y = f x.
Proof.
  induction l as [|x l IH]; simpl; [by left|].
  destruct (p x) eqn:Hp.
  - intros [->|Hy]%elem_of_cons; [right; eauto|left; by right].
  - intros [->|Hy]%elem_of_cons; [left; by left|].
    destruct (IH Hy) as [?|?]; [left; by right|by right].
Qed.

Lemma updateFirst_elem {A} (p : A → bool) (f : A → A) l x :
  List.find p l = Some x → f x ∈ updateFirst p f l.
Proof.
  induction l as [|y l IH]; simpl; [done|].
  destruct (p y) eqn:Hp.
  - intros [= ->]. by left.
  - intros H. right. by apply IH.
Qed.

(** What the user route writes: the response it answers with is stored,
    bound to the caller and to no token, and every other stored response
    was there before. *)
Lemma submitUserRSVP_written s now caller e body s' id e' u st :
  submitUserRSVP s now caller e body = (s', UR_Ok id e' u st) →
  Forall identityBound (rsvps s) →
  ∃ r, r ∈ rsvps s' ∧ RSVP._id r = id ∧ RSVP.eventId r = e
       ∧ RSVP.status r = st
       ∧ RSVP.userId r = Some (User._id caller) ∧ RSVP.tokenId r = None
       ∧ ∀ r', r' ∈ rsvps s' → r' = r ∨ r' ∈ rsvps s.
Proof.
  unfold submitUserRSVP.
  destruct (negb (isAdmin caller)); [done|].
  destruct (rsvpSchema body) as [st'|]; [|done].
  destruct (findOwnEvent s e (User._id caller)); [|done].
  unfold upsertUserRsvp.
  destruct (List.find _ (rsvps s)) as [old|] eqn:Hold; simpl.
  - intros [= <- <- <- <- <-] Hid.
    exists (setUserRsvp e (User._id caller) st' now old).
    split; [by apply updateFirst_elem|]. simpl.
    repeat (split; [done|]).
    pose proof Hold as Hf. apply find_some in Hold as [Hin Hp].
    rewrite Forall_forall in Hid.
    split.
    + destruct (Hid old) as [[_ ?]|[Hn _]]; [by apply list_elem_of_In|done|].
      unfold isUserRsvp in Hp. rewrite Hn, andb_false_r in Hp. done.
    + intros r' [?|(x & Hx & ->)]%elem_of_updateFirst; [by right|left].
      congruence.
  - intros [= <- <- <- <- <-] Hid.
    exists (newUserRsvp (nextId s) e (User._id caller) st' now).
    split; [apply elem_of_app; right; by left|]. simpl.
    repeat (split; [done|]).
    intros r' [?|Hr']%elem_of_app; [by right|left].
    by apply list_elem_of_singleton in Hr'.
Qed.

(** C3: the response the user route answers with is stored with the
    caller's user identifier and no token identifier; the response the
    token route answers with is the one document it adds, stored with the
    identifier of the token and no user identifier; every request keeps
    all stored responses bound to exactly one of the two, so this holds
    in every state the API reaches from an empty database, also when
    token submissions overlap with other requests. *)
Theorem C3_identity_binding :
  (∀ s now caller e body s' id e' u st,
      submitUserRSVP s now caller e body = (s', UR_Ok id e' u st) →
      Forall identityBound (rsvps s) →
      ∃ r, r ∈ rsvps s' ∧ RSVP._id r = id
           ∧ RSVP.userId r = Some (User._id caller) ∧ RSVP.tokenId r = None
           ∧ ∀ r', r' ∈ rsvps s' → r' = r ∨ r' ∈ rsvps s)
  ∧ (∀ s now tok body s' id st c total,
        submitTokenRSVP (trim rt) (toLowerCase rt) s now tok body
        = (s', TR_Created id st c total) →
        ∃ tk r, findToken s tok = Some tk
                ∧ rsvps s' = rsvps s ++ [r] ∧ RSVP._id r = id
                ∧ RSVP.eventId r = Token.eventId tk
                ∧ RSVP.userId r = None
                ∧ RSVP.tokenId r = Some (Token._id tk))
  ∧ (∀ s now req,
        Forall identityBound (rsvps s) →
        Forall identityBound (rsvps (handle rt s now req)))
  ∧ (∀ accounts configured trace,
        Forall identityBound
          (rsvps (run rt (initialState accounts configured) trace)))
  ∧ (∀ accounts configured steps,
        Forall identityBound
          (rsvps (interleave rt (initialState accounts configured, [])
                             steps).1)).
Proof.
  split; [|split; [|split; [apply handle_identity|split]]].
  - intros s now caller e body s' id e' u st H Hid.
    destruct (submitUserRSVP_written _ _ _ _ _ _ _ _ _ _ H Hid)
      as (r & Hin & Hrid & _ & _ & Hu & Ht & Hrest).
    exists r. by repeat (split; [done|]).
  - intros s now tok body s' id st c total H.
    apply submit_cases in H
      as [(v & tk & ev & Hv & Htk & Hev & Hex & _ & Hc)|[_ Hno]];
      [|exfalso; by eapply Hno].
    pose proof (createTokenRsvp_response (trim rt) (toLowerCase rt) s now tk v)
      as H2.
    pose proof (createTokenRsvp_rsvps (trim rt) (toLowerCase rt) s now tk v)
      as H1.
    rewrite Hc in H1, H2. cbn [fst snd] in H1, H2.
    injection H2 as -> -> -> ->.
    exists tk, (rsvpData (trim rt) (toLowerCase rt) (nextId s) tk v now).
    by repeat (split; [done|]).
  - intros accounts configured trace.
    apply (run_invariant (λ s, Forall identityBound (rsvps s)));
      [apply handle_identity|].
    constructor.
  - intros accounts configured steps.
    apply (interleave_invariant (λ s, Forall identityBound (rsvps s)));
      [apply handle_identity|done|apply storeTokenRsvp_identity|].
    constructor.
Qed.
End IdentityBinding.

(** The sample organizer answers for the overbooked event, and the third
    guest declines. *)
Lemma C3_identity_binding_witness :
  Forall identityBound (rsvps Sample.overbooked)
  ∧ (∃ r, r ∈ rsvps (submitUserRSVP Sample.overbooked 8 Sample.admin 0%nat
                                     (Sample.statusBody "going")).1
          ∧ RSVP._id r = 6%nat
          ∧ RSVP.userId r = Some 1%nat ∧ RSVP.tokenId r = None)
  ∧ Forall identityBound
      (rsvps (handle Sample.rt Sample.overbooked 8
                     (PostTokenRsvp "cc" (Sample.rsvpBody "not-going" 0)))).
Proof.
  assert (Forall identityBound (rsvps Sample.overbooked)) as H.
  { vm_compute.
    repeat (apply Forall_cons_2;
            [right; split; [reflexivity|eexists; reflexivity]|]).
    apply Forall_nil_2. }
  split; [exact H|].
  destruct (C3_identity_binding Sample.rt) as (Huser & _ & Hstep & _).
  split; [|apply Hstep; exact H].
  destruct (Huser Sample.overbooked 8 Sample.admin 0%nat
                  (Sample.statusBody "going")
                  (submitUserRSVP Sample.overbooked 8 Sample.admin 0%nat
                                  (Sample.statusBody "going")).1
                  6%nat 0%nat (Some 1%nat) Going)
    as (r & Hin & Hid & Hu & Ht & _); [vm_compute; reflexivity|exact H|].
  exists r. by repeat (split; [done|]).
Defined.

(** ** Invitation dispatch *)

Section Dispatch.
Variable trim : string -> string.
Variable toLowerCase : string -> string.
Variable isEmail : string -> bool.

(** C9: when the mail transport fails on a configured service, the
    token stays created, the request ends with 201 and the created
    token, and the failure is written to the console; the response
    carries [emailSent: true], the value of [isEmailServiceConfigured()],
    although no message was sent. *)
Theorem C9_dispatch_failure s now caller e body random email name :
  isAdmin caller = true →
  tokenSchema trim toLowerCase isEmail body = Some (email, name) →
  is_Some (findOwnEvent s e (User._id caller)) →
  existsb (λ t, String.eqb (Token.token t) random) (tokens s) = false →
  emailConfigured s = true →
  let out := createToken trim toLowerCase isEmail s now caller e body
                         random None in
  let tokenDoc := Token.mk (nextId s) e (trim (toLowerCase email))
                           (trim <$> name) random now now in
  out.2 = CT_Created (nextId s) (trim (toLowerCase email)) (trim <$> name)
                     random None true
  ∧ CreateTokenResponse_code out.2 = 201
  ∧ tokens out.1 = tokens s ++ [tokenDoc]
  ∧ console out.1 = console s ++ ["Failed to send invitation email:"]
  ∧ (sendEmail (bump_nextId (set_tokens s (tokens s ++ [tokenDoc]))) None).2
    = None.
Proof.
  intros Hadm Hbody [ev Hev] Hfresh Hcfg out tokenDoc.
  unfold out, createToken. rewrite Hadm, Hbody, Hev, Hfresh. simpl.
  unfold isEmailServiceConfigured, sendEmail, isEmailServiceConfigured.
  simpl. rewrite Hcfg. simpl. by rewrite Hcfg.
Qed.
End Dispatch.

(** A fourth invitation on the sample installation, with the transport
    down. *)
Lemma C9_dispatch_failure_witness :
  let out := createToken Sample.trim Sample.toLowerCase Sample.hasAt
                         Sample.overbooked 8 Sample.admin 0%nat
                         (Sample.inviteBody "Dee@Example.com") "dd" None in
  out.2 = CT_Created 6%nat "dee@example.com" None "dd" None true
  ∧ CreateTokenResponse_code out.2 = 201
  ∧ console out.1
    = console Sample.overbooked ++ ["Failed to send invitation email:"].
Proof.
  intros out.
  destruct (C9_dispatch_failure Sample.trim Sample.toLowerCase Sample.hasAt
              Sample.overbooked 8 Sample.admin 0%nat
              (Sample.inviteBody "Dee@Example.com") "dd"
              "dee@example.com" None)
    as (Hr & Hc & _ & Hlog & _);
    [vm_compute; reflexivity| vm_compute; reflexivity | vm_compute; eauto
    | vm_compute; reflexivity | vm_compute; reflexivity |].
  split; [|split; [exact Hc|exact Hlog]].
  etransitivity; [exact Hr|]. vm_compute. reflexivity.
Defined.

(** ** Event capacity *)

Lemma isInteger_spec q :
  isInteger q = true ↔ ∃ n : Z, (q == inject_Z n)%Q.
Proof.
  unfold isInteger. rewrite Pos.eqb_eq. split.
  - intros Hden. exists (Qnum (Qred q)).
    rewrite <- (Qred_correct q) at 1.
    destruct (Qred q) as [n d]. simpl in *. subst d. reflexivity.
  - intros [n Hn]. apply Qred_complete in Hn. rewrite Hn.
    rewrite Qred_identity; [done|]. simpl. apply Z.gcd_1_r.
Qed.

Lemma parse_capacity_spec v q :
  parse_capacity v = Some q ↔ v = Some (JNum q) ∧ integerAtLeast10 q.
Proof.
  unfold parse_capacity, integerAtLeast10. split.
  - destruct v as [[| |q'| |]|]; try done.
    destruct (isInteger q') eqn:Hi; [|done].
    destruct (Qle_bool 10 q') eqn:Hle; [|done].
    intros [= <-]. split; [done|].
    apply isInteger_spec in Hi as [n Hn]. exists n. split; [done|].
    apply Qle_bool_iff in Hle. rewrite Hn in Hle.
    change 10%Q with (inject_Z 10) in Hle. by rewrite Zle_Qle.
  - intros (-> & n & Hn & Hle).
    assert (isInteger q = true) as -> by (apply isInteger_spec; eauto).
    assert (Qle_bool 10 q = true) as ->; [|done].
    apply Qle_bool_iff. rewrite Hn.
    change 10%Q with (inject_Z 10). by rewrite <- Zle_Qle.
Qed.

Section EventCapacity.
Variable rt : Runtime.

Abbreviation schema :=
  (eventSchema (isEmail rt) (isDatetime rt)).
Abbreviation create :=
  (createEvent (trim rt) (toLowerCase rt) (isEmail rt) (isDatetime rt)
               (parseDate rt)).
Abbreviation update :=
  (updateEvent (trim rt) (toLowerCase rt) (isEmail rt) (isDatetime rt)
               (parseDate rt)).

Lemma eventSchema_capacity body v :
  schema body = Some v →
  parse_capacity (body !! "capacity") = Some (ei_capacity v).
Proof.
  unfold eventSchema. intros H.
  apply bind_Some in H as (title & _ & H).
  apply bind_Some in H as (description & _ & H).
  apply bind_Some in H as (date & _ & H).
  apply bind_Some in H as (location & _ & H).
  apply bind_Some in H as (category & _ & H).
  apply bind_Some in H as (capacity & Hcap & H).
  apply bind_Some in H as (allowed & _ & H).
  apply bind_Some in H as (hostName & _ & H).
  apply bind_Some in H as (hostMobile & _ & H).
  apply bind_Some in H as (hostEmail & _ & H).
  injection H as <-. exact Hcap.
Qed.

Lemma eventSchema_rejects body :
  ¬ capacityFieldOk (body !! "capacity") → schema body = None.
Proof.
  intros Hbad. destruct (schema body) as [v|] eqn:Hv; [|done].
  exfalso. apply Hbad. exists (ei_capacity v).
  by apply parse_capacity_spec, eventSchema_capacity.
Qed.

Lemma capacityOk_eventDoc body v id owner created now :
  schema body = Some v →
  capacityOk (eventDoc (trim rt) (toLowerCase rt) (parseDate rt) id owner v
                       created now).
Proof.
  intros Hv%eventSchema_capacity. by apply parse_capacity_spec in Hv as [_ ?].
Qed.

Lemma createEvent_capacity s now caller body :
  Forall capacityOk (events s) →
  Forall capacityOk (events (create s now caller body).1).
Proof.
  intros H. unfold createEvent.
  destruct (negb (isAdmin caller)); [done|].
  destruct (schema body) as [v|] eqn:Hv; [|done].
  destruct (_ <? now); [done|].
  destruct (requiredPresent _); [|done]. simpl.
  apply Forall_app. split; [done|].
  apply Forall_cons_2; [|apply Forall_nil_2].
  by eapply capacityOk_eventDoc.
Qed.

Lemma updateEvent_capacity s now caller id body :
  Forall capacityOk (events s) →
  Forall capacityOk (events (update s now caller id body).1).
Proof.
  intros H. unfold updateEvent.
  destruct (negb (isAdmin caller)); [done|].
  destruct (schema body) as [v|] eqn:Hv; [|done].
  destruct (_ <? now); [done|].
  destruct (findOwnEvent s id (User._id caller)) as [old|]; [|done].
  simpl. apply Forall_updateFirst; [|done].
  intros x _ _. by eapply capacityOk_eventDoc.
Qed.

Lemma submitUserRSVP_events s now caller e body :
  events (submitUserRSVP s now caller e body).1 = events s.
Proof.
  unfold submitUserRSVP, upsertUserRsvp. by repeat case_match; simplify_eq.
Qed.

Lemma submitTokenRSVP_events s now tok body :
  events (submitTokenRSVP (trim rt) (toLowerCase rt) s now tok body).1
  = events s.
Proof.
  destruct (submitTokenRSVP (trim rt) (toLowerCase rt) s now tok body)
    as [s' resp] eqn:Hsub.
  apply submit_cases in Hsub
    as [(v & tk & ev & _ & _ & _ & _ & _ & Hc)|[Hs _]].
  - pose proof (createTokenRsvp_events (trim rt) (toLowerCase rt) s now tk v)
      as H. by rewrite Hc in H.
  - by apply (submit_refused _ _ body) in Hs as (_ & _ & He & _).
Qed.

Lemma createToken_events s now caller e body random transport :
  events (createToken (trim rt) (toLowerCase rt) (isEmail rt) s now caller
                      e body random transport).1
  = events s.
Proof.
  unfold createToken, sendEmail, isEmailServiceConfigured.
  repeat case_match; simplify_eq; done.
Qed.

Lemma cleanupOrphaned_events s caller :
  events (cleanupOrphaned s caller).1 = events s.
Proof. unfold cleanupOrphaned. by case_match. Qed.

Lemma handle_capacity s now req :
  Forall capacityOk (events s) →
  Forall capacityOk (events (handle rt s now req)).
Proof.
  intros H. destruct req; simpl.
  - by apply createEvent_capacity.
  - by apply updateEvent_capacity.
  - by rewrite submitUserRSVP_events.
  - by rewrite submitTokenRSVP_events.
  - by rewrite createToken_events.
  - by rewrite cleanupOrphaned_events.
Qed.

(** C10: a request to create or update an event whose capacity is not
    an integer of at least 10 ends with a 400 validation error and no
    change, so every event stored through the API has an integer
    capacity of at least 10. *)
Theorem C10_capacity_at_least_10 :
  (∀ s now caller id body,
      isAdmin caller = true →
      ¬ capacityFieldOk (body !! "capacity") →
      create s now caller body = (s, EV_ValidationError)
      ∧ update s now caller id body = (s, EV_ValidationError)
      ∧ EventResponse_code EV_ValidationError = 400)
  ∧ (∀ s now caller id body ev,
        (create s now caller body).2 = EV_Created ev
        ∨ (update s now caller id body).2 = EV_Updated ev →
        capacityOk ev)
  ∧ (∀ s now req,
        Forall capacityOk (events s) →
        Forall capacityOk (events (handle rt s now req)))
  ∧ (∀ accounts configured trace,
        Forall capacityOk
          (events (run rt (initialState accounts configured) trace))).
Proof.
  split; [|split; [|split]].
  - intros s now caller id body Hadm Hbad.
    unfold createEvent, updateEvent.
    by rewrite Hadm, (eventSchema_rejects _ Hbad).
  - intros s now caller id body ev [H|H].
    + unfold createEvent in H.
      destruct (negb (isAdmin caller)); [done|].
      destruct (schema body) as [v|] eqn:Hv; [|done].
      destruct (_ <? now); [done|].
      destruct (requiredPresent _); [|done].
      injection H as <-. by eapply capacityOk_eventDoc.
    + unfold updateEvent in H.
      destruct (negb (isAdmin caller)); [done|].
      destruct (schema body) as [v|] eqn:Hv; [|done].
      destruct (_ <? now); [done|].
      destruct (findOwnEvent s id (User._id caller)) as [old|]; [|done].
      injection H as <-. by eapply capacityOk_eventDoc.
  - apply handle_capacity.
  - intros accounts configured trace.
    apply (run_invariant rt (λ s, Forall capacityOk (events s)));
      [apply handle_capacity|].
    apply Forall_nil_2.
Qed.
End EventCapacity.

(** Capacities 9 and 10.5 are refused, on creation and on update. *)
Lemma C10_capacity_at_least_10_witness :
  createEvent Sample.trim Sample.toLowerCase Sample.hasAt Sample.isDatetime
              Sample.parseDate Sample.overbooked 8 Sample.admin
              (Sample.eventBody 9)
  = (Sample.overbooked, EV_ValidationError)
  ∧ updateEvent Sample.trim Sample.toLowerCase Sample.hasAt Sample.isDatetime
                Sample.parseDate Sample.overbooked 8 Sample.admin 0%nat
                (Sample.eventBody (21 # 2))
    = (Sample.overbooked, EV_ValidationError)
  ∧ Forall capacityOk
      (events (handle Sample.rt Sample.overbooked 8
                      (PutEvent Sample.admin 0%nat (Sample.eventBody 30)))).
Proof.
  destruct (C10_capacity_at_least_10 Sample.rt) as (Hrej & _ & Hstep & _).
  assert (∀ q, ¬ integerAtLeast10 q →
               ¬ capacityFieldOk (Sample.eventBody q !! "capacity")) as Hfield.
  { intros q Hq (q' & Hq' & Hok). vm_compute in Hq'.
    injection Hq' as <-. done. }
  split; [|split].
  - apply (Hrej Sample.overbooked 8 Sample.admin 0%nat (Sample.eventBody 9));
      [reflexivity|].
    apply Hfield. intros (n & Hn & Hle).
    unfold Qeq in Hn. simpl in Hn. clear -Hn Hle. lia.
  - apply (Hrej Sample.overbooked 8 Sample.admin 0%nat
                (Sample.eventBody (21 # 2))); [reflexivity|].
    apply Hfield. intros (n & Hn & _).
    unfold Qeq in Hn. simpl in Hn. clear -Hn. lia.
  - apply Hstep.
    assert (events Sample.overbooked = [Sample.launch]) as ->
      by (vm_compute; reflexivity).
    apply Forall_cons_2; [|apply Forall_nil_2].
    exists 10. split; [reflexivity|]. clear. lia.
Defined.

(** ** The invitee list *)

Section InviteeList.
Variable regexTest : string -> string -> bool.
Variable regexValid : string -> bool.

Lemma js_Map_snoc `{Countable K} {V} (l : list (K * V)) kv :
  js_Map (l ++ [kv]) = <[kv.1 := kv.2]> (js_Map l).
Proof. unfold js_Map. by rewrite foldl_app. Qed.

Lemma js_Map_lookup_None `{Countable K} {V} (l : list (K * V)) k :
  js_Map l !! k = None ↔ k ∉ l.*1.
Proof.
  induction l as [|kv l IH] using rev_ind.
  - unfold js_Map. simpl. rewrite lookup_empty. set_solver.
  - rewrite js_Map_snoc, lookup_insert_None, IH, fmap_app.
    rewrite not_elem_of_app. simpl. set_solver.
Qed.

Lemma js_Map_lookup_Some `{Countable K} {V} (l : list (K * V)) k v :
  js_Map l !! k = Some v → (k, v) ∈ l.
Proof.
  induction l as [|kv l IH] using rev_ind.
  - unfold js_Map. simpl. by rewrite lookup_empty.
  - rewrite js_Map_snoc, lookup_insert_Some, elem_of_app.
    intros [[<- <-]|[_ Hl]]; [right|left; auto].
    destruct kv. set_solver.
Qed.

Lemma elem_of_List_filter {A} (p : A → bool) l x :
  x ∈ List.filter p l ↔ x ∈ l ∧ p x = true.
Proof. by rewrite !list_elem_of_In, filter_In. Qed.

Lemma rsvpEntries_key key l k :
  k ∈ (rsvpEntries key l).*1 ↔ ∃ r, r ∈ l ∧ key r = Some k.
Proof.
  unfold rsvpEntries. rewrite list_elem_of_fmap. split.
  - intros ([k' v] & -> & Hin). apply list_elem_of_omap in Hin as (r & Hr & Hk).
    exists r. split; [done|].
    destruct (key r); simplify_eq/=; done.
  - intros (r & Hr & Hk).
    exists (k, (RSVP.status r, companionsOrZero r)). split; [done|].
    apply list_elem_of_omap. exists r. split; [done|]. by rewrite Hk.
Qed.

Lemma rsvpEntries_elem key l k v :
  (k, v) ∈ rsvpEntries key l →
  ∃ r, r ∈ l ∧ key r = Some k ∧ v = (RSVP.status r, companionsOrZero r).
Proof.
  unfold rsvpEntries. intros (r & Hr & Hk)%list_elem_of_omap.
  exists r. split; [done|]. destruct (key r); simplify_eq/=; done.
Qed.

Lemma idIn_true ids o :
  idIn ids o = true ↔ ∃ i, o = Some i ∧ i ∈ ids.
Proof.
  unfold idIn. destruct o as [i|].
  - rewrite bool_decide_eq_true. naive_solver.
  - naive_solver.
Qed.

Lemma tokenMap_None s e all t :
  t ∈ all →
  tokenIdToRsvpMap s e all !! Token._id t = None
  ↔ ¬ ∃ r, r ∈ rsvps s ∧ RSVP.eventId r = e
           ∧ RSVP.tokenId r = Some (Token._id t).
Proof.
  intros Ht. unfold tokenIdToRsvpMap.
  rewrite js_Map_lookup_None, rsvpEntries_key. unfold tokenRsvps.
  split; intros Hno (r & Hr & H); apply Hno.
  - destruct H as [He Hid]. exists r. split; [|done].
    apply elem_of_List_filter. split; [done|].
    rewrite andb_true_iff, Nat.eqb_eq, idIn_true. split; [|done].
    exists (Token._id t). split; [done|]. by apply list_elem_of_fmap_2.
  - apply elem_of_List_filter in Hr as [Hr Hp].
    apply andb_true_iff in Hp as [_ He%Nat.eqb_eq]. by exists r.
Qed.

Lemma tokenMap_Some s e all id v :
  tokenIdToRsvpMap s e all !! id = Some v →
  ∃ r, r ∈ rsvps s ∧ RSVP.eventId r = e ∧ RSVP.tokenId r = Some id
       ∧ v = (RSVP.status r, companionsOrZero r).
Proof.
  intros (r & Hr & Hk & Hv)%js_Map_lookup_Some%rsvpEntries_elem.
  apply elem_of_List_filter in Hr as [Hr Hp].
  apply andb_true_iff in Hp as [_ He%Nat.eqb_eq]. by exists r.
Qed.

Lemma foundUsers_elem s all u :
  u ∈ foundUsers s all
  ↔ u ∈ users s ∧ ∃ t, t ∈ all ∧ Token.email t = User.email u.
Proof.
  unfold foundUsers. rewrite elem_of_List_filter, bool_decide_eq_true.
  rewrite list_elem_of_fmap. naive_solver.
Qed.

Lemma emailMap_None s all t :
  t ∈ all →
  emailToUserIdMap s all !! Token.email t = None
  ↔ ¬ ∃ u, u ∈ users s ∧ User.email u = Token.email t.
Proof.
  intros Ht. unfold emailToUserIdMap.
  rewrite js_Map_lookup_None, <- list_fmap_compose, list_elem_of_fmap.
  split; intros Hno.
  - intros (u & Hu & He). apply Hno. exists u. split; [done|].
    apply foundUsers_elem. eauto.
  - intros (u & He & Hu%foundUsers_elem). apply Hno. exists u.
    split; [tauto|done].
Qed.

Lemma emailMap_Some s all em uid :
  emailToUserIdMap s all !! em = Some uid →
  ∃ u, u ∈ foundUsers s all ∧ User.email u = em ∧ User._id u = uid.
Proof.
  intros (u & [= -> ->] & Hu)%js_Map_lookup_Some%list_elem_of_fmap.
  by exists u.
Qed.

Lemma userMap_None s e all u :
  u ∈ foundUsers s all →
  userIdToRsvpMap s e all !! User._id u = None
  ↔ ¬ ∃ r, r ∈ rsvps s ∧ RSVP.eventId r = e
           ∧ RSVP.userId r = Some (User._id u).
Proof.
  intros Hu. unfold userIdToRsvpMap.
  rewrite js_Map_lookup_None, rsvpEntries_key. unfold userRsvps.
  split; intros Hno (r & Hr & H); apply Hno.
  - destruct H as [He Hid]. exists r. split; [|done].
    apply elem_of_List_filter. split; [done|].
    rewrite andb_true_iff, Nat.eqb_eq, idIn_true. split; [done|].
    exists (User._id u). split; [done|]. by apply list_elem_of_fmap_2.
  - apply elem_of_List_filter in Hr as [Hr Hp].
    apply andb_true_iff in Hp as [He%Nat.eqb_eq _]. by exists r.
Qed.

Lemma userMap_Some s e all uid v :
  userIdToRsvpMap s e all !! uid = Some v →
  ∃ r, r ∈ rsvps s ∧ RSVP.eventId r = e ∧ RSVP.userId r = Some uid
       ∧ v = (RSVP.status r, companionsOrZero r).
Proof.
  intros (r & Hr & Hk & Hv)%js_Map_lookup_Some%rsvpEntries_elem.
  apply elem_of_List_filter in Hr as [Hr Hp].
  apply andb_true_iff in Hp as [He%Nat.eqb_eq _]. by exists r.
Qed.

Lemma NoDup_fmap_eq {A B} (f : A → B) l x y :
  NoDup (f <$> l) → x ∈ l → y ∈ l → f x = f y → x = y.
Proof.
  induction l as [|z l IH]; csimpl; [by intros _ ?%elem_of_nil|].
  rewrite NoDup_cons, !elem_of_cons, list_elem_of_fmap.
  intros [Hz Hnd] [->|Hx] [->|Hy] Heq; auto.
  - exfalso. apply Hz. eauto.
  - exfalso. apply Hz. exists x. split; [done|done].
Qed.

(** The row of a token shows no status exactly when neither map has an
    entry for it. *)
Lemma resolveToken_None m1 m2 m3 t :
  rsvpStatus (resolveToken m1 m2 m3 t) = None
  ↔ m3 !! Token._id t = None
    ∧ ∀ uid, m1 !! Token.email t = Some uid → m2 !! uid = None.
Proof.
  unfold resolveToken.
  destruct (m3 !! Token._id t) as [tr|]; simpl; [naive_solver|].
  destruct (m1 !! Token.email t) as [uid|]; simpl; [|naive_solver].
  destruct (m2 !! uid) as [ur|] eqn:Hur; simpl; naive_solver.
Qed.

Lemma resolveToken_pending_row m1 m2 m3 t :
  rsvpStatus (resolveToken m1 m2 m3 t) = None →
  resolveToken m1 m2 m3 t = inviteeOf t None 0%Q.
Proof.
  unfold resolveToken, inviteeOf.
  destruct (m3 !! Token._id t) as [tr|]; simpl; [done|].
  destruct (m1 !! Token.email t) as [uid|]; simpl; [|done].
  by destruct (m2 !! uid) as [ur|].
Qed.

(** The row of a token that has a token-bound response shows that
    response, whatever the account with the same address answered. *)
Lemma resolveToken_token_first m1 m2 m3 t st c :
  m3 !! Token._id t = Some (st, c) →
  resolveToken m1 m2 m3 t = inviteeOf t (Some st) c.
Proof. unfold resolveToken. by intros ->. Qed.

Lemma pending_correct s e all t :
  NoDup (User.email <$> users s) →
  t ∈ all →
  rsvpStatus (resolveToken (emailToUserIdMap s all) (userIdToRsvpMap s e all)
                           (tokenIdToRsvpMap s e all) t) = None
  ↔ pendingToken s e t.
Proof.
  intros Hnd Ht. rewrite resolveToken_None, (tokenMap_None s e all t Ht).
  unfold pendingToken. split; intros [Htok Huser]; (split; [done|]).
  - intros (u & r & Hu & Hr & Hem & He & Hid).
    assert (u ∈ foundUsers s all) as Hfound
      by (apply foundUsers_elem; eauto).
    destruct (emailToUserIdMap s all !! Token.email t) as [uid|] eqn:Hm.
    + destruct (emailMap_Some _ _ _ _ Hm) as (u' & Hu' & Hem' & <-).
      assert (u' = u) as ->.
      { apply (NoDup_fmap_eq User.email (users s)); [done| |done|congruence].
        by apply foundUsers_elem in Hu' as [? _]. }
      specialize (Huser _ eq_refl).
      apply (userMap_None s e all u Hfound) in Huser. apply Huser. eauto.
    + apply (emailMap_None s all t Ht) in Hm. apply Hm. eauto.
  - intros uid Hm.
    destruct (emailMap_Some _ _ _ _ Hm) as (u & Hu & Hem & <-).
    apply (userMap_None s e all u Hu). intros (r & Hr & He & Hid).
    apply Huser. exists u, r. apply foundUsers_elem in Hu as [Hu _]. done.
Qed.

Global Instance newerFirst_trans : Transitive newerFirst.
Proof. intros a b c. unfold newerFirst. lia. Qed.

Global Instance newerFirst_total : Total newerFirst.
Proof. intros a b. unfold newerFirst. lia. Qed.

Lemma StronglySorted_List_filter {A} (R : relation A) (p : A → bool) l :
  StronglySorted R l → StronglySorted R (List.filter p l).
Proof.
  induction 1 as [|x l Hl IH Hx]; simpl; [constructor|].
  destruct (p x); [|done]. constructor; [done|].
  rewrite Forall_forall in *. intros y [Hy _]%elem_of_List_filter. auto.
Qed.

Lemma allTokens_elem s e search t :
  t ∈ allTokens regexTest s e search
  ↔ t ∈ tokens s ∧ matchesSearch regexTest e search t = true.
Proof.
  unfold allTokens. by rewrite merge_sort_Permutation, elem_of_List_filter.
Qed.

Lemma allTokens_sorted s e search :
  StronglySorted newerFirst (allTokens regexTest s e search).
Proof. apply StronglySorted_merge_sort; apply _. Qed.

Lemma tokensWithStatus_sorted s e search :
  StronglySorted newerRow (tokensWithStatus regexTest s e search).
Proof.
  unfold tokensWithStatus.
  apply (StronglySorted_fmap _ newerFirst); [|apply allTokens_sorted].
  intros x y Hxy. unfold newerRow, resolveToken.
  by repeat case_match.
Qed.

Lemma matchesSearch_no_search e search t :
  truthy_str search = false →
  matchesSearch regexTest e search t = true ↔ Token.eventId t = e.
Proof.
  intros Hs. unfold matchesSearch.
  by rewrite Hs, andb_true_r, Nat.eqb_eq.
Qed.

Lemma js_slice_page {A} (l : list A) (skip limit : Z) :
  0 ≤ skip → 0 ≤ limit →
  js_slice l skip (skip + limit)
  = take (Z.to_nat limit) (drop (Z.to_nat skip) l).
Proof.
  intros Hs Hl. unfold js_slice.
  destruct (Z.ltb_spec skip 0); [lia|].
  destruct (Z.ltb_spec (skip + limit) 0); [lia|].
  destruct (Z.le_gt_cases skip (Z.of_nat (length l))) as [Hin|Hout].
  - rewrite (Z.min_l skip) by done.
    destruct (Z.le_gt_cases (skip + limit) (Z.of_nat (length l))).
    + rewrite Z.min_l by done. f_equal. lia.
    + rewrite Z.min_r by lia.
      rewrite !take_ge; [done| |]; rewrite length_drop; lia.
  - rewrite !Z.min_r by lia. rewrite Z.sub_diag.
    rewrite (drop_ge l (Z.to_nat skip)) by lia. by rewrite take_nil.
Qed.

(** C8: with the status filter "pending" the list is a page of the rows
    without a status; a row is among them exactly when its token belongs
    to the event (and matches the search, if any) and is pending: no
    response is bound to the token and none to the account with the
    token's address.  A token with a token-bound response shows that
    response.  Every row is a token of the event.  The rows are in order
    of creation, newest first, before and after the filter, and the page
    is cut from the filtered rows.  A search text that the database does
    not accept as a regular expression ends the request with 500. *)
Theorem C8_pending_invitees s caller e q :
  isAdmin caller = true →
  is_Some (findOwnEvent s e (User._id caller)) →
  NoDup (User.email <$> users s) →
  q_status q = Some "pending" →
  let resolved := tokensWithStatus regexTest s e (q_search q) in
  let pending :=
    List.filter (λ row, bool_decide (rsvpStatus row = None)) resolved in
  let page := parseIntOr (q_page q) 1 in
  let limit := parseIntOr (q_limit q) 10 in
  let skip := (page - 1) * limit in
  ((truthy_str (q_search q) = true →
    regexValid (default "" (q_search q)) = true) →
   listInvitees regexTest regexValid s caller e q
   = IV_Ok (js_slice pending skip (skip + limit))
           (mkPagination page limit (Z.of_nat (length pending))
                         (ceilDiv (Z.of_nat (length pending)) limit)))
  ∧ (truthy_str (q_search q) = true →
     regexValid (default "" (q_search q)) = false →
     listInvitees regexTest regexValid s caller e q = IV_ServerError)
  ∧ (1 ≤ page → 1 ≤ limit →
     js_slice pending skip (skip + limit)
     = take (Z.to_nat limit) (drop (Z.to_nat skip) pending))
  ∧ (∀ row, row ∈ pending ↔
            ∃ t, t ∈ tokens s
                 ∧ matchesSearch regexTest e (q_search q) t = true
                 ∧ pendingToken s e t
                 ∧ row = inviteeOf t None 0%Q)
  ∧ (∀ t, matchesSearch regexTest e (q_search q) t = true →
          Token.eventId t = e)
  ∧ (truthy_str (q_search q) = false →
     ∀ t, matchesSearch regexTest e (q_search q) t = true
          ↔ Token.eventId t = e)
  ∧ (∀ row, row ∈ resolved →
            ∃ t, t ∈ tokens s ∧ Token.eventId t = e
                 ∧ inv_id row = Token._id t ∧ inv_token row = Token.token t
                 ∧ inv_email row = Token.email t)
  ∧ StronglySorted newerRow resolved
  ∧ StronglySorted newerRow pending
  ∧ (∀ t r, t ∈ tokens s →
            matchesSearch regexTest e (q_search q) t = true →
            r ∈ rsvps s → RSVP.eventId r = e →
            RSVP.tokenId r = Some (Token._id t) →
            ∃ r', r' ∈ rsvps s ∧ RSVP.eventId r' = e
                  ∧ RSVP.tokenId r' = Some (Token._id t)
                  ∧ inviteeOf t (Some (RSVP.status r')) (companionsOrZero r')
                    ∈ resolved).
Proof.
  intros Hadm [ev Hev] Hnd Hq resolved pending page limit skip.
  assert (∀ t, matchesSearch regexTest e (q_search q) t = true →
               Token.eventId t = e) as Hevent.
  { intros t Hm. unfold matchesSearch in Hm.
    apply andb_true_iff in Hm as [Hm _]. by apply Nat.eqb_eq. }
  split.
  { intros Hok. unfold listInvitees. rewrite Hadm, Hev, Hq. simpl.
    destruct (truthy_str (q_search q)) eqn:Hs; simpl; [|reflexivity].
    by rewrite (Hok eq_refl). }
  split.
  { intros Hs Hbad. unfold listInvitees. rewrite Hadm, Hev. simpl.
    by rewrite Hs, Hbad. }
  split.
  { intros Hp Hl. apply js_slice_page; unfold skip; nia. }
  split.
  { intros row. unfold pending. rewrite elem_of_List_filter.
    rewrite bool_decide_eq_true. unfold resolved, tokensWithStatus.
    rewrite list_elem_of_fmap. split.
    - intros [(t & -> & Ht) Hnone].
      exists t. pose proof Ht as [Hin Hm]%allTokens_elem.
      split; [done|]. split; [done|]. split.
      + by apply (pending_correct s e _ t Hnd Ht).
      + by apply resolveToken_pending_row.
    - intros (t & Hin & Hm & Hpend & ->).
      assert (t ∈ allTokens regexTest s e (q_search q)) as Ht
        by (by apply allTokens_elem).
      apply (pending_correct s e _ t Hnd Ht) in Hpend.
      rewrite <- (resolveToken_pending_row _ _ _ _ Hpend).
      split; [by exists t|done]. }
  split; [exact Hevent|].
  split; [intros Hs t; by apply matchesSearch_no_search|].
  split.
  { intros row. unfold resolved, tokensWithStatus.
    intros (t & -> & [Hin Hm]%allTokens_elem)%list_elem_of_fmap.
    exists t. split; [done|]. split; [by apply Hevent|].
    unfold resolveToken. by repeat case_match. }
  split; [apply tokensWithStatus_sorted|].
  split; [apply StronglySorted_List_filter, tokensWithStatus_sorted|].
  intros t r Hin Hm Hr He Hid.
  assert (t ∈ allTokens regexTest s e (q_search q)) as Ht
    by (by apply allTokens_elem).
  set (all := allTokens regexTest s e (q_search q)) in *.
  destruct (tokenIdToRsvpMap s e all !! Token._id t) as [[st c]|] eqn:Hm3.
  - destruct (tokenMap_Some _ _ _ _ _ Hm3) as (r' & Hr' & He' & Hid' & [= -> ->]).
    exists r'. split; [done|]. split; [done|]. split; [done|].
    unfold resolved, tokensWithStatus. fold all.
    apply list_elem_of_fmap. exists t. split; [|done].
    symmetry. by apply resolveToken_token_first.
  - exfalso. apply (tokenMap_None s e all t Ht) in Hm3. apply Hm3. eauto.
Qed.
End InviteeList.

(** On the sample installation the pending invitees are the two guests
    who have not answered, the newest invitation first; a search for an
    opening parenthesis is answered with 500. *)
Lemma C8_pending_invitees_witness :
  NoDup (User.email <$> users Sample.mixed)
  ∧ (∃ rows pagination,
        listInvitees Sample.regexTest Sample.regexValid Sample.mixed
                     Sample.admin 0%nat Sample.pendingQuery
        = IV_Ok rows pagination
        ∧ inv_token <$> rows = ["zz"; "cc"]
        ∧ pg_total pagination = 2)
  ∧ listInvitees Sample.regexTest Sample.regexValid Sample.mixed
                 Sample.admin 0%nat
                 (mkQuery None None (Some "(") (Some "pending"))
    = IV_ServerError.
Proof.
  assert (NoDup (User.email <$> users Sample.mixed)) as Hnd.
  { assert (users Sample.mixed = [Sample.admin; Sample.guest]) as ->
      by (vm_compute; reflexivity).
    apply NoDup_cons_2; [|apply NoDup_singleton].
    rewrite list_elem_of_singleton. discriminate. }
  split; [exact Hnd|]. split.
  - destruct (C8_pending_invitees Sample.regexTest Sample.regexValid
                Sample.mixed Sample.admin 0%nat Sample.pendingQuery)
      as (Hresp & _);
      [vm_compute; reflexivity | vm_compute; eauto | exact Hnd
      | vm_compute; reflexivity |].
    eexists _, _. split; [apply Hresp; discriminate|].
    split; vm_compute; reflexivity.
  - destruct (C8_pending_invitees Sample.regexTest Sample.regexValid
                Sample.mixed Sample.admin 0%nat
                (mkQuery None None (Some "(") (Some "pending")))
      as (_ & Hbad & _);
      [vm_compute; reflexivity | vm_compute; eauto | exact Hnd
      | vm_compute; reflexivity |].
    apply Hbad; vm_compute; reflexivity.
Defined.

(** * Further properties of the handlers *)

(** ** Token admission: effect, capacity and read-back *)

Section AdmissionEffect.
Variable trim : string -> string.
Variable toLowerCase : string -> string.

Abbreviation submit := (submitTokenRSVP trim toLowerCase).
Abbreviation create := (createTokenRsvp trim toLowerCase).
Abbreviation store := (storeTokenRsvp trim toLowerCase).




Lemma currentAttendees_app_going s s' r :
  rsvps s' = rsvps s ++ [r] → RSVP.status r = Going →
  currentAttendees s' (RSVP.eventId r)
  = js_add (js_add (currentAttendees s (RSVP.eventId r)) 1)
           (companionsOrZero r).
Proof.
  intros Hr Hst. unfold currentAttendees. rewrite Hr, List.filter_app.
  simpl. unfold isGoingRsvp at 2.
  rewrite Nat.eqb_refl, (bool_decide_eq_true_2 _ Hst). simpl.
  apply reduceAttendees_snoc.
Qed.

Lemma currentAttendees_app_other s s' r e :
  rsvps s' = rsvps s ++ [r] → RSVP.eventId r ≠ e →
  currentAttendees s' e = currentAttendees s e.
Proof.
  intros Hr Hne. unfold currentAttendees. rewrite Hr, List.filter_app.
  simpl. unfold isGoingRsvp at 2.
  apply Nat.eqb_neq in Hne. rewrite Hne. simpl. by rewrite app_nil_r.
Qed.

Lemma admitTokenRsvp_passed s tok v tk :
  admitTokenRsvp s tok v = inr tk →
  ∃ ev, findToken s tok = Some tk
        ∧ findEventById s (Token.eventId tk) = Some ev
        ∧ List.find (isTokenRsvp (Token.eventId tk) (Token._id tk)) (rsvps s)
          = None
        ∧ (in_status v = Going →
           Qle_bool (js_add (currentAttendees s (Token.eventId tk))
                            (totalAttendeesOf v))
                    (Event.capacity ev) = true).
Proof.
  unfold admitTokenRsvp.
  destruct (findToken s tok) as [tk'|]; [|done].
  destruct (findEventById s (Token.eventId tk')) as [ev|] eqn:Hev; [|done].
  destruct (List.find _ (rsvps s)) as [ex|] eqn:Hex; [done|].
  destruct (bool_decide (in_status v = Going)) eqn:Hgo.
  - destruct (Qle_bool _ _) eqn:Hcap; simpl; [|done].
    intros [= <-]. exists ev. by repeat (split; [done|]).
  - intros [= <-]. exists ev. repeat (split; [done|]).
    intros Hst. by rewrite bool_decide_eq_true_2 in Hgo.
Qed.

(** An admitted going response does not take the event over the capacity
    the handler read, as long as no response for the event is admitted
    between its count and its insert and the counts are whole: the handler
    counts in the state [s0] and writes in the state [s1], in which the
    going responses of the event are still the ones it counted.  After the
    write the attendees counted for the event do not exceed the capacity;
    when the response was stored they are the ones counted plus the total
    reported to the guest; the count of every other event is as it was. *)
Theorem admission_within_capacity s0 s1 now tok v tk :
  admitTokenRsvp s0 tok v = inr tk →
  in_status v = Going →
  let e := Token.eventId tk in
  let counted := List.filter (isGoingRsvp e) (rsvps s0) in
  let out := store s1 now tk v in
  List.filter (isGoingRsvp e) (rsvps s1) = counted →
  Forall wholeCompanions counted →
  wholeCount (in_companions v) →
  6 * (Z.of_nat (length counted) + 1) ≤ 2 ^ 53 →
  ∃ ev,
    findEventById s0 e = Some ev
    ∧ (currentAttendees out.1 e <= Event.capacity ev)%Q
    ∧ (∀ id st c total,
          out.2 = TR_Created id st c total →
          (currentAttendees out.1 e == currentAttendees s0 e + total)%Q
          ∧ (total == 1 + in_companions v)%Q)
    ∧ ∀ e', e' ≠ e → currentAttendees out.1 e' = currentAttendees s1 e'.
Proof.
  intros Hadm Hst e counted out Hsame Hw (n & Hn & Hc) Hlen.
  destruct (admitTokenRsvp_passed _ _ _ _ Hadm)
    as (ev & Htk & Hev & Hex & Hcap).
  specialize (Hcap Hst). apply Qle_bool_iff in Hcap.
  destruct (reduceAttendees_whole counted Hw) as (k & Hk & Hred & _); [lia|].
  assert (currentAttendees s0 e = inject_Z k) as Hcur0 by exact Hred.
  assert (currentAttendees s1 e = inject_Z k) as Hcur1.
  { unfold currentAttendees. fold e. rewrite Hsame. exact Hred. }
  assert (totalAttendeesOf v = inject_Z (1 + n)) as Htot.
  { unfold totalAttendeesOf. rewrite (bool_decide_eq_true_2 _ Hst).
    apply js_add_whole; [lia|reflexivity|exact Hc]. }
  fold e in Hcap. rewrite Hcur0, Htot in Hcap.
  rewrite (js_add_whole k (1 + n)) in Hcap; [|lia|reflexivity|reflexivity].
  exists ev. split; [done|].
  set (r := rsvpData trim toLowerCase (nextId s1) tk v now).
  assert (RSVP.eventId r = e) as Hre by reflexivity.
  destruct (storeTokenRsvp_rsvps trim toLowerCase s1 now tk v)
    as [(Hresp & Hrs & _)|(Hout & Hrs & _)]; fold out in Hrs |- *.
  - assert (∀ e', currentAttendees out.1 e' = currentAttendees s1 e') as Hall.
    { intros e'. unfold currentAttendees. by rewrite Hrs. }
    split.
    { rewrite Hall, Hcur1. eapply Qle_trans; [|exact Hcap].
      rewrite <- Zle_Qle. lia. }
    split; [|by intros e' _].
    intros id st c total Hcr. fold out in Hresp. congruence.
  - fold r in Hrs.
    assert (currentAttendees out.1 e = inject_Z (k + 1 + n)) as Hnew.
    { rewrite <- Hre.
      rewrite (currentAttendees_app_going s1 out.1 r Hrs Hst), Hre, Hcur1.
      apply js_add_whole; [lia| |].
      - rewrite (js_add_whole k 1); [reflexivity|lia|reflexivity|reflexivity].
      - rewrite companionsOrZero_default. exact Hc. }
    split.
    { rewrite Hnew. eapply Qle_trans; [|exact Hcap].
      rewrite <- Zle_Qle. lia. }
    split.
    + intros id st c total Hcr. fold out in Hout.
      rewrite Hout, createTokenRsvp_response in Hcr.
      injection Hcr as _ _ _ <-.
      rewrite Hnew, Hcur0, Htot, Hc, !inject_Z_plus.
      change (inject_Z 1) with 1%Q. split; ring.
    + intros e' He'.
      apply (currentAttendees_app_other s1 out.1 r); [done|].
      by rewrite Hre.
Qed.

(** The status route reads back what the token route wrote: after an
    admitted submission it reports the submitted status, companions and
    preferences, the time of the submission, and the same total; before
    it, it reported no response. *)
Theorem status_after_submit s now tok body s' id st c total :
  submit s now tok body = (s', TR_Created id st c total) →
  ∃ v total',
    tokenRsvpSchema body = Some v
    ∧ tokenRsvpStatus s tok = TS_NotResponded
    ∧ tokenRsvpStatus s' tok
      = TS_Responded st c total' now (in_dietaryPreference v)
                     (in_companionDietaryPreference v)
    ∧ (total' == total)%Q.
Proof.
  intros [(v & tk & ev & Hv & Htk & Hev & Hex & _ & Hc)|[_ Hno]]%submit_cases;
    [|exfalso; by eapply Hno].
  pose proof (createTokenRsvp_response trim toLowerCase s now tk v) as H2.
  pose proof (createTokenRsvp_rsvps trim toLowerCase s now tk v) as H1.
  destruct (createTokenRsvp_token trim toLowerCase s now tk v tok Htk)
    as (tk' & H4 & Hid & He).
  rewrite Hc in H1, H2, H4. cbn [fst snd] in *.
  injection H2 as -> -> -> ->.
  set (r := rsvpData trim toLowerCase (nextId s) tk v now) in *.
  exists v, (if bool_decide (in_status v = Going)
             then js_add 1 (companionsOrZero r) else 0%Q).
  split; [done|]. split.
  { unfold tokenRsvpStatus. by rewrite Htk, Hex. }
  split.
  - unfold tokenRsvpStatus. rewrite H4, He, Hid, H1.
    erewrite find_app_none; [done|exact Hex|].
    unfold isTokenRsvp. simpl. by rewrite !Nat.eqb_refl.
  - unfold totalAttendeesOf. destruct (bool_decide (in_status v = Going));
      [|reflexivity].
    erewrite js_add_comp; [reflexivity|reflexivity|].
    apply (companionsOrZero_default r).
Qed.
End AdmissionEffect.


(** The first guest of the sample accepts with two companions; between
    the handler's reads and its writes the organizer invites one more
    guest: three attendees against a capacity of 20. *)
Lemma admission_within_capacity_witness :
  let later :=
    run Sample.rt Sample.invited
        [(5, PostToken Sample.admin 0%nat (Sample.inviteBody "dan@example.com")
                       "dd" (Some "m9"))] in
  let out := storeTokenRsvp Sample.trim Sample.toLowerCase later 6
                            Sample.tokenA
                            (mkTokenRsvpInput Going 2 None None None) in
  ∃ ev,
    findEventById Sample.invited 0%nat = Some ev
    ∧ (currentAttendees out.1 0%nat <= Event.capacity ev)%Q
    ∧ currentAttendees out.1 0%nat = 3%Q
    ∧ length (tokens out.1) = 4%nat.
Proof.
  intros later out.
  destruct (admission_within_capacity Sample.trim Sample.toLowerCase
              Sample.invited later 6 "aa"
              (mkTokenRsvpInput Going 2 None None None) Sample.tokenA)
    as (ev & Hev & Hle & _).
  - vm_compute. reflexivity.
  - reflexivity.
  - reflexivity.
  - vm_compute. apply Forall_nil_2.
  - exists 2. split; [lia|reflexivity].
  - vm_compute. discriminate.
  - exists ev. split; [exact Hev|]. split; [exact Hle|].
    split; vm_compute; reflexivity.
Defined.

(** Two guests who answer at the same time with five companions each are
    both admitted to an event of capacity 10: each passes the check on the
    empty list before the other has written. *)
Example overlapping_admissions_overshoot :
  let start :=
    run Sample.rt Sample.invited
        [(5, PutEvent Sample.admin 0%nat (Sample.eventBody 10))] in
  let after :=
    interleave Sample.rt (start, [])
      [Begin "aa" (Sample.rsvpBody "going" 5);
       Begin "bb" (Sample.rsvpBody "going" 5);
       Finish 6 0%nat; Finish 7 0%nat] in
  (Event.capacity <$> findEventById after.1 0%nat) = Some 10%Q
  ∧ currentAttendees after.1 0%nat = 12%Q
  ∧ after.2 = [].
Proof. vm_compute. repeat split. Qed.

Lemma status_after_submit_witness :
  ∃ v total',
    tokenRsvpSchema (Sample.rsvpBody "going" 2) = Some v
    ∧ tokenRsvpStatus Sample.invited "aa" = TS_NotResponded
    ∧ tokenRsvpStatus Scenario.roomy "aa"
      = TS_Responded Going (Some 2%Q) total' 5 (in_dietaryPreference v)
                     (in_companionDietaryPreference v)
    ∧ (total' == 3)%Q.
Proof.
  apply (status_after_submit Sample.trim Sample.toLowerCase Sample.invited 5
           "aa" (Sample.rsvpBody "going" 2) Scenario.roomy 4%nat Going
           (Some 2%Q) 3%Q).
  vm_compute. reflexivity.
Defined.

(** A second answer of the same guest, whatever it says. *)
Lemma submit_twice_witness :
  submitTokenRSVP Sample.trim Sample.toLowerCase Scenario.roomy 6 "aa"
                  (Sample.rsvpBody "not-going" 0)
  = (Scenario.roomy, TR_AlreadyResponded Going (Some 2%Q) 5).
Proof.
  apply (submit_twice Sample.trim Sample.toLowerCase Sample.invited 5 "aa"
           (Sample.rsvpBody "going" 2) Scenario.roomy 4%nat Going (Some 2%Q)
           3%Q 6 (Sample.rsvpBody "not-going" 0)
           (mkTokenRsvpInput NotGoing 0 None None None));
    vm_compute; reflexivity.
Defined.

(** ** What every reachable state satisfies *)

Section StoredData.
Variable rt : Runtime.
Local Open Scope nat_scope.

Lemma length_filter_snoc {A} (p : A → bool) l x :
  length (List.filter p (l ++ [x]))
  = length (List.filter p l) + (if p x then 1 else 0).
Proof.
  rewrite List.filter_app, length_app. simpl. by destruct (p x).
Qed.

Lemma filter_find_none {A} (p : A → bool) l :
  List.find p l = None → List.filter p l = [].
Proof.
  rewrite find_head_filter. by destruct (List.filter p l).
Qed.

Lemma length_filter_updateFirst {A} (q p : A → bool) (f : A → A) l :
  (∀ x, p x = true → q (f x) = q x) →
  length (List.filter q (updateFirst p f l)) = length (List.filter q l).
Proof.
  intros Hq. induction l as [|x l IH]; simpl; [done|].
  destruct (p x) eqn:Hp; simpl.
  - rewrite (Hq x Hp). by destruct (q x).
  - destruct (q x); simpl; by rewrite IH.
Qed.

Lemma length_filter_filter {A} (q p : A → bool) l :
  length (List.filter q (List.filter p l)) ≤ length (List.filter q l).
Proof.
  induction l as [|x l IH]; simpl; [done|].
  destruct (p x), (q x) eqn:Hq; simpl; rewrite ?Hq; simpl; lia.
Qed.

Lemma isUserRsvp_true e u r :
  isUserRsvp e u r = true ↔ RSVP.eventId r = e ∧ RSVP.userId r = Some u.
Proof.
  unfold isUserRsvp. rewrite andb_true_iff, Nat.eqb_eq.
  destruct (RSVP.userId r) as [u'|]; [rewrite Nat.eqb_eq|]; naive_solver.
Qed.

Lemma isTokenRsvp_true e t r :
  isTokenRsvp e t r = true ↔ RSVP.eventId r = e ∧ RSVP.tokenId r = Some t.
Proof.
  unfold isTokenRsvp. rewrite andb_true_iff, Nat.eqb_eq.
  destruct (RSVP.tokenId r) as [t'|]; [rewrite Nat.eqb_eq|]; naive_solver.
Qed.

Lemma upsertUserRsvp_indexes s now e u st :
  indexesUnique (rsvps s) →
  indexesUnique (rsvps (upsertUserRsvp s now e u st).1).
Proof.
  intros [Hu Ht]. unfold upsertUserRsvp.
  destruct (List.find _ (rsvps s)) as [old|] eqn:Hfind; simpl.
  - split; intros e' x'.
    + rewrite length_filter_updateFirst; [apply Hu|].
      intros x [<- Hx]%isUserRsvp_true. unfold isUserRsvp. simpl.
      by rewrite Hx.
    + rewrite length_filter_updateFirst; [apply Ht|].
      intros x [<- Hx]%isUserRsvp_true. by unfold isTokenRsvp.
  - apply filter_find_none in Hfind.
    split; intros e' x'; rewrite length_filter_snoc.
    + destruct (isUserRsvp e' x' _) eqn:Hnew.
      * apply isUserRsvp_true in Hnew as [<- [= <-]]. simpl.
        by rewrite Hfind.
      * specialize (Hu e' x'). lia.
    + unfold isTokenRsvp at 2. simpl. rewrite andb_false_r.
      specialize (Ht e' x'). lia.
Qed.

Lemma existsb_filter_nil {A} (p : A → bool) l :
  existsb p l = false → List.filter p l = [].
Proof.
  induction l as [|x l IH]; simpl; [done|].
  destruct (p x); [done|]. exact IH.
Qed.

(** The insert of the token route keeps both indexes in whatever state it
    takes place: a document that would be a second one for its token is
    refused. *)
Lemma storeTokenRsvp_indexes s now tk v :
  indexesUnique (rsvps s) →
  indexesUnique
    (rsvps (storeTokenRsvp (trim rt) (toLowerCase rt) s now tk v).1).
Proof.
  intros [Hu Ht].
  destruct (storeTokenRsvp_rsvps (trim rt) (toLowerCase rt) s now tk v)
    as [(_ & -> & _)|(_ & -> & Hd)]; [done|].
  unfold duplicateKey in Hd. simpl in Hd.
  apply existsb_filter_nil in Hd.
  split; intros e' x'; rewrite length_filter_snoc.
  - unfold isUserRsvp at 2. simpl. rewrite andb_false_r.
    specialize (Hu e' x'). lia.
  - destruct (isTokenRsvp e' x' _) eqn:Hnew.
    + apply isTokenRsvp_true in Hnew as [<- [= <-]]. simpl.
      by rewrite Hd.
    + specialize (Ht e' x'). lia.
Qed.

Lemma handle_indexes s now req :
  indexesUnique (rsvps s) → indexesUnique (rsvps (handle rt s now req)).
Proof.
  intros H. destruct req as [| |caller e body|tok body| |caller]; simpl.
  - by rewrite createEvent_rsvps.
  - by rewrite updateEvent_rsvps.
  - unfold submitUserRSVP.
    destruct (negb (isAdmin caller)); [done|].
    destruct (rsvpSchema body) as [st|]; [|done].
    destruct (findOwnEvent s e (User._id caller)); [|done].
    pose proof (upsertUserRsvp_indexes s now e (User._id caller) st H).
    by destruct (upsertUserRsvp s now e (User._id caller) st).
  - destruct (submitTokenRSVP (trim rt) (toLowerCase rt) s now tok body)
      as [s' resp] eqn:Hsub.
    apply submit_cases in Hsub
      as [(v & tk & ev & Hv & Htk & Hev & Hex & _ & Hc)|[Hs _]].
    2:{ apply (submit_refused _ _ body) in Hs as (Hr & _). simpl.
        by rewrite Hr. }
    rewrite <- (storeTokenRsvp_fresh _ _ _ _ _ _ Hex) in Hc.
    pose proof (storeTokenRsvp_indexes s now tk v H) as Hi.
    by rewrite Hc in Hi.
  - by rewrite createToken_rsvps.
  - unfold cleanupOrphaned. destruct (negb (isAdmin caller)); [done|].
    simpl. destruct H as [Hu Ht].
    split; intros e' x'; (etransitivity; [apply length_filter_filter|]);
      [apply Hu|apply Ht].
Qed.

(** Requests served one at a time are the overlapping ones in which
    nothing waits. *)
Lemma interleave_Whole trace : ∀ s waiting,
  interleave rt (s, waiting) ((λ x, Whole x.1 x.2) <$> trace)
  = (run rt s trace, waiting).
Proof.
  unfold interleave, run.
  induction trace as [|[now req] trace IH]; intros s waiting; simpl; [done|].
  apply IH.
Qed.

(** Both unique indexes of the RSVP collection hold in every state the
    server reaches from an empty database, also when token submissions
    overlap with each other and with other requests: there is at most one
    response per (event, user) and at most one per (event, token).  The
    upsert replaces the response of its user, and the insert of a waiting
    submission whose token has been answered in the meantime is refused by
    the index and answered with 500, leaving the responses as they are. *)
Theorem reachable_indexes_unique :
  (∀ accounts configured steps,
      let final :=
        (interleave rt (initialState accounts configured, []) steps).1 in
      userIndexUnique (rsvps final) ∧ tokenIndexUnique (rsvps final))
  ∧ (∀ accounts configured trace,
        indexesUnique (rsvps (run rt (initialState accounts configured) trace)))
  ∧ (∀ s now tk v ex,
        List.find (isTokenRsvp (Token.eventId tk) (Token._id tk)) (rsvps s)
        = Some ex →
        let out := storeTokenRsvp (trim rt) (toLowerCase rt) s now tk v in
        out.2 = TR_ServerError ∧ rsvps out.1 = rsvps s
        ∧ tokens out.1 = tokens s).
Proof.
  split; [|split].
  - intros accounts configured steps.
    apply (interleave_invariant rt (λ s, indexesUnique (rsvps s)));
      [apply handle_indexes|done|apply storeTokenRsvp_indexes|].
    split; intros e x; simpl; lia.
  - intros accounts configured trace.
    apply (run_invariant rt (λ s, indexesUnique (rsvps s)));
      [apply handle_indexes|].
    split; intros e x; simpl; lia.
  - intros s now tk v ex Hex. unfold storeTokenRsvp, duplicateKey. simpl.
    assert (existsb (isTokenRsvp (Token.eventId tk) (Token._id tk)) (rsvps s)
            = true) as ->.
    { apply existsb_exists. exists ex. by apply find_some in Hex. }
    done.
Qed.

Lemma tokenRsvpSchema_companions body v :
  tokenRsvpSchema body = Some v →
  (0 <= in_companions v)%Q ∧ (in_companions v <= 5)%Q.
Proof.
  unfold tokenRsvpSchema. intros H.
  apply bind_Some in H as (st & _ & H).
  apply bind_Some in H as (c & Hc & H).
  apply bind_Some in H as (g & _ & H).
  apply bind_Some in H as (d & _ & H).
  apply bind_Some in H as (cd & _ & H).
  injection H as <-. simpl. by eapply parse_companions_range.
Qed.

Lemma handle_soundRsvp s now req :
  Forall soundRsvp (rsvps s) → Forall soundRsvp (rsvps (handle rt s now req)).
Proof.
  intros H. destruct req as [| |caller e body|tok body| |caller]; simpl.
  - by rewrite createEvent_rsvps.
  - by rewrite updateEvent_rsvps.
  - unfold submitUserRSVP.
    destruct (negb (isAdmin caller)); [done|].
    destruct (rsvpSchema body) as [st|]; [|done].
    destruct (findOwnEvent s e (User._id caller)); [|done].
    unfold upsertUserRsvp. destruct (List.find _ (rsvps s)); simpl.
    + apply Forall_updateFirst; [|done].
      intros x [Hid [Hc Hm]] Hp. split; [by apply identityBound_set|].
      split; [done|]. simpl. intros Htok.
      apply isUserRsvp_true in Hp as [_ Hu].
      destruct Hid as [[_ Hnone]|[Hnone _]]; [|congruence].
      rewrite Hnone in Htok. by destruct Htok.
    + apply Forall_app. split; [done|].
      apply Forall_cons_2; [|apply Forall_nil_2].
      split; [apply identityBound_new|]. split.
      * exists 0%Q. simpl. repeat split; [lra|lra].
      * simpl. intros [? ?]. done.
  - destruct (submitTokenRSVP (trim rt) (toLowerCase rt) s now tok body)
      as [s' resp] eqn:Hsub.
    apply submit_cases in Hsub
      as [(v & tk & ev & Hv & Htk & Hev & Hex & _ & Hc)|[Hs _]].
    2:{ apply (submit_refused _ _ body) in Hs as (Hr & _). simpl.
        by rewrite Hr. }
    pose proof (createTokenRsvp_rsvps (trim rt) (toLowerCase rt) s now tk v)
      as H1.
    rewrite Hc in H1. simpl in *. rewrite H1.
    apply Forall_app. split; [done|].
    apply Forall_cons_2; [|apply Forall_nil_2].
    split; [apply identityBound_rsvpData|]. split.
    + exists (in_companions v). split; [done|].
      by apply tokenRsvpSchema_companions in Hv.
    + simpl. intros _.
      destruct (tokenRsvpSchema_status _ _ Hv) as [->| ->]; done.
  - by rewrite createToken_rsvps.
  - unfold cleanupOrphaned. destruct (negb (isAdmin caller)); [done|].
    simpl. rewrite Forall_forall in *.
    intros r [Hr _]%elem_of_List_filter. by apply H.
Qed.

(** Every response stored in a reachable state has a companion count
    between 0 and 5, and a response bound to a token is never a
    "maybe". *)
Theorem reachable_rsvps_well_formed accounts configured trace :
  Forall rsvpWellFormed
         (rsvps (run rt (initialState accounts configured) trace)).
Proof.
  apply (Forall_impl soundRsvp); [|by intros r [_ Hr]].
  apply (run_invariant rt (λ s, Forall soundRsvp (rsvps s)));
    [apply handle_soundRsvp|].
  apply Forall_nil_2.
Qed.
End StoredData.

(** The first guest of the sample sends the same answer twice at the same
    time: both submissions pass the look-up, the first insert stores the
    response, the second is refused by the index. *)
Lemma reachable_indexes_unique_witness :
  let v := mkTokenRsvpInput Going 2 None None None in
  let after :=
    interleave Sample.rt (Sample.invited, [])
      [Begin "aa" (Sample.rsvpBody "going" 2);
       Begin "aa" (Sample.rsvpBody "going" 2); Finish 5 0%nat] in
  let out := storeTokenRsvp Sample.trim Sample.toLowerCase after.1 6
                            Sample.tokenA v in
  after.2 = [(Sample.tokenA, v)]
  ∧ out.2 = TR_ServerError
  ∧ rsvps out.1 = rsvps after.1
  ∧ length (rsvps out.1) = 1%nat.
Proof.
  intros v after out.
  split; [vm_compute; reflexivity|].
  destruct (reachable_indexes_unique Sample.rt) as (_ & _ & H).
  destruct (H after.1 6 Sample.tokenA v
              (RSVP.mk 4%nat 0%nat None (Some 1%nat) Going (Some 2%Q) None
                       (Some "ann@example.com") None None 5 5))
    as (Hresp & Hrs & _); [vm_compute; reflexivity|].
  split; [exact Hresp|]. split; [exact Hrs|].
  vm_compute. reflexivity.
Defined.

(** ** Events and invitations: effect and read-back *)

Section EventsAndTokens.
Variable rt : Runtime.

Abbreviation createEv :=
  (createEvent (trim rt) (toLowerCase rt) (isEmail rt) (isDatetime rt)
               (parseDate rt)).
Abbreviation updateEv :=
  (updateEvent (trim rt) (toLowerCase rt) (isEmail rt) (isDatetime rt)
               (parseDate rt)).
Abbreviation invite :=
  (createToken (trim rt) (toLowerCase rt) (isEmail rt)).
Abbreviation docOf :=
  (eventDoc (trim rt) (toLowerCase rt) (parseDate rt)).

(** Case analysis of the handler, for the proofs below. *)
Lemma createEvent_cases s now caller body s' resp :
  createEv s now caller body = (s', resp) →
  (∃ v ev,
      eventSchema (isEmail rt) (isDatetime rt) body = Some v
      ∧ isAdmin caller = true
      ∧ ev = docOf (nextId s) (User._id caller) v now now
      ∧ resp = EV_Created ev
      ∧ now ≤ Event.date ev
      ∧ Event.createdBy ev = User._id caller
      ∧ events s' = events s ++ [ev]
      ∧ tokens s' = tokens s ∧ rsvps s' = rsvps s ∧ users s' = users s
      ∧ nextId s' = S (nextId s))
  ∨ (s' = s ∧ EventResponse_code resp ≠ 201).
Proof.
  unfold createEvent. intros H.
  destruct (isAdmin caller) eqn:Hadm; simpl in H;
    [|right; by simplify_eq].
  destruct (eventSchema _ _ body) as [v|] eqn:Hv; [|right; by simplify_eq].
  destruct (Z.ltb_spec (parseDate rt (ei_date v)) now) as [Hpast|Hok];
    [right; by simplify_eq|].
  destruct (requiredPresent _) eqn:Hreq; [|right; by simplify_eq].
  left. injection H as <- <-. exists v, (docOf (nextId s) (User._id caller) v now now).
  by repeat (split; [done|]).
Qed.

(** Creating an event either appends exactly one event, owned by the
    caller, stamped with the request time and dated no earlier than it,
    or changes nothing; in particular a valid body with a date in the past
    is refused. *)
Theorem createEvent_effect s now caller body s' resp :
  createEv s now caller body = (s', resp) →
  (∃ v ev,
      eventSchema (isEmail rt) (isDatetime rt) body = Some v
      ∧ isAdmin caller = true
      ∧ ev = docOf (nextId s) (User._id caller) v now now
      ∧ resp = EV_Created ev
      ∧ now ≤ Event.date ev
      ∧ Event.createdBy ev = User._id caller
      ∧ events s' = events s ++ [ev]
      ∧ tokens s' = tokens s ∧ rsvps s' = rsvps s ∧ users s' = users s
      ∧ nextId s' = S (nextId s))
  ∨ (s' = s ∧ EventResponse_code resp ≠ 201).
Proof.
  intros H. apply createEvent_cases in H as [(v & ev & Hfacts)|Hsame].
  - left. exists v, ev. exact Hfacts.
  - right. exact Hsame.
Qed.


Lemma find_updateFirst_same {A} (p : A → bool) (f : A → A) l x :
  List.find p l = Some x → p (f x) = true →
  List.find p (updateFirst p f l) = Some (f x).
Proof.
  induction l as [|y l IH]; simpl; [done|].
  destruct (p y) eqn:Hy; simpl.
  - intros [= ->] ->. done.
  - rewrite Hy. exact IH.
Qed.

Lemma fmap_updateFirst {A B} (g : A → B) (p : A → bool) (f : A → A) l :
  (∀ x, p x = true → g (f x) = g x) →
  g <$> updateFirst p f l = g <$> l.
Proof.
  intros Hg. induction l as [|y l IH]; csimpl; [done|].
  destruct (p y) eqn:Hy; csimpl; [by rewrite (Hg y Hy)|by rewrite IH].
Qed.

Lemma findOwnEvent_Some s id owner ev :
  findOwnEvent s id owner = Some ev →
  ev ∈ events s ∧ Event._id ev = id ∧ Event.createdBy ev = owner.
Proof.
  unfold findOwnEvent. intros [Hin Hp]%find_some.
  apply andb_true_iff in Hp as [?%Nat.eqb_eq ?%Nat.eqb_eq].
  by rewrite list_elem_of_In.
Qed.

(** Case analysis of the handler, for the proofs below. *)
Lemma updateEvent_updated s now caller id body s' ev :
  updateEv s now caller id body = (s', EV_Updated ev) →
  ∃ v old,
    eventSchema (isEmail rt) (isDatetime rt) body = Some v
    ∧ findOwnEvent s id (User._id caller) = Some old
    ∧ ev = docOf id (User._id caller) v (Event.createdAt old) now
    ∧ now ≤ Event.date ev
    ∧ Event._id <$> events s' = Event._id <$> events s
    ∧ Event.createdBy <$> events s' = Event.createdBy <$> events s
    ∧ Event.createdAt <$> events s' = Event.createdAt <$> events s
    ∧ rsvps s' = rsvps s ∧ tokens s' = tokens s ∧ users s' = users s
    ∧ nextId s' = nextId s
    ∧ findOwnEvent s' id (User._id caller) = Some ev.
Proof.
  unfold updateEvent. intros H.
  destruct (isAdmin caller) eqn:Hadm; simpl in H; [|done].
  destruct (eventSchema _ _ body) as [v|] eqn:Hv; [|done].
  destruct (Z.ltb_spec (parseDate rt (ei_date v)) now) as [Hpast|Hok];
    [done|].
  destruct (findOwnEvent s id (User._id caller)) as [old|] eqn:Hold; [|done].
  destruct (findOwnEvent_Some _ _ _ _ Hold) as (Hin & Hid & Hown).
  injection H as <- <-. exists v, old. rewrite Hid, Hown.
  set (p := λ e, Nat.eqb (Event._id e) id
                 && Nat.eqb (Event.createdBy e) (User._id caller)).
  assert (∀ x, p x = true →
               Event._id x = id ∧ Event.createdBy x = User._id caller) as Hp.
  { intros x [?%Nat.eqb_eq ?%Nat.eqb_eq]%andb_true_iff. done. }
  repeat (split; [done|]). simpl.
  split; [apply fmap_updateFirst; intros x Hx; by destruct (Hp x Hx)|].
  split; [apply fmap_updateFirst; intros x Hx; by destruct (Hp x Hx)|].
  split.
  { clear Hin. unfold findOwnEvent in Hold. fold p in Hold.
    induction (events s) as [|y l IH]; csimpl; [done|].
    simpl in Hold. destruct (p y) eqn:Hy; csimpl.
    - by injection Hold as ->.
    - f_equal. by apply IH. }
  repeat (split; [done|]).
  unfold findOwnEvent. simpl. fold p.
  apply (find_updateFirst_same p (λ _, docOf id (User._id caller) v
                                          (Event.createdAt old) now)
                               (events s) old Hold).
  unfold p. simpl. by rewrite !Nat.eqb_refl.
Qed.

(** Updating an event replaces its editable fields only: the identifier,
    the owner and the creation time stay, the list of event identifiers
    and owners is as before, responses and invitations are untouched (so
    admitted guests stay admitted when the capacity is lowered), and the
    owner reads back the updated event. *)
Theorem updateEvent_effect s now caller id body s' ev :
  updateEv s now caller id body = (s', EV_Updated ev) →
  ∃ v old,
    eventSchema (isEmail rt) (isDatetime rt) body = Some v
    ∧ findOwnEvent s id (User._id caller) = Some old
    ∧ ev = docOf id (User._id caller) v (Event.createdAt old) now
    ∧ now ≤ Event.date ev
    ∧ Event._id <$> events s' = Event._id <$> events s
    ∧ Event.createdBy <$> events s' = Event.createdBy <$> events s
    ∧ Event.createdAt <$> events s' = Event.createdAt <$> events s
    ∧ rsvps s' = rsvps s ∧ tokens s' = tokens s ∧ users s' = users s
    ∧ nextId s' = nextId s
    ∧ findOwnEvent s' id (User._id caller) = Some ev.
Proof.
  intros H. apply updateEvent_updated in H as (v & old & Hfacts).
  exists v, old. exact Hfacts.
Qed.


Lemma existsb_find_none {A} (p : A → bool) l :
  existsb p l = false → List.find p l = None.
Proof.
  induction l as [|x l IH]; simpl; [done|].
  destruct (p x); simpl; [done|exact IH].
Qed.

(** Case analysis of the handler, for the proofs below. *)
Lemma createToken_cases s now caller e body random transport s' resp :
  invite s now caller e body random transport = (s', resp) →
  (∃ email name ev tokenDoc,
      tokenSchema (trim rt) (toLowerCase rt) (isEmail rt) body
      = Some (email, name)
      ∧ findOwnEvent s e (User._id caller) = Some ev
      ∧ tokenDoc = Token.mk (nextId s) e (trim rt (toLowerCase rt email))
                            (trim rt <$> name) random now now
      ∧ resp = CT_Created (nextId s) (Token.email tokenDoc)
                          (Token.name tokenDoc) random None
                          (emailConfigured s)
      ∧ tokens s' = tokens s ++ [tokenDoc]
      ∧ events s' = events s ∧ rsvps s' = rsvps s ∧ users s' = users s
      ∧ nextId s' = S (nextId s)
      ∧ findToken s random = None
      ∧ findToken s' random = Some tokenDoc)
  ∨ (s' = s ∧ CreateTokenResponse_code resp ≠ 201).
Proof.
  unfold createToken. intros H.
  destruct (isAdmin caller) eqn:Hadm; simpl in H;
    [|right; by simplify_eq].
  destruct (tokenSchema _ _ _ body) as [[email name]|] eqn:Hv;
    [|right; by simplify_eq].
  destruct (findOwnEvent s e (User._id caller)) as [ev|] eqn:Hev;
    [|right; by simplify_eq].
  destruct (existsb _ (tokens s)) eqn:Hfresh; [right; by simplify_eq|].
  apply existsb_find_none in Hfresh.
  left. exists email, name, ev.
  eexists. split; [done|]. split; [done|]. split; [reflexivity|].
  unfold isEmailServiceConfigured, sendEmail, isEmailServiceConfigured in H.
  simpl in H.
  assert (∀ s0, tokens s0 = tokens s ++
                  [Token.mk (nextId s) e (trim rt (toLowerCase rt email))
                            (trim rt <$> name) random now now] →
                findToken s0 random
                = Some (Token.mk (nextId s) e (trim rt (toLowerCase rt email))
                                 (trim rt <$> name) random now now)) as Hfind.
  { intros s0 Hs0. unfold findToken. rewrite Hs0.
    apply find_app_none; [exact Hfresh|]. simpl. apply String.eqb_refl. }
  destruct (emailConfigured s) eqn:Hcfg; simpl in H.
  - destruct transport as [mid|]; simpl in H; injection H as <- <-; simpl;
      rewrite ?Hcfg; repeat (split; [done|]); by apply Hfind.
  - injection H as <- <-. simpl. rewrite ?Hcfg.
    repeat (split; [done|]). by apply Hfind.
Qed.

(** Creating an invitation either appends exactly one token, bound to the
    event and carrying the normalized address and the fresh secret, which
    then resolves to that token, or changes nothing.  The stored token and
    the [emailSent] flag of the answer are the same whatever the mail
    transport does. *)
Theorem createToken_effect s now caller e body random transport s' resp :
  invite s now caller e body random transport = (s', resp) →
  (∃ email name ev tokenDoc,
      tokenSchema (trim rt) (toLowerCase rt) (isEmail rt) body
      = Some (email, name)
      ∧ findOwnEvent s e (User._id caller) = Some ev
      ∧ tokenDoc = Token.mk (nextId s) e (trim rt (toLowerCase rt email))
                            (trim rt <$> name) random now now
      ∧ resp = CT_Created (nextId s) (Token.email tokenDoc)
                          (Token.name tokenDoc) random None
                          (emailConfigured s)
      ∧ tokens s' = tokens s ++ [tokenDoc]
      ∧ events s' = events s ∧ rsvps s' = rsvps s ∧ users s' = users s
      ∧ nextId s' = S (nextId s)
      ∧ findToken s random = None
      ∧ findToken s' random = Some tokenDoc)
  ∨ (s' = s ∧ CreateTokenResponse_code resp ≠ 201).
Proof.
  intros H.
  apply createToken_cases in H as [(email & name & ev & doc & Hfacts)|Hsame].
  - left. exists email, name, ev, doc. exact Hfacts.
  - right. exact Hsame.
Qed.


(** A fresh invitation can be opened: when event identifiers are unique,
    the public route resolves the new secret to the event the token was
    created for, with the address and name stored on the token, and the
    status route reports no response as long as none is bound to the new
    token. *)
Theorem createToken_lookup s now caller e body random transport s' id email
    name sent :
  NoDup (Event._id <$> events s) →
  invite s now caller e body random transport
  = (s', CT_Created id email name random None sent) →
  ∃ ev,
    findOwnEvent s e (User._id caller) = Some ev
    ∧ eventByToken s' random = ET_Ok (eventView ev) email name
    ∧ ((∀ r, r ∈ rsvps s → RSVP.tokenId r ≠ Some id) →
       tokenRsvpStatus s' random = TS_NotResponded).
Proof.
  intros Hnd [(email' & name' & ev & doc & Hv & Hev & -> & Hresp & Htok & Hevs
               & Hrs & _ & _ & _ & Hfind)|[_ Hcode]]%createToken_cases;
    [|by simpl in Hcode].
  injection Hresp as -> -> -> ->. exists ev. split; [done|].
  destruct (findOwnEvent_Some _ _ _ _ Hev) as (Hin & Hid & _).
  split.
  - unfold eventByToken. rewrite Hfind. simpl.
    unfold findEventById. rewrite Hevs.
    destruct (List.find _ (events s)) as [ev'|] eqn:Hev'.
    + apply find_some in Hev' as [Hin' Hid'%Nat.eqb_eq].
      assert (ev' = ev) as ->; [|done].
      apply (NoDup_fmap_eq Event._id (events s)); [done| |done|congruence].
      by apply list_elem_of_In.
    + exfalso. eapply find_none in Hev'; [|by apply list_elem_of_In].
      simpl in Hev'. apply Nat.eqb_neq in Hev'. done.
  - intros Hnone. unfold tokenRsvpStatus. rewrite Hfind. simpl. rewrite Hrs.
    destruct (List.find _ (rsvps s)) as [r|] eqn:Hr; [|done].
    apply find_some in Hr as [Hin' [_ Ht]%isTokenRsvp_true].
    exfalso. eapply Hnone; [by apply list_elem_of_In|done].
Qed.
End EventsAndTokens.

Lemma createEvent_effect_witness :
  let out := createEvent Sample.trim Sample.toLowerCase Sample.hasAt
                         Sample.isDatetime Sample.parseDate Sample.overbooked
                         8 Sample.admin (Sample.eventBody 30) in
  length (events out.1) = 2%nat ∧ rsvps out.1 = rsvps Sample.overbooked.
Proof.
  intros out.
  destruct (createEvent_effect Sample.rt Sample.overbooked 8 Sample.admin
              (Sample.eventBody 30) out.1 out.2)
    as [(v & ev & _ & _ & _ & _ & _ & _ & Hevs & _ & Hrs & _)|[_ Hcode]];
    [vm_compute; reflexivity| |exfalso; apply Hcode; vm_compute; reflexivity].
  split; [|exact Hrs]. rewrite Hevs, length_app. vm_compute. reflexivity.
Defined.

(** Lowering the capacity to 10 after a guest with two companions has
    been admitted. *)
Lemma updateEvent_effect_witness :
  let out := updateEvent Sample.trim Sample.toLowerCase Sample.hasAt
                         Sample.isDatetime Sample.parseDate Scenario.roomy 7
                         Sample.admin 0%nat (Sample.eventBody 10) in
  rsvps out.1 = rsvps Scenario.roomy
  ∧ findOwnEvent out.1 0%nat (User._id Sample.admin) = Some Sample.launch.
Proof.
  intros out.
  destruct (updateEvent_effect Sample.rt Scenario.roomy 7 Sample.admin 0%nat
              (Sample.eventBody 10) out.1 Sample.launch)
    as (v & old & _ & _ & _ & _ & _ & _ & _ & Hrs & _ & _ & _ & Hfind);
    [vm_compute; reflexivity|].
  split; [exact Hrs|exact Hfind].
Defined.

Lemma createToken_effect_witness :
  let out := createToken Sample.trim Sample.toLowerCase Sample.hasAt
                         Sample.overbooked 8 Sample.admin 0%nat
                         (Sample.inviteBody "Dee@Example.com") "dd" None in
  length (tokens out.1) = 4%nat
  ∧ is_Some (findToken out.1 "dd")
  ∧ findToken Sample.overbooked "dd" = None.
Proof.
  intros out.
  destruct (createToken_effect Sample.rt Sample.overbooked 8 Sample.admin
              0%nat (Sample.inviteBody "Dee@Example.com") "dd" None
              out.1 out.2)
    as [(email & name & ev & doc & _ & _ & _ & _ & Htok & _ & _ & _ & _
         & Hold & Hnew)|[_ Hcode]];
    [vm_compute; reflexivity| |exfalso; apply Hcode; vm_compute; reflexivity].
  split; [|split; [by rewrite Hnew|exact Hold]].
  rewrite Htok, length_app. vm_compute. reflexivity.
Defined.

Lemma createToken_lookup_witness :
  let out := createToken Sample.trim Sample.toLowerCase Sample.hasAt
                         Sample.overbooked 8 Sample.admin 0%nat
                         (Sample.inviteBody "Dee@Example.com") "dd" None in
  ∃ ev,
    findOwnEvent Sample.overbooked 0%nat (User._id Sample.admin) = Some ev
    ∧ eventByToken out.1 "dd" = ET_Ok (eventView ev) "dee@example.com" None
    ∧ ((∀ r, r ∈ rsvps Sample.overbooked → RSVP.tokenId r ≠ Some 6%nat) →
       tokenRsvpStatus out.1 "dd" = TS_NotResponded).
Proof.
  intros out.
  apply (createToken_lookup Sample.rt Sample.overbooked 8 Sample.admin 0%nat
           (Sample.inviteBody "Dee@Example.com") "dd" None out.1 6%nat
           "dee@example.com" None true).
  - assert (events Sample.overbooked = [Sample.launch]) as ->
      by (vm_compute; reflexivity).
    apply NoDup_singleton.
  - vm_compute. reflexivity.
Defined.

(** ** Invitation secrets *)

Section Secrets.
Variable rt : Runtime.
Local Open Scope nat_scope.

Lemma createTokenRsvp_token_fields s now tk v :
  Token._id <$> tokens (createTokenRsvp (trim rt) (toLowerCase rt) s now tk v).1
  = Token._id <$> tokens s
  ∧ Token.token <$> tokens (createTokenRsvp (trim rt) (toLowerCase rt) s now tk v).1
    = Token.token <$> tokens s.
Proof.
  unfold createTokenRsvp. simpl.
  destruct (in_guestName v) as [g|]; [|done].
  destruct (negb (String.eqb g "") && negb (String.eqb (trim rt g) ""));
    [|done].
  simpl. unfold setTokenName. by rewrite !fmap_updateFirst.
Qed.

Lemma updateEvent_cases s now caller id body :
  let out := updateEvent (trim rt) (toLowerCase rt) (isEmail rt)
                         (isDatetime rt) (parseDate rt) s now caller id body in
  (∃ ev, out.2 = EV_Updated ev) ∨ out.1 = s.
Proof.
  unfold updateEvent. repeat case_match; simpl; eauto.
Qed.

Lemma handle_secretsUnique s now req :
  secretsUnique s → secretsUnique (handle rt s now req).
Proof.
  unfold secretsUnique. intros H.
  destruct req as [caller body|caller id body|caller e body|tok body
                  |caller e body random transport|caller]; simpl.
  - destruct (createEvent _ _ _ _ _ s now caller body) as [s' resp] eqn:Hc.
    apply createEvent_cases in Hc
      as [(v & ev & _ & _ & _ & _ & _ & _ & _ & Htok & _)|[-> _]]; [|done].
    simpl. by rewrite Htok.
  - pose proof (updateEvent_cases s now caller id body) as Hcase.
    destruct (updateEvent _ _ _ _ _ s now caller id body) as [s' resp] eqn:Hu.
    simpl in *. destruct Hcase as [[ev ->]| ->]; [|done].
    apply updateEvent_updated in Hu
      as (v & old & _ & _ & _ & _ & _ & _ & _ & _ & Htok & _).
    by rewrite Htok.
  - unfold submitUserRSVP, upsertUserRsvp. by repeat case_match; simplify_eq.
  - destruct (submitTokenRSVP (trim rt) (toLowerCase rt) s now tok body)
      as [s' resp] eqn:Hsub.
    apply submit_cases in Hsub
      as [(v & tk & ev & Hv & Htk & Hev & Hex & _ & Hc)|[Hs _]].
    2:{ apply (submit_refused _ _ body) in Hs as (_ & Ht & _). simpl.
        by rewrite Ht. }
    pose proof (createTokenRsvp_token_fields s now tk v) as [_ H4].
    rewrite Hc in H4. simpl in *. by rewrite H4.
  - destruct (createToken _ _ _ s now caller e body random transport)
      as [s' resp] eqn:Hc.
    apply createToken_cases in Hc
      as [(email & name & ev & doc & _ & _ & -> & _ & Htok & _ & _ & _
           & _ & Hnone & _)|[-> _]]; [|done].
    simpl. rewrite Htok, fmap_app. simpl.
    apply NoDup_app. split; [done|]. split; [|apply NoDup_singleton].
    intros secret (t & -> & Ht)%list_elem_of_fmap Heq%list_elem_of_singleton.
    unfold findToken in Hnone.
    eapply find_none in Hnone; [|by apply list_elem_of_In].
    simpl in Hnone. by rewrite Heq, String.eqb_refl in Hnone.
  - unfold cleanupOrphaned. by destruct (negb (isAdmin caller)).
Qed.

(** Invitation secrets never collide: in every reachable state no two
    tokens carry the same secret, so a secret resolves to at most one
    invitation. *)
Theorem reachable_secrets_unique accounts configured trace :
  secretsUnique (run rt (initialState accounts configured) trace).
Proof.
  apply (run_invariant rt secretsUnique); [apply handle_secretsUnique|].
  apply NoDup_nil_2.
Qed.
End Secrets.

(** ** Who may change what *)

Section Guards.
Variable rt : Runtime.
Variable regexTest : string -> string -> bool.
Variable regexValid : string -> bool.
Variable dbSum : list Q -> Q.

(** A caller without the admin role changes nothing through the admin
    routes and reads nothing through them: every such request is answered
    as forbidden and leaves the state as it was. *)
Theorem admin_routes_guarded s now req caller :
  requestCaller req = Some caller →
  isAdmin caller = false →
  handle rt s now req = s
  ∧ (∀ e, dietaryStats s caller e = DS_Forbidden)
  ∧ (∀ e q, listInvitees regexTest regexValid s caller e q = IV_Forbidden)
  ∧ (∀ e, getUserRsvp s caller e = GR_Forbidden)
  ∧ (∀ e, allRsvps s caller e = AR_Forbidden)
  ∧ listEvents dbSum s caller = EL_Forbidden.
Proof.
  intros Hc Hadm. split.
  - destruct req; simpl in *; simplify_eq;
      unfold createEvent, updateEvent, submitUserRSVP, createToken,
             cleanupOrphaned; by rewrite Hadm.
  - unfold dietaryStats, listInvitees, getUserRsvp, allRsvps, listEvents.
    by rewrite Hadm.
Qed.

(** An organizer cannot touch an event of somebody else: an update, an
    RSVP or an invitation addressed to an event the caller does not own
    leaves the state as it was. *)
Theorem foreign_event_untouched s now req caller e :
  requestCaller req = Some caller →
  requestEvent req = Some e →
  findOwnEvent s e (User._id caller) = None →
  handle rt s now req = s
  ∧ (isAdmin caller = true →
     dietaryStats s caller e = DS_EventNotFound
     ∧ getUserRsvp s caller e = GR_EventNotFound
     ∧ allRsvps s caller e = AR_EventNotFound
     ∧ ∀ q, listInvitees regexTest regexValid s caller e q
            = IV_EventNotFound).
Proof.
  intros Hc He Hnone. split.
  - destruct req; simpl in *; simplify_eq;
      unfold updateEvent, submitUserRSVP, createToken; rewrite Hnone;
      by repeat case_match.
  - intros Hadm.
    unfold dietaryStats, getUserRsvp, allRsvps, listInvitees.
    by rewrite Hadm, Hnone.
Qed.

Lemma length_filter_split {A} (p q : A → bool) l :
  (∀ x, q x = negb (p x)) →
  (length (List.filter p l) + length (List.filter q l) = length l)%nat.
Proof.
  intros Hq. induction l as [|x l IH]; simpl; [done|].
  rewrite Hq. destruct (p x); simpl; lia.
Qed.

Lemma filter_filter_same {A} (p : A → bool) l :
  List.filter p (List.filter p l) = List.filter p l.
Proof.
  induction l as [|x l IH]; simpl; [done|].
  destruct (p x) eqn:Hp; simpl; [rewrite Hp|]; by rewrite ?IH.
Qed.

(** The clean-up route deletes every response that has no user
    identifier, that is, every answer given through an invitation link:
    the count it reports is the number of those, the responses bound to
    accounts stay, afterwards every invitation reads as unanswered, and a
    second clean-up finds nothing to delete. *)
Theorem cleanupOrphaned_effect s caller :
  isAdmin caller = true →
  Forall identityBound (rsvps s) →
  let out := cleanupOrphaned s caller in
  out.2 = CL_Ok (length (List.filter (λ r, bool_decide (RSVP.userId r = None))
                                     (rsvps s)))
  ∧ (∀ r, r ∈ rsvps out.1 ↔ r ∈ rsvps s ∧ is_Some (RSVP.userId r))
  ∧ (∀ r, r ∈ rsvps out.1 → RSVP.tokenId r = None)
  ∧ (∀ tok, tokenRsvpStatus out.1 tok = TS_NotResponded
            ∨ tokenRsvpStatus out.1 tok = TS_InvalidToken)
  ∧ tokens out.1 = tokens s ∧ events out.1 = events s
  ∧ cleanupOrphaned out.1 caller = (out.1, CL_Ok 0).
Proof.
  intros Hadm Hid out. unfold out, cleanupOrphaned. rewrite Hadm. simpl.
  set (keep := λ r : RSVP.t, bool_decide (is_Some (RSVP.userId r))).
  assert (∀ r, r ∈ List.filter keep (rsvps s) → RSVP.tokenId r = None) as Hno.
  { intros r [Hr Hk]%elem_of_List_filter. unfold keep in Hk.
    apply bool_decide_eq_true in Hk.
    rewrite Forall_forall in Hid. destruct (Hid r Hr) as [[_ ?]|[Hn _]];
      [done|]. rewrite Hn in Hk. by destruct Hk. }
  split.
  { f_equal.
    pose proof (length_filter_split keep
                  (λ r, bool_decide (RSVP.userId r = None)) (rsvps s)) as Hs.
    rewrite <- Hs; [lia|].
    intros r. unfold keep. destruct (RSVP.userId r) as [u|].
    - rewrite (bool_decide_eq_false_2 (Some u = None)) by done.
      by rewrite (bool_decide_eq_true_2 (is_Some (Some u))) by eauto.
    - rewrite (bool_decide_eq_false_2 (is_Some None)) by (by intros [? ?]).
      by rewrite (bool_decide_eq_true_2 (None = None)). }
  split.
  { intros r. rewrite elem_of_List_filter. unfold keep.
    by rewrite bool_decide_eq_true. }
  split; [exact Hno|]. split.
  { intros tok. unfold tokenRsvpStatus, findToken. simpl.
    destruct (List.find _ (tokens s)) as [tk|]; [|by right]. left.
    destruct (List.find _ (List.filter keep (rsvps s))) as [r|] eqn:Hr;
      [|done].
    apply find_some in Hr as [Hin [_ Ht]%isTokenRsvp_true].
    apply list_elem_of_In, Hno in Hin. congruence. }
  split; [done|]. split; [done|].
  fold keep. rewrite filter_filter_same. unfold set_rsvps. simpl.
  f_equal. f_equal. lia.
Qed.
End Guards.

(** The guest account of the sample is not an admin. *)
Lemma admin_routes_guarded_witness :
  handle Sample.rt Sample.overbooked 8
         (PutEvent Sample.guest 0%nat (Sample.eventBody 30))
  = Sample.overbooked
  ∧ listEvents Sample.dbSum Sample.overbooked Sample.guest = EL_Forbidden.
Proof.
  destruct (admin_routes_guarded Sample.rt Sample.regexTest Sample.regexValid
              Sample.dbSum Sample.overbooked
              8 (PutEvent Sample.guest 0%nat (Sample.eventBody 30))
              Sample.guest) as (H & _ & _ & _ & _ & Hl);
    [reflexivity|reflexivity|].
  split; [exact H|exact Hl].
Defined.

(** Another organizer invites somebody to the sample event. *)
Lemma foreign_event_untouched_witness :
  handle Sample.rt Sample.overbooked 8
         (PostToken Scenario.stranger 0%nat (Sample.inviteBody "x@example.com")
                    "xx" None)
  = Sample.overbooked.
Proof.
  apply (foreign_event_untouched Sample.rt Sample.regexTest Sample.regexValid
           Sample.overbooked 8 _ Scenario.stranger 0%nat);
    [reflexivity|reflexivity|].
  vm_compute. reflexivity.
Defined.

(** After the clean-up only the organizer's own answer is left. *)
Lemma cleanupOrphaned_effect_witness :
  (cleanupOrphaned Sample.mixed Sample.admin).2 = CL_Ok 2
  ∧ tokenRsvpStatus (cleanupOrphaned Sample.mixed Sample.admin).1 "aa"
    = TS_NotResponded.
Proof.
  destruct (cleanupOrphaned_effect Sample.mixed Sample.admin)
    as (Hn & _ & _ & Hst & _); [reflexivity| |].
  - assert (rsvps Sample.mixed
            = [Sample.rsvpA;
               RSVP.mk 5%nat 0%nat None (Some 2%nat) Going (Some 5%Q) None
                       (Some "bob@example.com") None None 6 6;
               RSVP.mk 7%nat 0%nat (Some 1%nat) None Maybe (Some 0%Q) None
                       None None None 9 9]) as ->
      by (vm_compute; reflexivity).
    repeat apply Forall_cons_2; try apply Forall_nil_2;
      [right|right|left]; split; simpl; eauto.
  - split.
    + etransitivity; [exact Hn|]. vm_compute. reflexivity.
    + destruct (Hst "aa") as [H|H]; [exact H|].
      vm_compute in H. discriminate.
Defined.

(** ** Guest names and the organizer's own answer *)

Section ReadBack.
Variable trim : string -> string.
Variable toLowerCase : string -> string.

Lemma find_updateFirst_unique {A} (q p : A → bool) (f : A → A) l x :
  List.find q l = Some x →
  p x = true →
  (∀ y, y ∈ l → p y = true → y = x) →
  (∀ y, q (f y) = q y) →
  List.find q (updateFirst p f l) = Some (f x).
Proof.
  intros Hfind Hpx Huniq Hq.
  induction l as [|y l IH]; simpl in *; [done|].
  destruct (p y) eqn:Hpy; simpl.
  - assert (y = x) as -> by (apply Huniq; [left|done]).
    rewrite Hq. destruct (q x) eqn:Hqx; [done|].
    apply find_some in Hfind as [_ Hqx']. congruence.
  - destruct (q y) eqn:Hqy.
    + injection Hfind as ->. congruence.
    + apply IH; [done|]. intros z Hz. apply Huniq. by right.
Qed.

(** A guest who signs with a name renames the invitation: after an
    admitted submission the token that the secret resolves to carries the
    trimmed name the guest gave, unless that name is empty or blank, in
    which case it keeps its own; its identifier, event and address stay.
    The stored response carries the trimmed name given, or else the
    token's, and the normalized address of the token. *)
Theorem guestName_propagates s now tok body s' id st c total :
  NoDup (Token._id <$> tokens s) →
  submitTokenRSVP trim toLowerCase s now tok body
  = (s', TR_Created id st c total) →
  ∃ v tk tk' r,
    tokenRsvpSchema body = Some v
    ∧ findToken s tok = Some tk
    ∧ findToken s' tok = Some tk'
    ∧ Token.name tk'
      = match in_guestName v with
        | Some g => if negb (String.eqb g "")
                       && negb (String.eqb (trim g) "")
                    then Some (trim g) else Token.name tk
        | None => Token.name tk
        end
    ∧ Token._id tk' = Token._id tk
    ∧ Token.eventId tk' = Token.eventId tk
    ∧ Token.email tk' = Token.email tk
    ∧ rsvps s' = rsvps s ++ [r]
    ∧ RSVP.guestName r
      = trim <$> (if truthy_str (in_guestName v) then in_guestName v
                  else Token.name tk)
    ∧ RSVP.guestEmail r = Some (trim (toLowerCase (Token.email tk))).
Proof.
  intros Hnd [(v & tk & ev & Hv & Htk & Hev & Hex & _ & Hc)|[_ Hno]]%submit_cases;
    [|exfalso; by eapply Hno].
  pose proof (createTokenRsvp_rsvps trim toLowerCase s now tk v) as H1.
  rewrite Hc in H1. cbn [fst] in H1.
  assert (∃ tk', findToken s' tok = Some tk'
                 ∧ Token.name tk'
                   = match in_guestName v with
                     | Some g => if negb (String.eqb g "")
                                    && negb (String.eqb (trim g) "")
                                 then Some (trim g) else Token.name tk
                     | None => Token.name tk
                     end
                 ∧ Token._id tk' = Token._id tk
                 ∧ Token.eventId tk' = Token.eventId tk
                 ∧ Token.email tk' = Token.email tk) as (tk' & ? & ? & ? & ? & ?).
  { apply (f_equal fst) in Hc. unfold createTokenRsvp in Hc. simpl in Hc.
    destruct (in_guestName v) as [g|]; [|subst s'; by exists tk].
    destruct (negb (String.eqb g "") && negb (String.eqb (trim g) ""));
      [|subst s'; by exists tk].
    subst s'.
    exists (Token.mk (Token._id tk) (Token.eventId tk) (Token.email tk)
                     (Some (trim g)) (Token.token tk) (Token.createdAt tk)
                     now).
    split; [|by simpl].
    unfold findToken, setTokenName. simpl.
    unfold findToken in Htk.
    assert (∀ y, y ∈ tokens s →
                 Nat.eqb (Token._id y) (Token._id tk) = true → y = tk) as Hu.
    { intros y Hy Hid%Nat.eqb_eq.
      apply find_some in Htk as [Hin _].
      apply (NoDup_fmap_eq Token._id (tokens s)); [done|done| |done].
      by apply list_elem_of_In. }
    exact (find_updateFirst_unique
             (λ t, String.eqb (Token.token t) tok)
             (λ t, Nat.eqb (Token._id t) (Token._id tk))
             (λ t, Token.mk (Token._id t) (Token.eventId t) (Token.email t)
                            (Some (trim g)) (Token.token t)
                            (Token.createdAt t) now)
             (tokens s) tk Htk (Nat.eqb_refl _) Hu (λ _, eq_refl)). }
  exists v, tk, tk', (rsvpData trim toLowerCase (nextId s) tk v now).
  by repeat (split; [done|]).
Qed.
End ReadBack.

(** The organizer reads back the answer just given: after a successful
    user RSVP the read route returns that response, with the identifier
    and status of the write. *)
Theorem getUserRsvp_after_submit s now caller e body s' id e' u st :
  submitUserRSVP s now caller e body = (s', UR_Ok id e' u st) →
  e' = e ∧ u = Some (User._id caller)
  ∧ getUserRsvp s' caller e
    = GR_Ok (Some (id, e, Some (User._id caller), st)).
Proof.
  unfold submitUserRSVP, getUserRsvp.
  destruct (isAdmin caller); simpl; [|done].
  destruct (rsvpSchema body) as [st'|]; [|done].
  destruct (findOwnEvent s e (User._id caller)) as [ev|] eqn:Hev; [|done].
  unfold upsertUserRsvp.
  destruct (List.find _ (rsvps s)) as [old|] eqn:Hold; simpl;
    intros [= <- <- <- <- <-]; unfold findOwnEvent in *; simpl;
    rewrite Hev; (split; [done|]); (split; [done|]).
  - erewrite find_updateFirst_same; [done|exact Hold|].
    apply isUserRsvp_set.
  - erewrite find_app_none; [done|exact Hold|].
    unfold isUserRsvp. simpl. by rewrite !Nat.eqb_refl.
Qed.

Lemma getUserRsvp_after_submit_witness :
  getUserRsvp Sample.mixed Sample.admin 0%nat
  = GR_Ok (Some (7%nat, 0%nat, Some (User._id Sample.admin), Maybe)).
Proof.
  destruct (getUserRsvp_after_submit
              (run Sample.rt Sample.overbooked
                   [(8, PostToken Sample.admin 0%nat
                                  (Sample.inviteBody "host@example.com") "hh"
                                  (Some "m4"))])
              9 Sample.admin 0%nat (Sample.statusBody "maybe")
              (run Sample.rt Sample.overbooked
                   [(8, PostToken Sample.admin 0%nat
                                  (Sample.inviteBody "host@example.com") "hh"
                                  (Some "m4"));
                    (9, PostRsvp Sample.admin 0%nat (Sample.statusBody "maybe"))])
              7%nat 0%nat (Some 1%nat) Maybe) as (_ & _ & H);
    [vm_compute; reflexivity|].
  etransitivity; [|exact H].
  vm_compute. reflexivity.
Defined.

(** The third guest of the sample signs as " Cy Young ". *)
Lemma guestName_propagates_witness :
  let out := submitTokenRSVP Sample.trim Sample.toLowerCase Sample.invited 5
                             "cc" Scenario.namedBody in
  ∃ tk' r,
    findToken out.1 "cc" = Some tk'
    ∧ Token.name tk' = Some "Cy Young"
    ∧ rsvps out.1 = rsvps Sample.invited ++ [r]
    ∧ RSVP.guestName r = Some "Cy Young".
Proof.
  intros out.
  destruct (guestName_propagates Sample.trim Sample.toLowerCase
              Sample.invited 5 "cc" Scenario.namedBody out.1 4%nat Going
              (Some 1%Q) 2%Q)
    as (v & tk & tk' & r & Hv & Htk & Htk' & Hname & _ & _ & _ & Hrs & Hg & _).
  - assert (Token._id <$> tokens Sample.invited = [1; 2; 3]%nat) as ->
      by (vm_compute; reflexivity).
    repeat (apply NoDup_cons_2; [set_solver|]). apply NoDup_nil_2.
  - vm_compute. reflexivity.
  - exists tk', r. split; [exact Htk'|].
    vm_compute in Hv. injection Hv as <-.
    vm_compute in Htk. injection Htk as <-.
    split; [exact Hname|]. split; [exact Hrs|exact Hg].
Defined.

(** ** The listing routes *)

Section Listings.
Variable dbSum : list Q -> Q.
Local Open Scope Z_scope.

Global Instance newerRsvpFirst_trans : Transitive newerRsvpFirst.
Proof. intros a b c. unfold newerRsvpFirst. lia. Qed.

Global Instance newerRsvpFirst_total : Total newerRsvpFirst.
Proof. intros a b. unfold newerRsvpFirst. lia. Qed.

Global Instance newerEventFirst_trans : Transitive newerEventFirst.
Proof. intros a b c. unfold newerEventFirst. lia. Qed.

Global Instance newerEventFirst_total : Total newerEventFirst.
Proof. intros a b. unfold newerEventFirst. lia. Qed.

Lemma rsvpRow_None s r : rsvpRow s r = None ↔ populateUserId s r = None.
Proof. unfold rsvpRow. by destruct (populateUserId s r). Qed.

Lemma mapM_rsvpRow s l rows :
  mapM (rsvpRow s) l = Some rows →
  rows = (λ r, mkRsvpRow (RSVP._id r) (RSVP.eventId r) "[object Object]"
                         (RSVP.status r) (RSVP.createdAt r)) <$> l.
Proof.
  intros H%mapM_Some_1. induction H as [|r row l rows Hr _ IH]; csimpl;
    [done|].
  unfold rsvpRow in Hr. destruct (populateUserId s r); [|done].
  injection Hr as <-. by rewrite IH.
Qed.

(** The list of all responses of an event cannot be produced as soon as
    one of them has no account behind it: the route answers 500 exactly
    when the event has a response whose user reference is missing or names
    no account, in particular whenever a guest has answered through an
    invitation link.  Otherwise it lists every response of the event,
    newest first. *)
Theorem allRsvps_outcome s caller e :
  isAdmin caller = true →
  is_Some (findOwnEvent s e (User._id caller)) →
  (allRsvps s caller e = AR_ServerError
   ↔ ∃ r, r ∈ rsvps s ∧ RSVP.eventId r = e ∧ populateUserId s r = None)
  ∧ (∀ r, r ∈ rsvps s → RSVP.eventId r = e → RSVP.userId r = None →
          allRsvps s caller e = AR_ServerError)
  ∧ (∀ rows, allRsvps s caller e = AR_Ok rows →
       ∃ sorted,
         sorted ≡ₚ List.filter (λ r, Nat.eqb (RSVP.eventId r) e) (rsvps s)
         ∧ StronglySorted newerRsvpFirst sorted
         ∧ rows = (λ r, mkRsvpRow (RSVP._id r) (RSVP.eventId r)
                                  "[object Object]" (RSVP.status r)
                                  (RSVP.createdAt r)) <$> sorted).
Proof.
  intros Hadm [ev Hev].
  set (found := merge_sort newerRsvpFirst
                  (List.filter (λ r, Nat.eqb (RSVP.eventId r) e) (rsvps s))).
  assert (∀ r, r ∈ found ↔ r ∈ rsvps s ∧ RSVP.eventId r = e) as Hfound.
  { intros r. unfold found.
    by rewrite merge_sort_Permutation, elem_of_List_filter, Nat.eqb_eq. }
  assert (allRsvps s caller e
          = match mapM (rsvpRow s) found with
            | Some rows => AR_Ok rows
            | None => AR_ServerError
            end) as Hall.
  { unfold allRsvps. by rewrite Hadm, Hev. }
  assert (allRsvps s caller e = AR_ServerError
          ↔ ∃ r, r ∈ rsvps s ∧ RSVP.eventId r = e ∧ populateUserId s r = None)
    as Hiff.
  { rewrite Hall. destruct (mapM (rsvpRow s) found) as [rows|] eqn:Hm.
    - split; [done|]. intros (r & Hr & He & Hp). exfalso.
      assert (is_Some (mapM (rsvpRow s) found)) as Hs by eauto.
      apply mapM_is_Some_1 in Hs. rewrite Forall_forall in Hs.
      destruct (Hs r) as [row Hrow]; [by apply Hfound|].
      simpl in Hrow. apply (rsvpRow_None s) in Hp. congruence.
    - split; [|done]. intros _.
      apply mapM_None_1, Exists_exists in Hm as (r & Hr & Hnone).
      exists r. apply Hfound in Hr as [? ?]. by rewrite <- rsvpRow_None. }
  split; [exact Hiff|]. split.
  - intros r Hr He Hu. apply Hiff. exists r. split; [done|]. split; [done|].
    unfold populateUserId. by rewrite Hu.
  - intros rows Hrows. rewrite Hall in Hrows.
    destruct (mapM (rsvpRow s) found) as [rows'|] eqn:Hm; [|done].
    injection Hrows as ->. exists found.
    split; [apply merge_sort_Permutation|].
    split; [apply StronglySorted_merge_sort; apply _|].
    by apply (mapM_rsvpRow s).
Qed.

Lemma js_Map_map_to_list {V} (m : gmap ObjectId V) :
  js_Map (map_to_list m) = m.
Proof.
  apply map_eq. intros k. destruct (m !! k) as [v|] eqn:Hk.
  - destruct (js_Map (map_to_list m) !! k) as [v'|] eqn:Hj.
    + apply js_Map_lookup_Some, elem_of_map_to_list in Hj. congruence.
    + exfalso. apply js_Map_lookup_None in Hj. apply Hj.
      apply list_elem_of_fmap. exists (k, v). split; [done|].
      by apply elem_of_map_to_list.
  - apply js_Map_lookup_None.
    intros ([k' v] & -> & Hin%elem_of_map_to_list)%list_elem_of_fmap.
    simpl in Hk. congruence.
Qed.

Lemma countOrZero_default m id :
  (countOrZero m id == default 0 (m !! id))%Q.
Proof.
  unfold countOrZero. destruct (m !! id) as [q|]; simpl; [|reflexivity].
  destruct (Qeq_bool q 0) eqn:E; [|reflexivity].
  apply Qeq_bool_iff in E. by symmetry.
Qed.

(** The values the aggregation adds up for one event. *)
Lemma groupAddends_fold (ids : list ObjectId) (e : ObjectId)
    (l : list RSVP.t) :
  ∀ m : gmap ObjectId (list Q),
  e ∈ ids →
  foldl (λ m r,
           if bool_decide (RSVP.eventId r ∈ ids)
              && bool_decide (RSVP.status r = Going)
           then <[RSVP.eventId r :=
                    default [] (m !! RSVP.eventId r)
                    ++ [js_add 1 (default 0%Q (RSVP.companions r))]]> m
           else m) m l !! e
  = match List.filter (isGoingRsvp e) l with
    | [] => m !! e
    | going =>
        Some (default [] (m !! e)
              ++ ((λ r, js_add 1 (default 0%Q (RSVP.companions r)))
                    <$> going))
    end.
Proof.
  induction l as [|r l IH]; intros m He; [done|].
  cbn [foldl List.filter]. rewrite IH by done.
  destruct (isGoingRsvp e r) eqn:Hg; unfold isGoingRsvp in Hg.
  - apply andb_true_iff in Hg as [Heq Hst]. apply Nat.eqb_eq in Heq.
    rewrite Heq, Hst, (bool_decide_eq_true_2 (e ∈ ids)) by done.
    cbn [andb]. rewrite lookup_insert_eq.
    destruct (List.filter (isGoingRsvp e) l); simpl; [done|].
    by rewrite <- app_assoc.
  - destruct (bool_decide (RSVP.eventId r ∈ ids)
              && bool_decide (RSVP.status r = Going)) eqn:Hb; [|done].
    rewrite lookup_insert_ne; [done|]. intros Heq.
    apply andb_true_iff in Hb as [_ Hb].
    by rewrite Heq, Nat.eqb_refl, Hb in Hg.
Qed.

Lemma foldr_add_snoc zs z :
  foldr Z.add 0 (zs ++ [z]) = foldr Z.add 0 zs + z.
Proof. induction zs as [|x zs IH]; simpl; lia. Qed.

(** On whole counts the values added up are whole, and their sum is the
    count of the token route. *)
Lemma addends_whole l :
  Forall wholeCompanions l →
  6 * Z.of_nat (length l) ≤ 2 ^ 53 →
  ∃ zs : list Z,
    (λ r, js_add 1 (default 0%Q (RSVP.companions r))) <$> l = inject_Z <$> zs
    ∧ Forall (λ z, 0 ≤ z) zs
    ∧ 0 ≤ foldr Z.add 0 zs ≤ 6 * Z.of_nat (length l)
    ∧ reduceAttendees l = inject_Z (foldr Z.add 0 zs).
Proof.
  induction l as [|r l IH] using rev_ind; intros Hw Hlen.
  { exists []. simpl. repeat split; try done; lia. }
  apply Forall_app in Hw as [Hl Hr]. apply Forall_cons in Hr as [Hr _].
  rewrite length_app in Hlen |- *. simpl in Hlen |- *.
  destruct IH as (zs & Hzs & Hpos & Hsum & Hred); [done|lia|].
  assert (∃ n : Z, 0 ≤ n ≤ 5
                   ∧ (default 0 (RSVP.companions r) == inject_Z n)%Q)
    as (n & Hn & Hc).
  { unfold wholeCompanions in Hr. destruct (RSVP.companions r) as [q|].
    - exact Hr.
    - exists 0. split; [lia|reflexivity]. }
  exists (zs ++ [1 + n]). rewrite !fmap_app, Hzs, foldr_add_snoc. simpl.
  split.
  { do 2 f_equal. apply js_add_whole; [lia|reflexivity|exact Hc]. }
  split; [apply Forall_app; split; [done|]; apply Forall_cons_2;
          [lia|apply Forall_nil_2]|].
  split; [lia|].
  rewrite reduceAttendees_snoc, Hred.
  replace (foldr Z.add 0 zs + (1 + n)) with (foldr Z.add 0 zs + 1 + n) by lia.
  apply js_add_whole; [lia| |by rewrite companionsOrZero_default].
  rewrite (js_add_whole (foldr Z.add 0 zs) 1);
    [reflexivity|lia|reflexivity|reflexivity].
Qed.

(** The event list shows the organizer exactly their own events, newest
    first.  When the companion counts of the going responses are whole and
    the accumulator of the database adds whole numbers exactly, the
    attendee count shown for each event is the number the token route
    checks against the capacity. *)
Theorem listEvents_counts s caller :
  isAdmin caller = true →
  exactOnWhole dbSum →
  Forall wholeCompanions
         (List.filter (λ r, bool_decide (RSVP.status r = Going)) (rsvps s)) →
  6 * Z.of_nat (length (rsvps s)) ≤ 2 ^ 53 →
  ∃ own rows,
    listEvents dbSum s caller = EL_Ok rows
    ∧ own ≡ₚ List.filter (λ e, Nat.eqb (Event.createdBy e) (User._id caller))
                         (events s)
    ∧ StronglySorted newerEventFirst own
    ∧ Forall2 (λ ev row,
                 er_event row = eventView ev
                 ∧ er_allowedCompanions row = 0%Q
                 ∧ (er_rsvpCount row == currentAttendees s (Event._id ev))%Q)
              own rows.
Proof.
  intros Hadm Hsum Hw Hlen. unfold listEvents. rewrite Hadm. simpl.
  set (own := merge_sort newerEventFirst _).
  eexists own, _. split; [reflexivity|].
  split; [apply merge_sort_Permutation|].
  split; [apply StronglySorted_merge_sort; apply _|].
  apply Forall2_fmap_r, Forall_Forall2_diag, Forall_forall.
  intros ev Hev. simpl. split; [done|]. split; [done|].
  rewrite js_Map_map_to_list, countOrZero_default.
  unfold aggregateGoing, groupAddends. rewrite lookup_fmap.
  rewrite groupAddends_fold by (by apply list_elem_of_fmap_2).
  rewrite lookup_empty. unfold currentAttendees.
  set (going := List.filter (isGoingRsvp (Event._id ev)) (rsvps s)).
  assert (Forall wholeCompanions going) as Hgoing.
  { rewrite Forall_forall in Hw |- *.
    intros r [Hr Hg]%elem_of_List_filter. apply Hw.
    apply elem_of_List_filter. split; [done|].
    unfold isGoingRsvp in Hg. by apply andb_true_iff in Hg as [_ Hg]. }
  assert (Z.of_nat (length going) ≤ Z.of_nat (length (rsvps s))) as Hshort.
  { apply inj_le. apply List.filter_length_le. }
  destruct (addends_whole going Hgoing) as (zs & Hzs & Hpos & Hb & Hred);
    [lia|].
  rewrite Hred. destruct going as [|r going'].
  { symmetry in Hzs. apply fmap_nil_inv in Hzs. subst zs. reflexivity. }
  change (default 0%Q (Some (dbSum
             ((λ r, js_add 1 (default 0%Q (RSVP.companions r)))
                <$> r :: going')))
          == inject_Z (foldr Z.add 0%Z zs))%Q.
  rewrite Hzs. simpl. rewrite Hsum; [reflexivity|done|lia].
Qed.

(** The status filters split the invitee list: every row is kept by
    exactly one of "pending", "going", "maybe" and "not-going", so the
    four totals add up to the unfiltered total; no filter (or an empty
    one) keeps every row, and any other filter value keeps none. *)
Theorem status_filters_partition (l : list Invitee) :
  (length (applyStatusFilter (Some "pending") l)
   + length (applyStatusFilter (Some "going") l)
   + length (applyStatusFilter (Some "maybe") l)
   + length (applyStatusFilter (Some "not-going") l) = length l)%nat
  ∧ applyStatusFilter None l = l
  ∧ applyStatusFilter (Some "") l = l
  ∧ (∀ st, applyStatusFilter (Some (status_to_string st)) l
           = rowsWithStatus st l)
  ∧ (∀ f, f ≠ "" → f ≠ "pending" → f ≠ "going" → f ≠ "maybe" →
          f ≠ "not-going" → applyStatusFilter (Some f) l = []).
Proof.
  split; [|split; [done|split; [done|split]]].
  - unfold applyStatusFilter. simpl.
    induction l as [|row l IH]; simpl; [done|].
    destruct (rsvpStatus row) as [[]|]; simpl; lia.
  - intros st. unfold applyStatusFilter, rowsWithStatus. by destruct st.
  - intros f H0 H1 H2 H3 H4. unfold applyStatusFilter.
    apply String.eqb_neq in H0, H1. rewrite H0, H1.
    induction l as [|row l IH]; simpl; [done|].
    destruct (rsvpStatus row) as [st|]; [|done].
    destruct (String.eqb_spec (status_to_string st) f) as [Heq|_]; [|done].
    destruct st; simpl in Heq; congruence.
Qed.

(** Pages of a positive size: a page never has more rows than the limit,
    every page before the last is full, a page after the last is empty,
    and the number of pages reported is the least number of pages of that
    size that hold all rows. *)
Theorem pagination_pages {A} (l : list A) (page limit : Z) :
  1 ≤ page → 1 ≤ limit →
  let skip := (page - 1) * limit in
  let total := Z.of_nat (length l) in
  let totalPages := ceilDiv total limit in
  let rows := js_slice l skip (skip + limit) in
  Z.of_nat (length rows) ≤ limit
  ∧ (page < totalPages → Z.of_nat (length rows) = limit)
  ∧ (totalPages < page → rows = [])
  ∧ total ≤ totalPages * limit
  ∧ (totalPages - 1) * limit < total
  ∧ rows = take (Z.to_nat limit) (drop (Z.to_nat skip) l).
Proof.
  intros Hp Hl skip total totalPages rows.
  assert (rows = take (Z.to_nat limit) (drop (Z.to_nat skip) l)) as Hrows
    by (apply js_slice_page; unfold skip; nia).
  assert (total ≤ totalPages * limit ∧ (totalPages - 1) * limit < total)
    as [Hup Hlow].
  { unfold totalPages, ceilDiv.
    pose proof (Z.mul_div_le (- total) limit ltac:(lia)).
    pose proof (Z.mul_succ_div_gt (- total) limit ltac:(lia)).
    nia. }
  assert (Z.of_nat (length rows)
          = Z.min limit (Z.max 0 (total - skip))) as Hlen.
  { assert (0 ≤ skip) as Hskip by (unfold skip; nia).
    rewrite Hrows, length_take, length_drop. unfold total.
    clear -Hskip Hl. lia. }
  split; [lia|]. split; [|split; [|split; [done|split; [|done]]]].
  - intros Hlt. rewrite Hlen. unfold skip. nia.
  - intros Hgt. apply nil_length_inv.
    assert (Z.of_nat (length rows) = 0); [|lia].
    rewrite Hlen. unfold skip. nia.
  - done.
Qed.
End Listings.

(** On the sample installation the event has answers given through
    invitation links, so the list of all responses cannot be produced. *)
Lemma allRsvps_outcome_witness :
  allRsvps Sample.mixed Sample.admin 0%nat = AR_ServerError.
Proof.
  destruct (allRsvps_outcome Sample.mixed Sample.admin 0%nat)
    as (_ & Hguest & _); [reflexivity|vm_compute; eauto|].
  apply (Hguest Sample.rsvpA); [|reflexivity|reflexivity].
  assert (rsvps Sample.mixed
          = [Sample.rsvpA;
             RSVP.mk 5%nat 0%nat None (Some 2%nat) Going (Some 5%Q) None
                     (Some "bob@example.com") None None 6 6;
             RSVP.mk 7%nat 0%nat (Some 1%nat) None Maybe (Some 0%Q) None
                     None None None 9 9]) as ->
    by (vm_compute; reflexivity).
  apply list_elem_of_here.
Defined.

(** The stand-in accumulator adds whole numbers exactly. *)
Lemma Sample_dbSum_exact : exactOnWhole Sample.dbSum.
Proof.
  intros zs Hpos Hsum. unfold Sample.dbSum.
  assert (∀ a, 0 ≤ a → a + foldr Z.add 0 zs ≤ 2 ^ 53 →
               fold_left js_add (inject_Z <$> zs) (inject_Z a)
               = inject_Z (a + foldr Z.add 0 zs)) as Hgen.
  { clear Hsum. induction Hpos as [|z zs Hz Hzs IH]; intros a Ha Hb; simpl.
    - by rewrite Z.add_0_r.
    - simpl in Hb.
      assert (0 ≤ foldr Z.add 0 zs) as Hnn.
      { clear -Hzs. induction Hzs; simpl; lia. }
      rewrite (js_add_whole a z); [|lia|reflexivity|reflexivity].
      rewrite IH; [f_equal; lia|lia|lia]. }
  apply (Hgen 0); [lia|exact Hsum].
Qed.

(** The overbooked sample event is listed with its 12 attendees. *)
Lemma listEvents_counts_witness :
  ∃ own rows,
    listEvents Sample.dbSum Sample.overbooked Sample.admin = EL_Ok rows
    ∧ own ≡ₚ List.filter (λ e, Nat.eqb (Event.createdBy e)
                                       (User._id Sample.admin))
                         (events Sample.overbooked)
    ∧ StronglySorted newerEventFirst own
    ∧ Forall2 (λ ev row,
                 er_event row = eventView ev
                 ∧ er_allowedCompanions row = 0%Q
                 ∧ (er_rsvpCount row
                    == currentAttendees Sample.overbooked (Event._id ev))%Q)
              own rows.
Proof.
  apply (listEvents_counts Sample.dbSum Sample.overbooked Sample.admin).
  - reflexivity.
  - exact Sample_dbSum_exact.
  - assert (rsvps Sample.overbooked
            = [Sample.rsvpA;
               RSVP.mk 5%nat 0%nat None (Some 2%nat) Going (Some 5%Q) None
                       (Some "bob@example.com") None None 6 6]) as ->
      by (vm_compute; reflexivity).
    simpl. repeat apply Forall_cons_2; try apply Forall_nil_2;
      (exists 5; split; [lia|reflexivity]).
  - vm_compute. discriminate.
Defined.

Lemma status_filters_partition_witness :
  applyStatusFilter (Some "declined")
                    (tokensWithStatus Sample.regexTest Sample.mixed 0%nat None)
  = [].
Proof.
  destruct (status_filters_partition
              (tokensWithStatus Sample.regexTest Sample.mixed 0%nat None))
    as (_ & _ & _ & _ & Hother).
  apply Hother; discriminate.
Defined.

Lemma pagination_pages_witness :
  let skip := (2 - 1) * 2 in
  let total := Z.of_nat (length [10; 20; 30; 40; 50]) in
  let totalPages := ceilDiv total 2 in
  let rows := js_slice [10; 20; 30; 40; 50] skip (skip + 2) in
  Z.of_nat (length rows) ≤ 2
  ∧ (2 < totalPages → Z.of_nat (length rows) = 2)
  ∧ (totalPages < 2 → rows = [])
  ∧ total ≤ totalPages * 2
  ∧ (totalPages - 1) * 2 < total
  ∧ rows = take (Z.to_nat 2) (drop (Z.to_nat skip) [10; 20; 30; 40; 50]).
Proof.
  apply (pagination_pages [10; 20; 30; 40; 50] 2 2); lia.
Defined.

(** ** Answers given through the account *)

Section AccountAnswers.
Variable regexTest : string -> string -> bool.

Lemma resolveToken_account m1 m2 m3 t uid st c :
  m3 !! Token._id t = None →
  m1 !! Token.email t = Some uid →
  m2 !! uid = Some (st, c) →
  resolveToken m1 m2 m3 t = inviteeOf t (Some st) c.
Proof. unfold resolveToken. by intros -> -> ->. Qed.

(** When no response is bound to an invitation but the account with the
    invitation's address has answered for the event, the invitee list
    shows the account's answer on the invitation's row. *)
Theorem account_answer_shown s e search t u r :
  NoDup (User.email <$> users s) →
  t ∈ tokens s →
  matchesSearch regexTest e search t = true →
  (¬ ∃ r', r' ∈ rsvps s ∧ RSVP.eventId r' = e
           ∧ RSVP.tokenId r' = Some (Token._id t)) →
  u ∈ users s →
  User.email u = Token.email t →
  r ∈ rsvps s → RSVP.eventId r = e → RSVP.userId r = Some (User._id u) →
  ∃ r', r' ∈ rsvps s ∧ RSVP.eventId r' = e
        ∧ RSVP.userId r' = Some (User._id u)
        ∧ inviteeOf t (Some (RSVP.status r')) (companionsOrZero r')
          ∈ tokensWithStatus regexTest s e search.
Proof.
  intros Hnd Ht Hm Hnotok Hu Hem Hr He Hid.
  set (all := allTokens regexTest s e search).
  assert (t ∈ all) as Hall by (by apply allTokens_elem).
  assert (u ∈ foundUsers s all) as Hfound by (apply foundUsers_elem; eauto).
  apply (tokenMap_None s e all t Hall) in Hnotok.
  destruct (emailToUserIdMap s all !! Token.email t) as [uid|] eqn:Hm1.
  2:{ exfalso. apply (emailMap_None s all t Hall) in Hm1. apply Hm1. eauto. }
  destruct (emailMap_Some _ _ _ _ Hm1) as (u' & Hu' & Hem' & <-).
  assert (u' = u) as ->.
  { apply (NoDup_fmap_eq User.email (users s)); [done| |done|congruence].
    by apply foundUsers_elem in Hu' as [? _]. }
  destruct (userIdToRsvpMap s e all !! User._id u) as [[st c]|] eqn:Hm2.
  2:{ exfalso. apply (userMap_None s e all u Hfound) in Hm2.
      apply Hm2. eauto. }
  destruct (userMap_Some _ _ _ _ _ Hm2) as (r' & Hr' & He' & Hid' & [= -> ->]).
  exists r'. repeat (split; [done|]).
  unfold tokensWithStatus. fold all. apply list_elem_of_fmap.
  exists t. split; [|done]. symmetry.
  by apply (resolveToken_account _ _ _ _ (User._id u)).
Qed.
End AccountAnswers.

(** The organizer's own first answer is never refused for capacity, and
    when it says going it takes one place: the attendee count that the
    token route checks for the event is the one before with [1] added
    (the organizer's [0] companions change nothing), which is one more
    when the count is a whole number below [2 ^ 53]. *)
Theorem organizer_answer_counts s now caller e body s' id e' u :
  submitUserRSVP s now caller e body = (s', UR_Ok id e' u Going) →
  List.find (isUserRsvp e (User._id caller)) (rsvps s) = None →
  currentAttendees s' e = js_add (currentAttendees s e) 1
  ∧ (∀ k : Z, 0 ≤ k < 2 ^ 53 →
       (currentAttendees s e == inject_Z k)%Q →
       (currentAttendees s' e == currentAttendees s e + 1)%Q)
  ∧ ∀ e2, e2 ≠ e → currentAttendees s' e2 = currentAttendees s e2.
Proof.
  unfold submitUserRSVP.
  destruct (isAdmin caller); simpl; [|done].
  destruct (rsvpSchema body) as [st|]; [|done].
  destruct (findOwnEvent s e (User._id caller)) as [ev|]; [|done].
  unfold upsertUserRsvp. intros H Hnone. rewrite Hnone in H. simpl in H.
  injection H as <- <- <- <- ->.
  set (r := newUserRsvp (nextId s) e (User._id caller) Going now).
  pose proof (currentAttendees_app_going s
                (bump_nextId (set_rsvps s (rsvps s ++ [r]))) r
                eq_refl eq_refl) as Hc.
  change (RSVP.eventId r) with e in Hc.
  change (companionsOrZero r) with 0%Q in Hc. rewrite js_add_0_r in Hc.
  split; [exact Hc|]. split.
  - intros k Hk Hcur. rewrite Hc.
    rewrite (js_add_whole k 1); [|lia|exact Hcur|reflexivity].
    rewrite Hcur, inject_Z_plus. reflexivity.
  - intros e2 He2.
    apply (currentAttendees_app_other s _ r); [done|]. simpl. congruence.
Qed.

(** The sample organizer answers going on the overbooked event: 12
    attendees become 13 against a capacity of 10. *)
Lemma organizer_answer_counts_witness :
  let out := submitUserRSVP Sample.overbooked 8 Sample.admin 0%nat
                            (Sample.statusBody "going") in
  (currentAttendees out.1 0%nat == 13)%Q.
Proof.
  intros out.
  destruct (organizer_answer_counts Sample.overbooked 8 Sample.admin 0%nat
              (Sample.statusBody "going") out.1 6%nat 0%nat (Some 1%nat))
    as (_ & H & _); [vm_compute; reflexivity|vm_compute; reflexivity|].
  rewrite (H 12); [vm_compute; reflexivity|lia|vm_compute; reflexivity].
Defined.

Lemma account_answer_shown_witness :
  ∃ r', r' ∈ rsvps Sample.mixed ∧ RSVP.eventId r' = 0%nat
        ∧ RSVP.userId r' = Some (User._id Sample.admin)
        ∧ inviteeOf (Token.mk 6%nat 0%nat "host@example.com" None "hh" 8 8)
                    (Some (RSVP.status r')) (companionsOrZero r')
          ∈ tokensWithStatus Sample.regexTest Sample.mixed 0%nat None.
Proof.
  assert (rsvps Sample.mixed
          = [Sample.rsvpA;
             RSVP.mk 5%nat 0%nat None (Some 2%nat) Going (Some 5%Q) None
                     (Some "bob@example.com") None None 6 6;
             RSVP.mk 7%nat 0%nat (Some 1%nat) None Maybe (Some 0%Q) None
                     None None None 9 9]) as Hrs
    by (vm_compute; reflexivity).
  assert (users Sample.mixed = [Sample.admin; Sample.guest]) as Hus
    by (vm_compute; reflexivity).
  apply (account_answer_shown Sample.regexTest Sample.mixed 0%nat None
           (Token.mk 6%nat 0%nat "host@example.com" None "hh" 8 8)
           Sample.admin
           (RSVP.mk 7%nat 0%nat (Some 1%nat) None Maybe (Some 0%Q) None
                    None None None 9 9)).
  - rewrite Hus. apply NoDup_cons_2; [|apply NoDup_singleton].
    rewrite list_elem_of_singleton. discriminate.
  - assert (tokens Sample.mixed !! 3%nat
            = Some (Token.mk 6%nat 0%nat "host@example.com" None "hh" 8 8))
      as Hl by (vm_compute; reflexivity).
    by apply list_elem_of_lookup_2 in Hl.
  - reflexivity.
  - rewrite Hrs. intros (r' & Hin & _ & Htok).
    repeat (apply elem_of_cons in Hin as [->|Hin]; [by simpl in Htok|]).
    by apply elem_of_nil in Hin.
  - rewrite Hus. apply list_elem_of_here.
  - reflexivity.
  - rewrite Hrs. do 2 apply list_elem_of_further. apply list_elem_of_here.
  - reflexivity.
  - reflexivity.
Defined.
